(** * A bounded LRU cache over a hash index and a recency list

    Shallow embedding of [cache_manager.c]: the nodes live in an explicit
    store addressed by pointers, the cache structure holds the bucket array
    and the two ends of the doubly-linked recency list, and every function
    of the C file is a function on that state.  A result [None] stands for
    an execution that does not return a value: an access through a dangling
    or null pointer, a division by a zero bucket count, or a chain walk that
    never reaches the end of its chain. *)

From stdpp Require Import gmap strings list fin_maps.
From Stdlib Require Import ZArith Lia Ascii.

Open Scope Z_scope.

(** ** Machine arithmetic

    [size_t] and [unsigned long] are 64-bit unsigned integers (LP64, the data
    model of the POSIX platforms the pthread code targets); their arithmetic
    wraps around. *)

Definition word_bits : Z := 64.
Definition word_max : Z := 2 ^ word_bits.
Definition wrap (z : Z) : Z := z mod word_max.

(** ** C strings

    A [string] stands for the bytes a [char *] points to; the C functions
    read it up to the first zero byte or to its end. *)

Definition uchar (c : ascii) : Z := Z.of_N (N_of_ascii c).

(** The characters before the terminator: what [strdup] copies. *)
Fixpoint cstr (s : string) : string :=
  match s with
  | EmptyString => EmptyString
  | String c r => if uchar c =? 0 then EmptyString else String c (cstr r)
  end.

Fixpoint strcmp (a b : string) : Z :=
  match a, b with
  | EmptyString, EmptyString => 0
  | EmptyString, String d _ => - uchar d
  | String c _, EmptyString => uchar c
  | String c a', String d b' =>
      if uchar c =? uchar d
      then (if uchar c =? 0 then 0 else strcmp a' b')
      else uchar c - uchar d
  end.

(** djb2: [hash = ((hash << 5) + hash) + c] for every byte up to the
    terminator, starting from 5381. *)
Fixpoint hash_loop (str : string) (hash : Z) : Z :=
  match str with
  | EmptyString => hash
  | String ch rest =>
      let c := uchar ch in
      if c =? 0 then hash
      else hash_loop rest (wrap (wrap (wrap (Z.shiftl hash 5) + hash) + c))
  end.

Definition hash_str (str : string) : Z := hash_loop str 5381.

(** ** The store *)

Abbreviation ptr := positive (only parsing).

Module N.
Record node := mk {
  key : option string;
  value : option string;
  prev : option ptr;
  next : option ptr;
  hnext : option ptr
}.
End N.
Abbreviation node := N.node.

Module C.
Record cache_t := mk {
  capacity : Z;
  size : Z;
  hsize : Z;
  htable : list (option ptr);
  head : option ptr;
  tail : option ptr
}.
End C.
Abbreviation cache_t := C.cache_t.

(** The operations applied to the [pthread_rwlock_t] of the cache. *)
Inductive lock_op := rdlock | wrlock | unlock.

(** The memory a cache handle designates: the nodes, the cache structure,
    the outcomes of the allocation requests to come (an exhausted list means
    that memory is available) and the history of the lock. *)
Record world := World {
  nodes : gmap positive node;
  self : cache_t;
  avail : list bool;
  events : list lock_op
}.

Definition set_nodes (w : world) (h : gmap positive node) : world :=
  World h (self w) (avail w) (events w).
Definition set_cache (w : world) (c : cache_t) : world :=
  World (nodes w) c (avail w) (events w).
Definition set_avail (w : world) (av : list bool) : world :=
  World (nodes w) (self w) av (events w).
Definition lock_event (e : lock_op) (w : world) : world :=
  World (nodes w) (self w) (avail w) (events w ++ [e]).

Definition set_key (n : node) (x : option string) : node :=
  N.mk x (N.value n) (N.prev n) (N.next n) (N.hnext n).
Definition set_value (n : node) (x : option string) : node :=
  N.mk (N.key n) x (N.prev n) (N.next n) (N.hnext n).
Definition set_prev (n : node) (x : option ptr) : node :=
  N.mk (N.key n) (N.value n) x (N.next n) (N.hnext n).
Definition set_next (n : node) (x : option ptr) : node :=
  N.mk (N.key n) (N.value n) (N.prev n) x (N.hnext n).
Definition set_hnext (n : node) (x : option ptr) : node :=
  N.mk (N.key n) (N.value n) (N.prev n) (N.next n) x.

Definition set_size (w : world) (x : Z) : world :=
  let c := self w in
  set_cache w (C.mk (C.capacity c) x (C.hsize c) (C.htable c) (C.head c) (C.tail c)).
Definition set_htable (w : world) (x : list (option ptr)) : world :=
  let c := self w in
  set_cache w (C.mk (C.capacity c) (C.size c) (C.hsize c) x (C.head c) (C.tail c)).
Definition set_head (w : world) (x : option ptr) : world :=
  let c := self w in
  set_cache w (C.mk (C.capacity c) (C.size c) (C.hsize c) (C.htable c) x (C.tail c)).
Definition set_tail (w : world) (x : option ptr) : world :=
  let c := self w in
  set_cache w (C.mk (C.capacity c) (C.size c) (C.hsize c) (C.htable c) (C.head c) x).

(** [p->field = x]: defined only on a live node. *)
Definition store (w : world) (p : ptr) (f : node → node) : option world :=
  n ← nodes w !! p; Some (set_nodes w (<[p := f n]> (nodes w))).

(** [c->htable[hv] = x]: defined only inside the array. *)
Definition store_bucket (w : world) (hv : Z) (x : option ptr) : option world :=
  let t := C.htable (self w) in
  if decide (Z.to_nat hv < length t)%nat
  then Some (set_htable w (<[Z.to_nat hv := x]> t))
  else None.

Definition load_bucket (w : world) (hv : Z) : option (option ptr) :=
  C.htable (self w) !! Z.to_nat hv.

(** [hash_str(key) % c->hsize] *)
Definition bucket_index (w : world) (k : string) : option Z :=
  let hs := C.hsize (self w) in
  if hs =? 0 then None else Some (hash_str k mod hs).

(** ** The allocator

    Every request consumes one outcome.  A node occupies [sizeof(node)]
    bytes of a 64-bit address space, so [calloc] cannot return one more
    node once the live ones fill it.  The address returned is one that is
    not in use. *)

Definition sizeof_node : Z := 40.
Definition sizeof_ptr : Z := 8.

Definition next_outcome (av : list bool) : bool * list bool :=
  match av with
  | [] => (true, [])
  | b :: av' => (b, av')
  end.

Definition address_room (h : gmap positive node) : bool :=
  (Z.of_nat (S (base.size h)) * sizeof_node <? word_max).

Definition zero_node : node := N.mk None None None None None.

Definition calloc_node (w : world) : option ptr * world :=
  let (ok, av) := next_outcome (avail w) in
  let w := set_avail w av in
  if ok && address_room (nodes w)
  then let p := fresh (dom (nodes w)) in
       (Some p, set_nodes w (<[p := zero_node]> (nodes w)))
  else (None, w).

Definition strdup (w : world) (s : string) : option string * world :=
  let (ok, av) := next_outcome (avail w) in
  ((if ok then Some (cstr s) else None), set_avail w av).

(** [free(n)] of a node; the strings it owns go with it. *)
Definition free_node (w : world) (p : ptr) : option world :=
  _ ← nodes w !! p; Some (set_nodes w (delete p (nodes w))).

(** ** Nodes *)

Definition node_create (w : world) (key value : string) : option (option ptr * world) :=
  let (n, w) := calloc_node w in
  match n with
  | None => Some (None, w)
  | Some n =>
      let (k, w) := strdup w key in
      w ← store w n (λ x, set_key x k);
      let (v, w) := strdup w value in
      w ← store w n (λ x, set_value x v);
      nd ← nodes w !! n;
      match N.key nd, N.value nd with
      | Some _, Some _ => Some (Some n, w)
      | _, _ => w ← free_node w n; Some (None, w)
      end
  end.

Definition node_free (w : world) (n : option ptr) : option world :=
  match n with
  | None => Some w
  | Some n => free_node w n
  end.

(** ** The recency list *)

Definition dll_remove (w : world) (n : ptr) : option world :=
  nd ← nodes w !! n;
  w ← match N.prev nd with
      | Some q => store w q (λ x, set_next x (N.next nd))
      | None => Some (set_head w (N.next nd))
      end;
  nd ← nodes w !! n;
  w ← match N.next nd with
      | Some q => store w q (λ x, set_prev x (N.prev nd))
      | None => Some (set_tail w (N.prev nd))
      end;
  store w n (λ x, set_prev (set_next x None) None).

Definition dll_push_head (w : world) (n : ptr) : option world :=
  w ← store w n (λ x, set_prev x None);
  w ← store w n (λ x, set_next x (C.head (self w)));
  w ← match C.head (self w) with
      | Some q => store w q (λ x, set_prev x (Some n))
      | None => Some w
      end;
  let w := set_head w (Some n) in
  Some (match C.tail (self w) with
        | None => set_tail w (Some n)
        | Some _ => w
        end).

(** ** The hash index *)

(** The number of iterations granted to a chain walk: a chain of live,
    distinct nodes is shorter. *)
Definition fuel_of (w : world) : nat := S (base.size (nodes w)).
Arguments fuel_of : simpl never.

Fixpoint htable_remove_loop (fuel : nat) (w : world) (hv : Z) (n : ptr)
    (cur prev : option ptr) : option world :=
  match fuel with
  | O => None
  | S fuel =>
      match cur with
      | None => Some w
      | Some c =>
          if decide (c = n) then
            cn ← nodes w !! c;
            w ← match prev with
                | Some q => store w q (λ x, set_hnext x (N.hnext cn))
                | None => store_bucket w hv (N.hnext cn)
                end;
            store w c (λ x, set_hnext x None)
          else
            cn ← nodes w !! c;
            htable_remove_loop fuel w hv n (N.hnext cn) (Some c)
      end
  end.

Definition htable_remove (w : world) (n : ptr) : option world :=
  nd ← nodes w !! n;
  k ← N.key nd;
  hv ← bucket_index w k;
  cur ← load_bucket w hv;
  htable_remove_loop (fuel_of w) w hv n cur None.

Definition htable_insert (w : world) (n : ptr) : option world :=
  nd ← nodes w !! n;
  k ← N.key nd;
  hv ← bucket_index w k;
  b ← load_bucket w hv;
  w ← store w n (λ x, set_hnext x b);
  store_bucket w hv (Some n).

(** The lookup loop of [cache_put] and [cache_get]: the first node of the
    chain whose key compares equal. *)
Fixpoint find_key (fuel : nat) (h : gmap positive node) (cur : option ptr)
    (key : string) : option (option ptr) :=
  match fuel with
  | O => None
  | S fuel =>
      match cur with
      | None => Some None
      | Some c =>
          cn ← h !! c;
          ck ← N.key cn;
          if strcmp ck key =? 0 then Some (Some c)
          else find_key fuel h (N.hnext cn) key
      end
  end.

(** The lookup loop of [cache_delete], which also tracks the predecessor. *)
Fixpoint find_key_prev (fuel : nat) (h : gmap positive node) (cur prev : option ptr)
    (key : string) : option (option ptr * option ptr) :=
  match fuel with
  | O => None
  | S fuel =>
      match cur with
      | None => Some (None, prev)
      | Some c =>
          cn ← h !! c;
          ck ← N.key cn;
          if strcmp ck key =? 0 then Some (Some c, prev)
          else find_key_prev fuel h (N.hnext cn) (Some c) key
      end
  end.

Definition lookup_key (w : world) (key : string) : option (option ptr) :=
  hv ← bucket_index w key;
  cur ← load_bucket w hv;
  find_key (fuel_of w) (nodes w) cur key.

(** ** The public operations *)

Definition calloc_cache (av : list bool) : option cache_t * list bool :=
  let (ok, av) := next_outcome av in
  ((if ok then Some (C.mk 0 0 0 [] None None) else None), av).

(** [calloc(nmemb, sizeof(node * ))] fails when the byte count does not fit. *)
Definition calloc_table (av : list bool) (nmemb : Z) : option (list (option ptr)) * list bool :=
  let (ok, av) := next_outcome av in
  ((if ok && (nmemb * sizeof_ptr <? word_max)
    then Some (replicate (Z.to_nat nmemb) None) else None), av).

Definition cache_create (capacity : Z) (av : list bool) : option world :=
  if capacity =? 0 then None else
  let (c, av) := calloc_cache av in
  match c with
  | None => None
  | Some c =>
      let c := C.mk capacity (C.size c) (C.hsize c) (C.htable c) (C.head c) (C.tail c) in
      let c := C.mk (C.capacity c) 0 (C.hsize c) (C.htable c) (C.head c) (C.tail c) in
      let c := C.mk (C.capacity c) (C.size c) (wrap (capacity * 2 + 1)) (C.htable c)
                    (C.head c) (C.tail c) in
      let (t, av) := calloc_table av (C.hsize c) in
      match t with
      | None => None
      | Some t =>
          let c := C.mk (C.capacity c) (C.size c) (C.hsize c) t (C.head c) (C.tail c) in
          let c := C.mk (C.capacity c) (C.size c) (C.hsize c) (C.htable c) None None in
          Some (World ∅ c av [])
      end
  end.

(** The part of [cache_put] that runs once the key was not found. *)
Definition put_insert (w : world) (key value : string) : option (Z * world) :=
  '(n, w) ← node_create w key value;
  match n with
  | None => Some (-1, lock_event unlock w)
  | Some n =>
      w ← htable_insert w n;
      w ← dll_push_head w n;
      let w := set_size w (wrap (C.size (self w) + 1)) in
      w ← (if C.capacity (self w) <? C.size (self w) then
             match C.tail (self w) with
             | Some ev =>
                 w ← dll_remove w ev;
                 w ← htable_remove w ev;
                 let w := set_size w (wrap (C.size (self w) - 1)) in
                 node_free w (Some ev)
             | None => Some w
             end
           else Some w);
      Some (0, lock_event unlock w)
  end.

(** The part of [cache_put] that runs on the node found for the key. *)
Definition put_update (w : world) (cur : ptr) (value : string) : option (Z * world) :=
  let (nv, w) := strdup w value in
  match nv with
  | None => Some (-1, lock_event unlock w)
  | Some nv =>
      w ← store w cur (λ x, set_value x (Some nv));
      w ← dll_remove w cur;
      w ← dll_push_head w cur;
      Some (0, lock_event unlock w)
  end.

Definition cache_put (cache : option world) (key value : option string)
    : option (Z * option world) :=
  match cache, key, value with
  | Some w, Some key, Some value =>
      let w := lock_event wrlock w in
      cur ← lookup_key w key;
      '(r, w) ← match cur with
                | Some cur => put_update w cur value
                | None => put_insert w key value
                end;
      Some (r, Some w)
  | _, _, _ => Some (-1, cache)
  end.

(** The first critical section of [cache_get]: a lookup under the shared
    lock, which is released before anything else happens. *)
Definition get_shared (w : world) (key : string) : option (bool * world) :=
  let w := lock_event rdlock w in
  cur ← lookup_key w key;
  Some (bool_decide (is_Some cur), lock_event unlock w).

(** The second critical section of [cache_get]: the lookup again, and the
    promotion, under the exclusive lock. *)
Definition get_exclusive (w : world) (key : string) : option (option string * world) :=
  let w := lock_event wrlock w in
  cur ← lookup_key w key;
  match cur with
  | Some cur =>
      w ← dll_remove w cur;
      w ← dll_push_head w cur;
      cn ← nodes w !! cur;
      v ← N.value cn;
      let (ret, w) := strdup w v in
      Some (ret, lock_event unlock w)
  | None => Some (None, lock_event unlock w)
  end.

Definition cache_get (cache : option world) (key : option string)
    : option (option string * option world) :=
  match cache, key with
  | Some w, Some key =>
      '(found, w) ← get_shared w key;
      if found : bool then
        '(ret, w) ← get_exclusive w key;
        Some (ret, Some w)
      else Some (None, Some w)
  | _, _ => Some (None, cache)
  end.

Definition cache_delete (cache : option world) (key : option string)
    : option (Z * option world) :=
  match cache, key with
  | Some w, Some key =>
      let w := lock_event wrlock w in
      hv ← bucket_index w key;
      start ← load_bucket w hv;
      '(cur, prev) ← find_key_prev (fuel_of w) (nodes w) start None key;
      match cur with
      | None => Some (1, Some (lock_event unlock w))
      | Some cur =>
          cn ← nodes w !! cur;
          w ← match prev with
              | Some q => store w q (λ x, set_hnext x (N.hnext cn))
              | None => store_bucket w hv (N.hnext cn)
              end;
          w ← dll_remove w cur;
          w ← node_free w (Some cur);
          let w := set_size w (wrap (C.size (self w) - 1)) in
          Some (0, Some (lock_event unlock w))
      end
  | _, _ => Some (-1, cache)
  end.

(** [cache_destroy]: the inner loop, which frees the nodes of one chain. *)
Fixpoint destroy_chain (fuel : nat) (w : world) (cur : option ptr) : option world :=
  match fuel with
  | O => None
  | S fuel =>
      match cur with
      | None => Some w
      | Some c =>
          cn ← nodes w !! c;
          let nx := N.hnext cn in
          w ← node_free w (Some c);
          destroy_chain fuel w nx
      end
  end.

(** The outer loop, [for (i = 0; i < cache->hsize; ++i)]. *)
Fixpoint destroy_buckets (fuel : nat) (w : world) (i : Z) : option world :=
  if i <? C.hsize (self w) then
    match fuel with
    | O => None
    | S fuel =>
        cur ← load_bucket w i;
        w ← destroy_chain (fuel_of w) w cur;
        destroy_buckets fuel w (wrap (i + 1))
    end
  else Some w.

(** What a destroyed cache leaves behind: the nodes that were not freed
    and the history of its lock.  The bucket array, the lock and the cache
    structure are gone. *)
Record remains := Remains {
  leaked : gmap positive node;
  history : list lock_op
}.

Definition cache_destroy (cache : option world) : option (option remains) :=
  match cache with
  | None => Some None
  | Some w =>
      let w := lock_event wrlock w in
      w ← destroy_buckets (Z.to_nat (C.hsize (self w))) w 0;
      let w := set_htable w [] in
      let w := lock_event unlock w in
      Some (Some (Remains (nodes w) (events w)))
  end.

(** ** Sequences of calls on one handle *)

Inductive call :=
| Put (key value : option string)
| Get (key : option string)
| Delete (key : option string).

Definition step (w : world) (c : call) : option world :=
  match c with
  | Put k v => '(_, h) ← cache_put (Some w) k v; h
  | Get k => '(_, h) ← cache_get (Some w) k; h
  | Delete k => '(_, h) ← cache_delete (Some w) k; h
  end.

Fixpoint run (cs : list call) (w : world) : option world :=
  match cs with
  | [] => Some w
  | c :: cs => w ← step w c; run cs w
  end.

(** The state a sequence of calls leaves a freshly created cache in; the
    capacity is a [size_t]. *)
Definition reach (capacity : Z) (av : list bool) (cs : list call) : option world :=
  if decide (0 ≤ capacity < word_max)
  then w ← cache_create capacity av; run cs w
  else None.

(** Puts that all return success. *)
Fixpoint insert_all (kvs : list (string * string)) (w : world) : option world :=
  match kvs with
  | [] => Some w
  | (k, v) :: kvs =>
      '(rc, h) ← cache_put (Some w) (Some k) (Some v);
      if rc =? 0 then w ← h; insert_all kvs w else None
  end.

(** ** Observations *)

(** The recency list read from the head along [next]. *)
Fixpoint walk_next (fuel : nat) (h : gmap positive node) (cur : option ptr)
    : option (list ptr) :=
  match fuel with
  | O => None
  | S fuel =>
      match cur with
      | None => Some []
      | Some c => cn ← h !! c; l ← walk_next fuel h (N.next cn); Some (c :: l)
      end
  end.

(** A bucket chain read along [hnext]. *)
Fixpoint walk_hnext (fuel : nat) (h : gmap positive node) (cur : option ptr)
    : option (list ptr) :=
  match fuel with
  | O => None
  | S fuel =>
      match cur with
      | None => Some []
      | Some c => cn ← h !! c; l ← walk_hnext fuel h (N.hnext cn); Some (c :: l)
      end
  end.

Definition recency (w : world) : option (list ptr) :=
  walk_next (fuel_of w) (nodes w) (C.head (self w)).

Definition index_chains (w : world) : option (list (list ptr)) :=
  mapM (walk_hnext (fuel_of w) (nodes w)) (C.htable (self w)).

Definition entry_of (h : gmap positive node) (p : ptr) : option (string * string) :=
  n ← h !! p; k ← N.key n; v ← N.value n; Some (k, v).

(** The key/value pairs of the cache, most recently used first. *)
Definition entries (w : world) : option (list (string * string)) :=
  l ← recency w; mapM (entry_of (nodes w)) l.

(** The key a call is about, as the C string it is read as. *)
Definition call_key (c : call) : option string :=
  match c with
  | Put k _ | Get k | Delete k => cstr <$> k
  end.

Definition is_put (c : call) : bool :=
  match c with
  | Put _ _ => true
  | _ => false
  end.

(** The world an expression that returns one stands for, in examples. *)
Definition world_of (o : option world) : world :=
  default (World ∅ (C.mk 0 0 0 [] None None) [] []) o.

(** A get that is one exclusive critical section from its lookup to its
    promotion: what it adds to the history of the lock. *)
Definition get_is_one_exclusive_section (w : world) (key : string) : Prop :=
  ∃ ret w', cache_get (Some w) (Some key) = Some (ret, Some w') ∧
            events w' = events w ++ [wrlock; unlock].

(** The scenarios of the specification, on a cache of capacity 2. *)
Definition key_a : string := String "a" EmptyString.
Definition key_b : string := String "b" EmptyString.
Definition key_c : string := String "c" EmptyString.
Definition val_1 : string := String "1" EmptyString.
Definition val_2 : string := String "2" EmptyString.
Definition val_3 : string := String "3" EmptyString.

Definition put_a_b : list call :=
  [Put (Some key_a) (Some val_1); Put (Some key_b) (Some val_2)].

(** [a] and [b] inserted, memory available. *)
Definition world_a_b : world := world_of (reach 2 [] put_a_b).

(** A fresh cache; [a], [b] and [c] inserted into it; and a get of [b]
    after that. *)
Definition world_empty : world := world_of (reach 2 [] []).
Definition world_a_b_c : world :=
  world_of (insert_all [(key_a, val_1); (key_b, val_2); (key_c, val_3)] world_empty).
Definition world_a_b_c_got_b : world :=
  world_of (run [Get (Some key_b)] world_a_b_c).

(** [a] inserted; then the first critical section of a get of [a] has run;
    then another caller has deleted [a]. *)
Definition world_a : world := world_of (reach 2 [] [Put (Some key_a) (Some val_1)]).
Definition world_a_found : world := world_of (snd <$> get_shared world_a key_a).
Definition world_a_deleted : world :=
  world_of (cache_delete (Some world_a_found) (Some key_a) ≫= snd).

(** [a] inserted; the allocator refuses the next request. *)
Definition world_a_oom : world :=
  world_of (reach 2 [true; true; true; true; true; false] [Put (Some key_a) (Some val_1)]).

(** The next allocation request fails. *)
Definition out_of_memory (w : world) : bool := negb (next_outcome (avail w)).1.

(** The allocation requests of [cache_put(cache, key, value)] fail: the
    copy of the value when the key is present, the node or one of its two
    strings when it is not. *)
Definition put_out_of_memory (w : world) (key value : string) : bool :=
  match lookup_key w key with
  | Some (Some _) => bool_decide ((strdup w value).1 = None)
  | Some None => bool_decide (fst <$> node_create w key value = Some None)
  | None => false
  end.

(** ** The lists the pointers of the store represent *)

(** The element after [p] in [l], and the one before it. *)
Fixpoint nxt (l : list ptr) (p : ptr) : option ptr :=
  match l with
  | [] => None
  | q :: l' => if decide (q = p) then head l' else nxt l' p
  end.

Definition prv (l : list ptr) (p : ptr) : option ptr := nxt (reverse l) p.

Definition del (p : ptr) (l : list ptr) : list ptr := filter (λ q, q ≠ p) l.

(** An update of the node a possibly null pointer designates. *)
Definition alter_at (f : node → node) (o : option ptr) (h : gmap positive node)
    : gmap positive node :=
  match o with
  | Some q => alter f q h
  | None => h
  end.

(** What the recency list leaves alone in a node, and what the bucket
    chains leave alone. *)
Definition chain_part (n : node) : option string * option string * option ptr :=
  (N.key n, N.value n, N.hnext n).
Definition list_part (n : node) : option string * option string * option ptr * option ptr :=
  (N.key n, N.value n, N.prev n, N.next n).

(** What the representation of the recency list reads in a node, what that
    of the hash index reads, and what no relinking touches. *)
Definition link_part (n : node) : option ptr * option ptr := (N.prev n, N.next n).
Definition index_part (n : node) : option string * option ptr := (N.key n, N.hnext n).
Definition kv_part (n : node) : option string * option string := (N.key n, N.value n).

Definition same_kv (h h' : gmap positive node) : Prop :=
  ∀ q, kv_part <$> h' !! q = kv_part <$> h !! q.

(** The entry a live node holds. *)
Definition ent (h : gmap positive node) (p : ptr) : string * string :=
  default (EmptyString, EmptyString) (entry_of h p).

(** ** The cache as the list of its entries

    What the operations do to the list of key/value pairs in recency order,
    in the words of the specification: a put on a present key replaces the
    value and moves the entry to the front, a put on an absent key adds the
    entry at the front and drops the last one when the capacity is
    exceeded, a get on a present key moves the entry to the front, and a
    delete removes the entry. *)

Fixpoint assoc (k : string) (es : list (string * string)) : option string :=
  match es with
  | [] => None
  | e :: es => if decide (e.1 = k) then Some e.2 else assoc k es
  end.

Definition without (k : string) (es : list (string * string)) : list (string * string) :=
  filter (λ e, e.1 ≠ k) es.

Definition model_put (capacity : Z) (k v : string) (es : list (string * string))
    : list (string * string) :=
  match assoc k es with
  | Some _ => (k, v) :: without k es
  | None => take (Z.to_nat capacity) ((k, v) :: es)
  end.

Definition model_get (k : string) (es : list (string * string)) : list (string * string) :=
  match assoc k es with
  | Some v => (k, v) :: without k es
  | None => es
  end.

Definition model_delete (k : string) (es : list (string * string))
    : list (string * string) :=
  without k es.

(** What a call does to the entries when it goes through. *)
Definition model_call (cap : Z) (c : call) (es : list (string * string))
    : list (string * string) :=
  match c with
  | Put (Some k) (Some v) => model_put cap (cstr k) (cstr v) es
  | Get (Some k) => model_get (cstr k) es
  | Delete (Some k) => model_delete (cstr k) es
  | _ => es
  end.


(** [w'] differs from [w] in [prev]/[next] links and in [head]/[tail] only. *)
Definition links_only (w w' : world) : Prop :=
  (∀ p, chain_part <$> nodes w' !! p = chain_part <$> nodes w !! p) ∧
  C.capacity (self w') = C.capacity (self w) ∧
  C.size (self w') = C.size (self w) ∧
  C.hsize (self w') = C.hsize (self w) ∧
  C.htable (self w') = C.htable (self w) ∧
  avail w' = avail w ∧ events w' = events w.

(** [w'] differs from [w] in [hnext] links and in the bucket array only. *)
Definition chains_only (w w' : world) : Prop :=
  (∀ p, list_part <$> nodes w' !! p = list_part <$> nodes w !! p) ∧
  C.capacity (self w') = C.capacity (self w) ∧
  C.size (self w') = C.size (self w) ∧
  C.hsize (self w') = C.hsize (self w) ∧
  C.head (self w') = C.head (self w) ∧
  C.tail (self w') = C.tail (self w) ∧
  avail w' = avail w ∧ events w' = events w.

(** The recency list of [w] is [l], most recently used first. *)
Definition dll_ok (w : world) (l : list ptr) : Prop :=
  NoDup l ∧
  C.head (self w) = head l ∧
  C.tail (self w) = last l ∧
  ∀ p, p ∈ l →
    ∃ n, nodes w !! p = Some n ∧ N.next n = nxt l p ∧ N.prev n = prv l p.

Definition bucket_of (hs : Z) (k : string) : nat := Z.to_nat (hash_str k mod hs).

(** Bucket [i] of [w] chains the nodes [b], whose keys hash to [i]. *)
Definition chain_ok (w : world) (i : nat) (b : list ptr) : Prop :=
  NoDup b ∧
  ∀ p, p ∈ b →
    ∃ n k, nodes w !! p = Some n ∧ N.hnext n = nxt b p ∧
           N.key n = Some k ∧ bucket_of (C.hsize (self w)) k = i.

(** The bucket array of [w] holds the chains [bs]. *)
Definition table_ok (w : world) (bs : list (list ptr)) : Prop :=
  C.htable (self w) = head <$> bs ∧
  length bs = Z.to_nat (C.hsize (self w)) ∧
  ∀ i b, bs !! i = Some b → chain_ok w i b.

(** Every live node owns a key and a value, both proper C strings, and no
    two live nodes own the same key. *)
Definition keys_ok (h : gmap positive node) : Prop :=
  (∀ p n, h !! p = Some n →
     ∃ k v, N.key n = Some k ∧ N.value n = Some v ∧ cstr k = k ∧ cstr v = v) ∧
  (∀ p q n m, h !! p = Some n → h !! q = Some m → N.key n = N.key m → p = q).

(** The representation invariant: [l] is the recency list and [bs] the
    bucket chains of [w]. *)
Definition cache_rep (w : world) (l : list ptr) (bs : list (list ptr)) : Prop :=
  dll_ok w l ∧
  table_ok w bs ∧
  mjoin bs ≡ₚ l ∧
  (∀ p, is_Some (nodes w !! p) ↔ p ∈ l) ∧
  keys_ok (nodes w) ∧
  C.size (self w) = Z.of_nat (length l) ∧
  C.size (self w) ≤ C.capacity (self w) ∧
  0 < C.capacity (self w) < word_max ∧
  C.hsize (self w) = wrap (C.capacity (self w) * 2 + 1).

Definition cache_inv (w : world) : Prop := ∃ l bs, cache_rep w l bs.

(** ** Further observations and scenarios *)

(** A get of a key that is present returns the value stored under it. *)
Definition get_returns_the_stored_value (w : world) (key : string) : Prop :=
  ∀ es v, entries w = Some es → assoc (cstr key) es = Some v →
    ∃ w', cache_get (Some w) (Some key) = Some (Some v, Some w').

(** [a] and [b] inserted; the allocator refuses the next request. *)
Definition world_a_b_oom : world :=
  world_of (reach 2 [true; true; true; true; true; true; true; true; false] put_a_b).

(** The recency list read from the tail along [prev]. *)
Fixpoint walk_prev (fuel : nat) (h : gmap positive node) (cur : option ptr)
    : option (list ptr) :=
  match fuel with
  | O => None
  | S fuel =>
      match cur with
      | None => Some []
      | Some c => cn ← h !! c; l ← walk_prev fuel h (N.prev cn); Some (c :: l)
      end
  end.

Definition recency_backwards (w : world) : option (list ptr) :=
  walk_prev (fuel_of w) (nodes w) (C.tail (self w)).

(** A history of the lock in which every acquisition is followed by its
    release before anything else happens to the lock, and which ends with
    the lock released when [held] is false at its start. *)
Fixpoint released (held : bool) (evs : list lock_op) : bool :=
  match evs with
  | [] => negb held
  | unlock :: evs => held && released false evs
  | _ :: evs => negb held && released true evs
  end.

(** Two more scenarios on a cache of capacity 2, which has 5 buckets: [a]
    inserted and a node for [b] created but linked nowhere; and [a] and
    [f], whose hashes meet in bucket 0, inserted. *)
Definition key_f : string := String "f" EmptyString.
Definition world_detached : world :=
  world_of (snd <$> node_create world_a key_b val_2).
Definition world_a_f : world :=
  world_of (reach 2 [] [Put (Some key_a) (Some val_1); Put (Some key_f) (Some val_2)]).

(** ** C strings *)

Lemma uchar_range c : 0 ≤ uchar c < 256.
Proof.
  unfold uchar. pose proof (N_ascii_bounded c). lia.
Qed.

Lemma uchar_inj c d : uchar c = uchar d → c = d.
Proof.
  unfold uchar. intros H. apply N2Z.inj in H.
  rewrite <- (ascii_N_embedding c), <- (ascii_N_embedding d). by rewrite H.
Qed.

Lemma strcmp_eq a b : strcmp a b = 0 ↔ cstr a = cstr b.
Proof.
  revert b. induction a as [|c a IH]; intros [|d b]; simpl.
  - done.
  - pose proof (uchar_range d). destruct (Z.eqb_spec (uchar d) 0); split; (done || lia).
  - pose proof (uchar_range c). destruct (Z.eqb_spec (uchar c) 0); split; (done || lia).
  - destruct (Z.eqb_spec (uchar c) (uchar d)) as [Hcd|Hcd].
    + apply uchar_inj in Hcd as <-.
      destruct (Z.eqb_spec (uchar c) 0); [done|].
      rewrite IH. split; [by intros -> | by intros [= ->]].
    + split; [lia|].
      destruct (Z.eqb_spec (uchar c) 0), (Z.eqb_spec (uchar d) 0); try done; try lia.
      intros [= -> _]. done.
Qed.

Lemma cstr_idem s : cstr (cstr s) = cstr s.
Proof.
  induction s as [|c s IH]; simpl; [done|].
  destruct (Z.eqb_spec (uchar c) 0) as [|Hc]; simpl; [done|].
  apply Z.eqb_neq in Hc. by rewrite Hc, IH.
Qed.

Lemma hash_loop_cstr s h : hash_loop (cstr s) h = hash_loop s h.
Proof.
  revert h. induction s as [|c s IH]; intros h; simpl; [done|].
  destruct (Z.eqb_spec (uchar c) 0) as [|Hc]; simpl; [done|].
  apply Z.eqb_neq in Hc. by rewrite Hc, IH.
Qed.

Lemma hash_str_cstr s : hash_str (cstr s) = hash_str s.
Proof. apply hash_loop_cstr. Qed.

Lemma strcmp_hash a b : strcmp a b = 0 → hash_str a = hash_str b.
Proof.
  intros H%strcmp_eq. by rewrite <- (hash_str_cstr a), <- (hash_str_cstr b), H.
Qed.

(** One step of the hash is [hash * 33 + c] in 64-bit arithmetic. *)
Lemma hash_step h c :
  0 ≤ h → wrap (wrap (wrap (Z.shiftl h 5) + h) + c) = (h * 33 + c) mod 2 ^ 64.
Proof.
  intros Hh. unfold wrap, word_max, word_bits.
  rewrite Z.shiftl_mul_pow2 by lia.
  rewrite (Z.add_mod_idemp_l (h * 2 ^ 5) h) by lia.
  rewrite (Z.add_mod_idemp_l (h * 2 ^ 5 + h) c) by lia.
  f_equal. lia.
Qed.

(** ** Successors and predecessors in a list without duplicates *)

Implicit Types (l b : list ptr) (p q : ptr) (w : world).
Implicit Types (es : list (string * string)) (k v : string).

Lemma NoDup_reverse (l : list ptr) : NoDup l → NoDup (reverse l).
Proof. intros. by rewrite reverse_Permutation. Qed.

Lemma nxt_not_elem l p : p ∉ l → nxt l p = None.
Proof.
  induction l as [|x l IH]; simpl; [done|].
  intros Hp. apply not_elem_of_cons in Hp as [? ?].
  case_decide; [congruence | auto].
Qed.

Lemma nxt_elem_of l p q : nxt l p = Some q → p ∈ l ∧ q ∈ l.
Proof.
  induction l as [|x l IH]; simpl; [done|].
  case_decide as Hx.
  - subst x. destruct l as [|y l]; simpl; [done|].
    intros [= ->]. split; [left | right; left].
  - intros [? ?]%IH. split; by right.
Qed.

Lemma nxt_middle l1 p l2 : p ∉ l1 → nxt (l1 ++ p :: l2) p = head l2.
Proof.
  induction l1 as [|x l1 IH]; simpl; intros Hp.
  - by rewrite decide_True.
  - apply not_elem_of_cons in Hp as [? ?]. rewrite decide_False by congruence. auto.
Qed.

Lemma prv_middle l1 p l2 : p ∉ l2 → prv (l1 ++ p :: l2) p = last l1.
Proof.
  intros Hp. unfold prv. rewrite reverse_app, reverse_cons, <- (assoc_L (++)).
  simpl. rewrite nxt_middle, head_reverse; [done|].
  by rewrite elem_of_reverse.
Qed.

Lemma del_not_elem p l : p ∉ l → del p l = l.
Proof.
  intros Hp. unfold del. induction l as [|x l IH]; [done|].
  apply not_elem_of_cons in Hp as [? ?].
  rewrite filter_cons_True by congruence. f_equal; auto.
Qed.

Lemma del_middle l1 p l2 : NoDup (l1 ++ p :: l2) → del p (l1 ++ p :: l2) = l1 ++ l2.
Proof.
  intros Hnd. apply NoDup_app in Hnd as (_ & H1 & Hnd).
  apply NoDup_cons in Hnd as [H2 _].
  unfold del. rewrite filter_app, filter_cons_False by (intros ?; congruence).
  fold (del p l1) (del p l2). rewrite !del_not_elem; [done | done |].
  intros ?. eapply H1; [done | left].
Qed.

Lemma elem_of_del p q l : q ∈ del p l ↔ q ∈ l ∧ q ≠ p.
Proof. unfold del. rewrite list_elem_of_filter. tauto. Qed.

Lemma NoDup_del p l : NoDup l → NoDup (del p l).
Proof. apply NoDup_filter. Qed.

Lemma del_reverse p l : del p (reverse l) = reverse (del p l).
Proof. apply filter_reverse. Qed.

Lemma length_del p l : NoDup l → p ∈ l → S (length (del p l)) = length l.
Proof.
  intros Hnd (l1 & l2 & ->)%list_elem_of_split.
  rewrite del_middle by done. rewrite !length_app. simpl. lia.
Qed.

Lemma head_del p l :
  NoDup l → head (del p l) = if decide (head l = Some p) then nxt l p else head l.
Proof.
  destruct l as [|x l]; [by intros; case_decide|].
  intros [Hx Hnd]%NoDup_cons. unfold del.
  destruct (decide (x = p)) as [->|Hne].
  - rewrite filter_cons_False by (intros ?; congruence).
    fold (del p l). rewrite del_not_elem by done. simpl.
    by rewrite !decide_True.
  - rewrite filter_cons_True by done. simpl.
    rewrite decide_False; [done | congruence].
Qed.

Lemma nxt_del p q l :
  NoDup l → q ≠ p →
  nxt (del p l) q = if decide (nxt l q = Some p) then nxt l p else nxt l q.
Proof.
  intros Hnd Hqp. induction l as [|x l IH].
  { simpl. by repeat case_decide. }
  apply NoDup_cons in Hnd as [Hx Hnd]. specialize (IH Hnd).
  unfold del. destruct (decide (x = p)) as [->|Hxp].
  - rewrite filter_cons_False by (intros ?; congruence).
    fold (del p l). rewrite del_not_elem by done. simpl.
    rewrite (decide_False (P := p = q)) by congruence.
    rewrite (decide_True (P := p = p)) by done.
    rewrite decide_False; [done|].
    intros [_ ?]%nxt_elem_of. done.
  - rewrite filter_cons_True by done. fold (del p l). simpl.
    rewrite (decide_False (P := x = p)) by done.
    destruct (decide (x = q)) as [->|Hxq]; [|done].
    rewrite head_del by done. done.
Qed.

Lemma last_del p l :
  NoDup l → last (del p l) = if decide (last l = Some p) then prv l p else last l.
Proof.
  intros Hnd. rewrite <- !head_reverse, <- del_reverse.
  rewrite head_del by (by apply NoDup_reverse). done.
Qed.

Lemma prv_del p q l :
  NoDup l → q ≠ p →
  prv (del p l) q = if decide (prv l q = Some p) then prv l p else prv l q.
Proof.
  intros Hnd Hqp. unfold prv. rewrite <- del_reverse.
  apply nxt_del; [by apply NoDup_reverse | done].
Qed.

Lemma nxt_prv p q l : NoDup l → nxt l q = Some p ↔ prv l p = Some q.
Proof.
  intros Hnd. split.
  - intros H. destruct (nxt_elem_of _ _ _ H) as [(l1 & l2 & ->)%list_elem_of_split _].
    apply NoDup_app in Hnd as (Hd & Hdis & Hnd2).
    apply NoDup_cons in Hnd2 as [Hq Hnd2].
    rewrite nxt_middle in H by (intros ?; eapply Hdis; [done | left]).
    destruct l2 as [|y l2]; simplify_eq/=.
    replace (l1 ++ q :: p :: l2) with ((l1 ++ [q]) ++ p :: l2) by (by rewrite <- (assoc_L (++))).
    rewrite prv_middle; [by rewrite last_snoc|].
    by apply NoDup_cons in Hnd2 as [? _].
  - intros H. destruct (nxt_elem_of _ _ _ H) as [(l1 & l2 & Hl)%list_elem_of_split _].
    apply (f_equal reverse) in Hl. rewrite reverse_involutive in Hl. subst l.
    unfold prv in H. rewrite reverse_involutive in H.
    apply NoDup_reverse in Hnd. rewrite reverse_involutive in Hnd.
    pose proof Hnd as Hnd'.
    apply NoDup_app in Hnd as (Hd & Hdis & Hnd2).
    apply NoDup_cons in Hnd2 as [Hq Hnd2].
    rewrite nxt_middle in H by (intros ?; eapply Hdis; [done | left]).
    destruct l2 as [|y l2]; simplify_eq/=.
    rewrite reverse_app, !reverse_cons, <- !(assoc_L (++)). simpl.
    rewrite nxt_middle; [done|].
    rewrite elem_of_reverse. by apply NoDup_cons in Hnd2 as [? _].
Qed.

Lemma nxt_None_last p l : NoDup l → p ∈ l → nxt l p = None ↔ last l = Some p.
Proof.
  intros Hnd (l1 & l2 & ->)%list_elem_of_split.
  apply NoDup_app in Hnd as (Hd & Hdis & Hnd2).
  apply NoDup_cons in Hnd2 as [Hq Hnd2].
  rewrite nxt_middle by (intros ?; by eapply Hdis; [|left]).
  rewrite last_app_cons. destruct l2 as [|y l2]; simpl; [done|].
  split; [done|]. intros Hl. exfalso. apply Hq.
  change (last (p :: y :: l2)) with (last (y :: l2)) in Hl.
  apply last_Some in Hl as [l' Hl]. rewrite Hl. apply elem_of_app. right. left.
Qed.

Lemma prv_None_head p l : NoDup l → p ∈ l → prv l p = None ↔ head l = Some p.
Proof.
  intros Hnd Hp. unfold prv. rewrite nxt_None_last.
  - by rewrite last_reverse.
  - by apply NoDup_reverse.
  - by rewrite elem_of_reverse.
Qed.

Lemma nxt_cons_eq p l : nxt (p :: l) p = head l.
Proof. simpl. by rewrite decide_True. Qed.

Lemma nxt_cons_ne p q l : q ≠ p → nxt (p :: l) q = nxt l q.
Proof. intros. simpl. by rewrite decide_False. Qed.

Lemma nxt_snoc_ne p q l :
  NoDup l → q ≠ p →
  nxt (l ++ [p]) q = if decide (last l = Some q) then Some p else nxt l q.
Proof.
  intros Hnd Hqp. induction l as [|x l IH].
  - simpl. repeat case_decide; congruence.
  - apply NoDup_cons in Hnd as [Hx Hnd]. specialize (IH Hnd).
    change ((x :: l) ++ [p]) with (x :: (l ++ [p])).
    destruct (decide (x = q)) as [->|Hxq].
    + rewrite nxt_cons_eq. destruct l as [|y l].
      * simpl. by rewrite decide_True.
      * rewrite nxt_cons_eq. simpl head.
        rewrite decide_False; [done|].
        change (last (q :: y :: l)) with (last (y :: l)).
        intros [l' Hl]%last_Some. apply Hx. rewrite Hl. apply elem_of_app. right. left.
    + rewrite !nxt_cons_ne by done. rewrite IH. destruct l as [|y l]; [|done].
      simpl. repeat case_decide; congruence.
Qed.

Lemma prv_cons_eq p l : p ∉ l → prv (p :: l) p = None.
Proof.
  intros Hp. apply (prv_middle [] p l Hp).
Qed.

Lemma prv_cons_ne p q l :
  NoDup l → q ≠ p →
  prv (p :: l) q = if decide (head l = Some q) then Some p else prv l q.
Proof.
  intros Hnd Hqp. unfold prv. rewrite reverse_cons.
  rewrite nxt_snoc_ne by (done || by apply NoDup_reverse).
  by rewrite last_reverse.
Qed.



(** ** Stores *)

Lemma store_alter w p f :
  is_Some (nodes w !! p) →
  store w p f = Some (set_nodes w (alter f p (nodes w))).
Proof.
  intros [n Hn]. unfold store. rewrite Hn. simpl. do 2 f_equal.
  apply map_eq. intros i. rewrite lookup_insert, lookup_alter.
  case_decide; [by rewrite Hn | done].
Qed.

Lemma lookup_alter_at f o (h : gmap positive node) q :
  alter_at f o h !! q = if decide (o = Some q) then f <$> h !! q else h !! q.
Proof.
  destruct o as [a|]; simpl; [|done].
  rewrite lookup_alter. repeat case_decide; congruence.
Qed.

Lemma nxt_ne l p q : NoDup l → nxt l p = Some q → p ≠ q.
Proof.
  intros Hnd H. destruct (nxt_elem_of _ _ _ H) as [(l1 & l2 & ->)%list_elem_of_split _].
  apply NoDup_app in Hnd as (_ & Hdis & [Hp _]%NoDup_cons).
  rewrite nxt_middle in H by (intros ?; eapply Hdis; [done | left]).
  intros ->. apply Hp. destruct l2; simplify_eq/=. left.
Qed.

Lemma prv_elem_of l p q : prv l p = Some q → p ∈ l ∧ q ∈ l.
Proof.
  unfold prv. intros [? ?]%nxt_elem_of. by rewrite <- !(elem_of_reverse _ l).
Qed.

Lemma prv_ne l p q : NoDup l → prv l p = Some q → p ≠ q.
Proof. intros Hnd. apply nxt_ne. by apply NoDup_reverse. Qed.

(** ** The recency list *)

Lemma dll_remove_ok w l p :
  dll_ok w l → p ∈ l →
  ∃ w', dll_remove w p = Some w' ∧ dll_ok w' (del p l) ∧ links_only w w'.
Proof.
  destruct w as [h [cap sz hs tbl hd tl] av ev].
  intros (Hnd & Hhd & Htl & Hn) Hp. simpl in *.
  destruct (Hn p Hp) as (n & Hpn & Hnx & Hpv).
  set (h1 := alter_at (λ x, set_next x (nxt l p)) (prv l p) h).
  set (h2 := alter_at (λ x, set_prev x (prv l p)) (nxt l p) h1).
  set (h3 := alter (λ x, set_prev (set_next x None) None) p h2).
  set (c' := C.mk cap sz hs tbl
               (if prv l p is None then nxt l p else hd)
               (if nxt l p is None then prv l p else tl)).
  assert (Hlive : ∀ q, q ∈ l → is_Some (h !! q)).
  { intros q Hq. destruct (Hn q Hq) as (? & -> & _). eauto. }
  assert (H1 : h1 !! p = Some n).
  { unfold h1. rewrite lookup_alter_at, decide_False; [done|].
    intros H. by apply prv_ne in H. }
  assert (H2 : h2 !! p = Some (N.mk (N.key n) (N.value n) (N.prev n) (N.next n) (N.hnext n))).
  { unfold h2. rewrite lookup_alter_at, decide_False; [by destruct n|].
    intros H. by apply nxt_ne in H. }
  exists (World h3 c' av ev). split; [|split].
  - unfold dll_remove. simpl. rewrite Hpn. simpl. rewrite Hpv, Hnx.
    subst h3 c'. revert H1 H2. subst h2 h1.
    destruct (prv l p) as [a|] eqn:Ha; destruct (nxt l p) as [b|] eqn:Hb;
      simpl; intros H1 H2.
    + rewrite store_alter by (apply Hlive; by apply prv_elem_of in Ha as [_ ?]).
      simpl. rewrite H1. simpl. rewrite Hpv, Hnx.
      rewrite store_alter; simpl.
      2:{ rewrite lookup_alter.
          destruct (Hlive b) as [nb Hnb]; [by apply nxt_elem_of in Hb as [_ ?]|].
          destruct (Hlive a) as [na Hna]; [by apply prv_elem_of in Ha as [_ ?]|].
          case_decide; subst; rewrite ?Hna, ?Hnb; eauto. }
      rewrite store_alter by (simpl; rewrite H2; eauto). done.
    + rewrite store_alter by (apply Hlive; by apply prv_elem_of in Ha as [_ ?]).
      simpl. rewrite H1. simpl. rewrite Hpv, Hnx. simpl.
      rewrite store_alter by (simpl; rewrite H1; eauto). done.
    + rewrite Hpn. simpl. rewrite Hnx, Hpv. simpl.
      rewrite store_alter by (simpl; apply Hlive; by apply nxt_elem_of in Hb as [_ ?]).
      simpl. rewrite store_alter by (simpl; rewrite H2; eauto). done.
    + rewrite Hpn. simpl. rewrite Hnx, Hpv. simpl.
      rewrite store_alter by (simpl; eauto). done.
  - split; [by apply NoDup_del|]. simpl. split; [|split].
    + rewrite head_del by done. destruct (prv l p) as [a|] eqn:Ha.
      * rewrite decide_False; [done|]. intros H.
        apply prv_None_head in H; [congruence | done | done].
      * rewrite decide_True; [done|]. by apply prv_None_head.
    + rewrite last_del by done. destruct (nxt l p) as [a|] eqn:Ha.
      * rewrite decide_False; [done|]. intros H.
        apply nxt_None_last in H; [congruence | done | done].
      * rewrite decide_True; [done|]. by apply nxt_None_last.
    + intros q [Hq Hqp]%elem_of_del.
      destruct (Hn q Hq) as (nq & Hnq & Hqn & Hqv).
      unfold h3. rewrite lookup_alter, decide_False by congruence.
      unfold h2. rewrite lookup_alter_at. unfold h1. rewrite lookup_alter_at, Hnq.
      rewrite nxt_del, prv_del by done.
      pose proof (nxt_prv p q l Hnd) as E1. pose proof (nxt_prv q p l Hnd) as E2.
      repeat case_decide; simpl; try tauto; eauto.
  - split; [|done]. intros q. simpl.
    unfold h3. rewrite lookup_alter. unfold h2. rewrite lookup_alter_at.
    unfold h1. rewrite !lookup_alter_at.
    repeat case_decide; subst; try rewrite Hpn; try (destruct (h !! q) as [[]|]); done.
Qed.

Lemma dll_push_head_ok w l p :
  dll_ok w l → p ∉ l → is_Some (nodes w !! p) →
  ∃ w', dll_push_head w p = Some w' ∧ dll_ok w' (p :: l) ∧ links_only w w'.
Proof.
  destruct w as [h [cap sz hs tbl hd tl] av ev].
  intros (Hnd & Hhd & Htl & Hn) Hp [n Hpn]. simpl in *.
  set (h1 := alter (λ x, set_prev x None) p h).
  set (h2 := alter (λ x, set_next x hd) p h1).
  set (h3 := alter_at (λ x, set_prev x (Some p)) hd h2).
  set (c' := C.mk cap sz hs tbl (Some p) (if tl is None then Some p else tl)).
  assert (Hlive : ∀ q, q ∈ l → is_Some (h !! q)).
  { intros q Hq. destruct (Hn q Hq) as (? & -> & _). eauto. }
  assert (Hhp : hd ≠ Some p).
  { rewrite Hhd. intros H. apply Hp. destruct l; simplify_eq/=. left. }
  exists (World h3 c' av ev). split; [|split].
  - unfold dll_push_head. simpl.
    rewrite store_alter by (simpl; eauto). simpl.
    rewrite store_alter by (simpl; rewrite lookup_alter, decide_True, Hpn; eauto).
    simpl. fold h1 h2. subst h3 c'. destruct hd as [a|]; simpl.
    + rewrite store_alter; [by destruct tl|]. simpl.
      unfold h2, h1. rewrite !lookup_alter, !decide_False by congruence.
      apply Hlive. rewrite Hhd in *. destruct l; simplify_eq/=. left.
    + by destruct tl.
  - split; [by apply NoDup_cons|]. simpl. split; [done|]. split.
    + rewrite Htl. destruct l as [|x l']; [done|].
      change (last (p :: x :: l')) with (last (x :: l')).
      by destruct (last (x :: l')) eqn:E; [|apply last_None in E].
    + intros q Hq. unfold h3. rewrite lookup_alter_at.
      unfold h2, h1. rewrite !lookup_alter.
      apply elem_of_cons in Hq as [->|Hq].
      * rewrite decide_False by done. rewrite !decide_True by done.
        rewrite Hpn. simpl. eexists. split; [done|]. simpl.
        rewrite prv_cons_eq by done. rewrite ?decide_True by done. by rewrite Hhd.
      * assert (q ≠ p) by (by intros ->).
        rewrite !(decide_False (P := p = q)) by done.
        destruct (Hn q Hq) as (nq & -> & Hqn & Hqv).
        rewrite ?nxt_cons_ne by done. rewrite prv_cons_ne by done. rewrite <- Hhd.
        case_decide; simpl; eauto.
  - split; [|done]. intros q. simpl.
    unfold h3. rewrite lookup_alter_at. unfold h2, h1. rewrite !lookup_alter.
    repeat case_decide; subst; try rewrite Hpn; try (destruct (h !! q) as [[]|]); done.
Qed.

(** The representation of the recency list reads [prev] and [next] of its
    own nodes, [head] and [tail]; that of the hash index reads [key] and
    [hnext] of its own nodes, the bucket array and the bucket count. *)
Lemma dll_ok_frame w w' l :
  dll_ok w l →
  (∀ p, p ∈ l → link_part <$> nodes w' !! p = link_part <$> nodes w !! p) →
  C.head (self w') = C.head (self w) →
  C.tail (self w') = C.tail (self w) →
  dll_ok w' l.
Proof.
  intros (Hnd & Hhd & Htl & Hn) Hf Hh Ht.
  split; [done|]. split; [congruence|]. split; [congruence|].
  intros p Hp. destruct (Hn p Hp) as (n & Hpn & Hnx & Hpv).
  specialize (Hf p Hp). rewrite Hpn in Hf.
  destruct (nodes w' !! p) as [n'|]; simplify_eq/=.
  exists n'. split; [done|]. split; congruence.
Qed.

Lemma chain_ok_frame w w' i b :
  chain_ok w i b →
  (∀ p, p ∈ b →
     index_part <$> nodes w' !! p = index_part <$> nodes w !! p) →
  C.hsize (self w') = C.hsize (self w) →
  chain_ok w' i b.
Proof.
  intros (Hnd & Hn) Hf Hhs. split; [done|].
  intros p Hp. destruct (Hn p Hp) as (n & k & Hpn & Hnx & Hk & Hi).
  specialize (Hf p Hp). rewrite Hpn in Hf.
  destruct (nodes w' !! p) as [n'|]; simplify_eq/=.
  exists n', k. rewrite Hhs. repeat split; congruence.
Qed.

Lemma table_ok_frame w w' bs :
  table_ok w bs →
  (∀ p, p ∈ mjoin bs →
     index_part <$> nodes w' !! p = index_part <$> nodes w !! p) →
  C.hsize (self w') = C.hsize (self w) →
  C.htable (self w') = C.htable (self w) →
  table_ok w' bs.
Proof.
  intros (Ht & Hlen & Hc) Hf Hhs Htb.
  split; [congruence|]. split; [congruence|].
  intros i b Hb. eapply chain_ok_frame; [by apply Hc| |done].
  intros p Hp. apply Hf. apply list_elem_of_join. exists b. split; [done|].
  by eapply list_elem_of_lookup_2.
Qed.

Lemma links_only_dll_table w w' bs :
  links_only w w' → table_ok w bs → table_ok w' bs.
Proof.
  intros (Hf & _ & _ & Hhs & Htb & _) H. eapply table_ok_frame; [done| |done|done].
  intros p _. specialize (Hf p).
  destruct (nodes w' !! p) as [[]|], (nodes w !! p) as [[]|]; simplify_eq/=; done.
Qed.

Lemma chains_only_dll w w' l :
  chains_only w w' → dll_ok w l → dll_ok w' l.
Proof.
  intros (Hf & _ & _ & _ & Hh & Ht & _) H.
  eapply dll_ok_frame; [done| |done|done].
  intros p _. specialize (Hf p).
  destruct (nodes w' !! p) as [[]|], (nodes w !! p) as [[]|]; simplify_eq/=; done.
Qed.

(** ** Chain walks *)

Lemma length_le_size (h : gmap positive node) b :
  NoDup b → (∀ p, p ∈ b → is_Some (h !! p)) → (length b ≤ base.size h)%nat.
Proof.
  intros Hnd Hlive.
  rewrite <- (size_list_to_set (C := gset positive) b Hnd), <- (size_dom h).
  apply subseteq_size. intros p Hp. apply elem_of_list_to_set in Hp.
  apply elem_of_dom. auto.
Qed.

Lemma chain_ok_live w i b p : chain_ok w i b → p ∈ b → is_Some (nodes w !! p).
Proof. intros (_ & Hn) Hp. destruct (Hn p Hp) as (? & ? & -> & _). eauto. Qed.

Lemma chain_ok_fuel w i b : chain_ok w i b → (length b < fuel_of w)%nat.
Proof.
  intros Hc. unfold fuel_of. apply Nat.lt_succ_r, length_le_size; [apply Hc|].
  intros p. by eapply chain_ok_live.
Qed.

Lemma find_key_suffix w i b b1 b2 key fuel :
  chain_ok w i b → b = b1 ++ b2 → (length b2 < fuel)%nat →
  ∃ r, find_key fuel (nodes w) (head b2) key = Some r ∧
    match r with
    | Some p => p ∈ b2 ∧ ∃ n k, nodes w !! p = Some n ∧ N.key n = Some k ∧ strcmp k key = 0
    | None => ∀ p n k, p ∈ b2 → nodes w !! p = Some n → N.key n = Some k → strcmp k key ≠ 0
    end.
Proof.
  intros (Hnd & Hn). revert b1 fuel. induction b2 as [|x b2 IH]; intros b1 fuel Hb Hf.
  - destruct fuel; [simpl in Hf; lia|]. exists None. split; [done|].
    intros p n k Hp. by apply elem_of_nil in Hp.
  - destruct fuel; [lia|]. simpl in Hf. simpl.
    destruct (Hn x) as (n & k & Hx & Hnx & Hk & _).
    { rewrite Hb. apply elem_of_app. right. left. }
    rewrite Hx. simpl. rewrite Hk. simpl.
    destruct (Z.eqb_spec (strcmp k key) 0) as [E|E].
    + exists (Some x). split; [done|]. split; [left|]. eauto.
    + assert (Hx1 : x ∉ b1).
      { rewrite Hb in Hnd. apply NoDup_app in Hnd as (_ & Hd & _).
        intros ?. eapply Hd; [done | left]. }
      rewrite Hnx, Hb, nxt_middle by done.
      destruct (IH (b1 ++ [x]) fuel) as (r & Hr & Hspec).
      { by rewrite <- (assoc_L (++)). }
      { lia. }
      exists r. split; [done|]. destruct r as [p|].
      * destruct Hspec as [Hp ?]. split; [by right | done].
      * intros p n' k' [->|Hp]%elem_of_cons Hp' Hk'; [|by eapply Hspec].
        simplify_eq. done.
Qed.

Lemma find_key_prev_suffix w i b b1 b2 key fuel :
  chain_ok w i b → b = b1 ++ b2 → (length b2 < fuel)%nat →
  ∃ r pv, find_key_prev fuel (nodes w) (head b2) (last b1) key = Some (r, pv) ∧
    match r with
    | Some p => p ∈ b2 ∧ pv = prv b p ∧
                ∃ n k, nodes w !! p = Some n ∧ N.key n = Some k ∧ strcmp k key = 0
    | None => ∀ p n k, p ∈ b2 → nodes w !! p = Some n → N.key n = Some k → strcmp k key ≠ 0
    end.
Proof.
  intros (Hnd & Hn). revert b1 fuel. induction b2 as [|x b2 IH]; intros b1 fuel Hb Hf.
  - destruct fuel; [simpl in Hf; lia|]. exists None, (last b1). split; [done|].
    intros p n k Hp. by apply elem_of_nil in Hp.
  - destruct fuel; [lia|]. simpl in Hf. simpl.
    destruct (Hn x) as (n & k & Hx & Hnx & Hk & _).
    { rewrite Hb. apply elem_of_app. right. left. }
    rewrite Hx. simpl. rewrite Hk. simpl.
    assert (Hx1 : (x ∉ b1) ∧ (x ∉ b2)).
    { rewrite Hb in Hnd. apply NoDup_app in Hnd as (_ & Hd & [? _]%NoDup_cons).
      split; [|done]. intros ?. eapply Hd; [done | left]. }
    destruct Hx1 as [Hx1 Hx2].
    destruct (Z.eqb_spec (strcmp k key) 0) as [E|E].
    + exists (Some x), (last b1). split; [done|]. split; [left|].
      split; [|eauto]. rewrite Hb. by rewrite prv_middle.
    + assert (Hnx' : N.hnext n = head b2) by (by rewrite Hnx, Hb, nxt_middle).
      rewrite Hnx'.
      destruct (IH (b1 ++ [x]) fuel) as (r & pv & Hr & Hspec).
      { by rewrite <- (assoc_L (++)). }
      { lia. }
      rewrite last_snoc in Hr.
      exists r, pv. split; [done|]. destruct r as [p|].
      * destruct Hspec as [Hp ?]. split; [by right | done].
      * intros p n' k' [->|Hp]%elem_of_cons Hp' Hk'; [|by eapply Hspec].
        simplify_eq. done.
Qed.

(** ** The hash index *)

Lemma hsize_range cap : 0 < wrap (cap * 2 + 1) < word_max.
Proof.
  unfold wrap, word_max, word_bits.
  pose proof (Z.mod_pos_bound (cap * 2 + 1) (2 ^ 64) ltac:(lia)).
  assert (Hodd : (cap * 2 + 1) mod 2 ^ 64 ≠ 0); [|lia].
  intros E. apply Z.mod_divide in E; [|lia]. destruct E as [z Hz]. lia.
Qed.

Lemma bucket_of_lt hs k : 0 < hs → (bucket_of hs k < Z.to_nat hs)%nat.
Proof.
  intros Hhs. unfold bucket_of. pose proof (Z.mod_pos_bound (hash_str k) hs Hhs). lia.
Qed.

Lemma table_ok_bucket w bs k :
  table_ok w bs → 0 < C.hsize (self w) →
  ∃ b, bs !! bucket_of (C.hsize (self w)) k = Some b ∧
       bucket_index w k = Some (hash_str k mod C.hsize (self w)) ∧
       load_bucket w (hash_str k mod C.hsize (self w)) = Some (head b).
Proof.
  intros (Ht & Hlen & Hc) Hhs.
  destruct (lookup_lt_is_Some_2 bs (bucket_of (C.hsize (self w)) k)) as [b Hb].
  { rewrite Hlen. by apply bucket_of_lt. }
  exists b. split; [done|]. split.
  - unfold bucket_index. destruct (Z.eqb_spec (C.hsize (self w)) 0); [lia | done].
  - unfold load_bucket. rewrite Ht, list_lookup_fmap.
    fold (bucket_of (C.hsize (self w)) k). by rewrite Hb.
Qed.

Lemma table_ok_disjoint w bs i j b b' p :
  table_ok w bs → bs !! i = Some b → bs !! j = Some b' → p ∈ b → p ∈ b' → i = j.
Proof.
  intros (_ & _ & Hc) Hb Hb' Hp Hp'.
  destruct (Hc i b Hb) as (_ & Hn). destruct (Hc j b' Hb') as (_ & Hn').
  destruct (Hn p Hp) as (n & k & Hpn & _ & Hk & <-).
  destruct (Hn' p Hp') as (n' & k' & Hpn' & _ & Hk' & <-).
  congruence.
Qed.

Lemma table_ok_elem w bs i b p :
  table_ok w bs → bs !! i = Some b → p ∈ b → p ∈ mjoin bs.
Proof.
  intros _ Hb Hp. apply list_elem_of_join. exists b. split; [done|].
  by eapply list_elem_of_lookup_2.
Qed.

Lemma unlink_table_ok w w' bs i b n :
  table_ok w bs → bs !! i = Some b → n ∈ b →
  (∀ q, q ≠ n →
     index_part <$> nodes w' !! q =
     index_part <$> alter_at (λ x, set_hnext x (nxt b n)) (prv b n) (nodes w) !! q) →
  C.hsize (self w') = C.hsize (self w) →
  C.htable (self w') =
    (if prv b n is None then <[i := nxt b n]> (C.htable (self w)) else C.htable (self w)) →
  table_ok w' (<[i := del n b]> bs).
Proof.
  intros Hok Hb Hn Hf Hhs Htb. pose proof Hok as (Ht & Hlen & Hc).
  pose proof (Hc i b Hb) as (Hnd & Hbn).
  assert (Hi : (i < length bs)%nat) by (by eapply lookup_lt_Some).
  split; [|split].
  - rewrite Htb, list_fmap_insert, head_del, Ht by done.
    destruct (prv b n) as [a|] eqn:Ha.
    + rewrite decide_False.
      * symmetry. apply list_insert_id. by rewrite list_lookup_fmap, Hb.
      * intros H. apply prv_None_head in H; [congruence|done|done].
    + rewrite decide_True; [done|]. by apply prv_None_head.
  - by rewrite length_insert, Hhs.
  - intros j b' Hb'. destruct (decide (j = i)) as [->|Hji].
    + rewrite list_lookup_insert_eq in Hb' by done. simplify_eq.
      split; [by apply NoDup_del|].
      intros q [Hq Hqn]%elem_of_del.
      destruct (Hbn q Hq) as (nq & k & Hqq & Hnx & Hk & Hbk).
      specialize (Hf q Hqn). rewrite lookup_alter_at, Hqq in Hf.
      rewrite nxt_del by done.
      pose proof (nxt_prv n q b Hnd) as E.
      destruct (nodes w' !! q) as [nq'|]; [|by case_decide].
      exists nq', k. rewrite Hhs.
      repeat case_decide; simplify_eq/=; try tauto; repeat split; congruence.
    + rewrite list_lookup_insert_ne in Hb' by done.
      pose proof (Hc j b' Hb') as (Hnd' & Hbn').
      split; [done|]. intros q Hq.
      destruct (Hbn' q Hq) as (nq & k & Hqq & Hnx & Hk & Hbk).
      assert (q ≠ n).
      { intros ->. by pose proof (table_ok_disjoint _ _ _ _ _ _ _ Hok Hb Hb' Hn Hq). }
      specialize (Hf q H). rewrite lookup_alter_at, Hqq in Hf.
      rewrite decide_False in Hf.
      * destruct (nodes w' !! q) as [nq'|]; simplify_eq/=.
        exists nq', k. rewrite Hhs. repeat split; congruence.
      * intros Hp. apply prv_elem_of in Hp as [_ Hp].
        by pose proof (table_ok_disjoint _ _ _ _ _ _ _ Hok Hb Hb' Hp Hq).
Qed.

Lemma htable_remove_loop_suffix h cap sz hs tbl hd tl av ev i b b1 b2 n hv fuel :
  let w := World h (C.mk cap sz hs tbl hd tl) av ev in
  chain_ok w i b → b = b1 ++ b2 → n ∈ b2 → (length b2 < fuel)%nat →
  Z.to_nat hv = i → (i < length tbl)%nat →
  htable_remove_loop fuel w hv n (head b2) (last b1) =
  Some (World
          (alter (λ x, set_hnext x None) n
             (alter_at (λ x, set_hnext x (nxt b n)) (prv b n) h))
          (C.mk cap sz hs (if prv b n is None then <[i := nxt b n]> tbl else tbl) hd tl)
          av ev).
Proof.
  intros w (Hnd & Hn). revert b1 fuel.
  induction b2 as [|x b2 IH]; intros b1 fuel Hb Hnb Hf Hhv Hi.
  { by apply elem_of_nil in Hnb. }
  destruct fuel; [simpl in Hf; lia|]. simpl in Hf.
  destruct (Hn x) as (nx & k & Hx & Hnx & Hk & _).
  { rewrite Hb. apply elem_of_app. right. left. }
  assert (Hx1 : (x ∉ b1) ∧ (x ∉ b2)).
  { rewrite Hb in Hnd. apply NoDup_app in Hnd as (_ & Hd & [? _]%NoDup_cons).
    split; [|done]. intros ?. eapply Hd; [done | left]. }
  destruct Hx1 as [Hx1 Hx2].
  assert (Hnx' : N.hnext nx = head b2) by (by rewrite Hnx, Hb, nxt_middle).
  simpl in Hx. simpl. destruct (decide (x = n)) as [->|Hxn].
  - rewrite Hx. simpl.
    assert (Hpv : prv b n = last b1) by (by rewrite Hb, prv_middle).
    assert (Hnn : nxt b n = head b2) by (by rewrite Hb, nxt_middle).
    rewrite Hpv, Hnn, Hnx'. destruct (last b1) as [a|] eqn:Ha; simpl.
    + assert (Ha' : a ∈ b).
      { rewrite Hb. apply elem_of_app. left. apply last_Some in Ha as [? ->].
        apply elem_of_app. right. left. }
      destruct (Hn a Ha') as (na & ? & Haa & _). simpl in Haa.
      rewrite store_alter by (simpl; eauto). simpl.
      rewrite store_alter; [done|]. simpl. rewrite lookup_alter.
      case_decide; subst; rewrite ?Hx; eauto.
    + unfold store_bucket. simpl. rewrite decide_True by lia. simpl.
      rewrite store_alter by (simpl; eauto). simpl. by rewrite Hhv.
  - rewrite Hx. simpl. rewrite Hnx'.
    replace (Some x) with (last (b1 ++ [x])) by apply last_snoc.
    apply IH; try done.
    + by rewrite <- (assoc_L (++)).
    + by apply elem_of_cons in Hnb as [->|?].
    + lia.
Qed.

Lemma htable_remove_ok w bs i b n :
  table_ok w bs → 0 < C.hsize (self w) → bs !! i = Some b → n ∈ b →
  ∃ w', htable_remove w n = Some w' ∧ table_ok w' (<[i := del n b]> bs) ∧
        chains_only w w'.
Proof.
  intros Hok Hhs Hb Hn. pose proof Hok as (Ht & Hlen & Hc).
  pose proof (Hc i b Hb) as Hchain. pose proof Hchain as (Hnd & Hbn).
  destruct (Hbn n Hn) as (nn & k & Hnn & Hnx & Hk & Hbk).
  destruct (table_ok_bucket w bs k Hok Hhs) as (b' & Hb' & Hix & Hld).
  rewrite Hbk in Hb'. assert (b' = b) as -> by congruence. clear Hb'.
  pose proof (chain_ok_fuel _ _ _ Hchain) as Hfuel.
  assert (Hi : (i < length (C.htable (self w)))%nat).
  { rewrite Ht, length_fmap. by eapply lookup_lt_Some. }
  destruct w as [h [cap sz hs tbl hd tl] av ev]. simpl in *.
  eexists. split; [|split].
  - unfold htable_remove. cbn. rewrite Hnn. cbn. rewrite Hk. cbn.
    rewrite Hix. cbn. rewrite Hld. cbn.
    apply (htable_remove_loop_suffix h cap sz hs tbl hd tl av ev i b [] b); try done.
  - eapply unlink_table_ok; try done; simpl.
    intros q Hq. by rewrite lookup_alter, decide_False.
  - split; [|done]. simpl. intros q. rewrite lookup_alter, !lookup_alter_at.
    repeat case_decide; simplify_eq; try rewrite Hnn;
      try (destruct (h !! q) as [[]|]); done.
Qed.

Lemma htable_insert_ok w bs p n k :
  table_ok w bs → 0 < C.hsize (self w) →
  nodes w !! p = Some n → N.key n = Some k → p ∉ mjoin bs →
  ∃ b w', bs !! bucket_of (C.hsize (self w)) k = Some b ∧
          htable_insert w p = Some w' ∧
          table_ok w' (<[bucket_of (C.hsize (self w)) k := p :: b]> bs) ∧
          chains_only w w'.
Proof.
  intros Hok Hhs Hpn Hk Hp. pose proof Hok as (Ht & Hlen & Hc).
  destruct (table_ok_bucket w bs k Hok Hhs) as (b & Hb & Hix & Hld).
  assert (Hi : (bucket_of (C.hsize (self w)) k < length bs)%nat) by (by eapply lookup_lt_Some).
  destruct w as [h [cap sz hs tbl hd tl] av ev]. simpl in *.
  set (i := bucket_of hs k) in *.
  exists b. eexists. split; [done|]. split; [|split].
  - unfold htable_insert. simpl. rewrite Hpn. simpl. rewrite Hk. simpl.
    rewrite Hix. simpl. rewrite Hld. simpl.
    rewrite store_alter by (simpl; eauto). simpl.
    unfold store_bucket. simpl. rewrite decide_True; [done|].
    rewrite Ht, length_fmap. fold (bucket_of hs k). done.
  - split; [|split]; simpl.
    + fold (bucket_of hs k). fold i. by rewrite Ht, list_fmap_insert.
    + by rewrite length_insert.
    + intros j b' Hb'. destruct (decide (j = i)) as [->|Hji].
      * rewrite list_lookup_insert_eq in Hb' by done. simplify_eq.
        pose proof (Hc i b Hb) as (Hnd & Hbn).
        assert (p ∉ b).
        { intros ?. apply Hp. by eapply table_ok_elem. }
        split; [by apply NoDup_cons|].
        intros q [->|Hq]%elem_of_cons; simpl.
        -- rewrite lookup_alter, decide_True, Hpn by done. simpl.
           eexists _, k. split; [done|]. simpl. rewrite ?decide_True by done. done.
        -- assert (q ≠ p) by (by intros ->).
           rewrite lookup_alter, decide_False by done.
           destruct (Hbn q Hq) as (nq & kq & Hqq & Hnx & Hkq & Hbk). simpl in *.
           exists nq, kq. rewrite ?decide_False by done. done.
      * rewrite list_lookup_insert_ne in Hb' by done.
        pose proof (Hc j b' Hb') as (Hnd & Hbn).
        split; [done|]. intros q Hq. simpl.
        assert (q ≠ p).
        { intros ->. apply Hp. by eapply table_ok_elem. }
        rewrite lookup_alter, decide_False by done. by apply Hbn.
  - split; [|done]. simpl. intros q. rewrite lookup_alter.
    case_decide; subst; try rewrite Hpn; try (destruct (h !! q) as [[]|]); done.
Qed.

Lemma mjoin_insert_cons (bs : list (list positive)) i b p :
  bs !! i = Some b → mjoin (<[i := p :: b]> bs) ≡ₚ p :: mjoin bs.
Proof.
  intros Hb. rewrite <- (take_drop_middle bs i b Hb) at 2.
  rewrite insert_take_drop by (by eapply lookup_lt_Some).
  rewrite !join_app. simpl. symmetry. apply Permutation_middle.
Qed.

Lemma del_app n l1 l2 : del n (l1 ++ l2) = del n l1 ++ del n l2.
Proof. apply filter_app. Qed.

Lemma del_Permutation n l1 l2 : l1 ≡ₚ l2 → del n l1 ≡ₚ del n l2.
Proof. intros H. unfold del. by rewrite H. Qed.

Lemma mjoin_insert_del (bs : list (list positive)) i b n :
  bs !! i = Some b → NoDup (mjoin bs) → n ∈ b →
  mjoin (<[i := del n b]> bs) ≡ₚ del n (mjoin bs).
Proof.
  intros Hb Hnd Hn. rewrite <- (take_drop_middle bs i b Hb) in Hnd |- * at 2.
  rewrite insert_take_drop by (by eapply lookup_lt_Some).
  rewrite !join_app in *. simpl in *. rewrite !del_app.
  apply NoDup_app in Hnd as (_ & Hd1 & Hnd).
  apply NoDup_app in Hnd as (_ & Hd2 & _).
  rewrite (del_not_elem n (mjoin (take i bs))), (del_not_elem n (mjoin (drop (S i) bs))).
  - done.
  - by apply Hd2.
  - intros H. eapply Hd1; [done|]. apply elem_of_app. by left.
Qed.

(** ** Lookups *)

Lemma cache_rep_ext w w' l bs :
  nodes w' = nodes w → self w' = self w → cache_rep w l bs → cache_rep w' l bs.
Proof.
  unfold cache_rep, dll_ok, table_ok, chain_ok, keys_ok.
  intros -> ->. done.
Qed.

Lemma cache_rep_hsize w l bs : cache_rep w l bs → 0 < C.hsize (self w) < word_max.
Proof. intros (_ & _ & _ & _ & _ & _ & _ & _ & ->). apply hsize_range. Qed.

Lemma cache_rep_bucket w l bs p :
  cache_rep w l bs → p ∈ l → ∃ i b, bs !! i = Some b ∧ p ∈ b.
Proof.
  intros (_ & _ & Hperm & _) Hp. rewrite <- Hperm in Hp.
  apply list_elem_of_join in Hp as (b & Hp & Hb).
  apply list_elem_of_lookup in Hb as [i Hi]. eauto.
Qed.

Lemma lookup_key_ok w l bs key :
  cache_rep w l bs →
  ∃ r, lookup_key w key = Some r ∧
    match r with
    | Some p => p ∈ l ∧ ∃ n, nodes w !! p = Some n ∧ N.key n = Some (cstr key)
    | None => ∀ p n, nodes w !! p = Some n → N.key n ≠ Some (cstr key)
    end.
Proof.
  intros Hrep. pose proof (cache_rep_hsize _ _ _ Hrep) as [Hhs _].
  pose proof Hrep as (Hdll & Htab & Hperm & Hdom & [Hkeys Huniq] & _).
  destruct (table_ok_bucket w bs key Htab Hhs) as (b & Hb & Hix & Hld).
  pose proof Htab as (_ & _ & Hc). pose proof (Hc _ _ Hb) as Hchain.
  destruct (find_key_suffix w _ b [] b key (fuel_of w) Hchain eq_refl
              (chain_ok_fuel _ _ _ Hchain)) as (r & Hr & Hspec).
  exists r. split.
  { unfold lookup_key. rewrite Hix. simpl. rewrite Hld. done. }
  destruct r as [p|].
  - destruct Hspec as (Hp & n & k & Hpn & Hk & Hcmp). split.
    + rewrite <- Hperm. by eapply table_ok_elem.
    + exists n. split; [done|]. rewrite Hk. f_equal.
      destruct (Hkeys p n Hpn) as (k' & v' & Hk' & _ & Hc' & _).
      apply strcmp_eq in Hcmp. congruence.
  - intros p n Hpn Hk.
    assert (Hp : p ∈ l) by (apply Hdom; eauto).
    destruct (cache_rep_bucket _ _ _ _ Hrep Hp) as (j & b' & Hb' & Hpb).
    destruct (Hc _ _ Hb') as (_ & Hn'). destruct (Hn' p Hpb) as (n' & k' & Hpn' & _ & Hk' & Hj).
    assert (n' = n) as -> by congruence. assert (k' = cstr key) as -> by congruence.
    unfold bucket_of in Hj. rewrite hash_str_cstr in Hj.
    fold (bucket_of (C.hsize (self w)) key) in Hj. rewrite Hj in Hb.
    assert (b' = b) as -> by congruence.
    eapply (Hspec p n (cstr key)); try done.
    apply strcmp_eq. by rewrite cstr_idem.
Qed.

(** ** Allocation *)

Lemma node_create_ok w key value :
  ∃ res w', node_create w key value = Some (res, w') ∧
    self w' = self w ∧ events w' = events w ∧
    match res with
    | None => nodes w' = nodes w
    | Some p =>
        nodes w !! p = None ∧ address_room (nodes w) = true ∧
        nodes w' = <[p := N.mk (Some (cstr key)) (Some (cstr value)) None None None]> (nodes w)
    end.
Proof.
  destruct w as [h c av ev]. unfold node_create, calloc_node. simpl.
  destruct (next_outcome av) as [ok1 av1]. simpl.
  destruct ok1; simpl; [|by eexists None, _].
  destruct (address_room h) eqn:Hroom; simpl; [|by eexists None, _].
  assert (Hfresh : h !! fresh (dom h) = None).
  { apply not_elem_of_dom. apply is_fresh. }
  set (p := fresh (dom h)) in *.
  unfold strdup. simpl. destruct (next_outcome av1) as [ok2 av2]. simpl.
  unfold store. simpl. rewrite lookup_insert_eq. simpl.
  destruct (next_outcome av2) as [ok3 av3]. simpl.
  rewrite lookup_insert_eq. simpl. rewrite lookup_insert_eq. simpl.
  rewrite !insert_insert_eq.
  destruct ok2, ok3; simpl.
  - eexists (Some p), _. split; [done|]. done.
  - unfold free_node. simpl. rewrite lookup_insert_eq. simpl.
    eexists None, _. split; [done|]. simpl. by rewrite delete_insert_id.
  - unfold free_node. simpl. rewrite lookup_insert_eq. simpl.
    eexists None, _. split; [done|]. simpl. by rewrite delete_insert_id.
  - unfold free_node. simpl. rewrite lookup_insert_eq. simpl.
    eexists None, _. split; [done|]. simpl. by rewrite delete_insert_id.
Qed.


(** ** Keys and values across relinking *)

Lemma same_kv_refl (h : gmap positive node) : same_kv h h.
Proof. done. Qed.

Lemma same_kv_trans (h1 h2 h3 : gmap positive node) :
  same_kv h1 h2 → same_kv h2 h3 → same_kv h1 h3.
Proof. intros H1 H2 q. by rewrite H2, H1. Qed.

Lemma links_only_same_kv w w' : links_only w w' → same_kv (nodes w) (nodes w').
Proof.
  intros (Hf & _) q. specialize (Hf q).
  destruct (nodes w' !! q) as [[]|], (nodes w !! q) as [[]|]; simplify_eq/=; done.
Qed.

Lemma chains_only_same_kv w w' : chains_only w w' → same_kv (nodes w) (nodes w').
Proof.
  intros (Hf & _) q. specialize (Hf q).
  destruct (nodes w' !! q) as [[]|], (nodes w !! q) as [[]|]; simplify_eq/=; done.
Qed.

Lemma same_kv_is_Some (h h' : gmap positive node) q :
  same_kv h h' → is_Some (h' !! q) ↔ is_Some (h !! q).
Proof.
  intros H. specialize (H q). rewrite <- !not_eq_None_Some.
  destruct (h' !! q), (h !! q); simplify_eq/=; done.
Qed.

Lemma same_kv_ent (h h' : gmap positive node) q : same_kv h h' → ent h' q = ent h q.
Proof.
  intros H. specialize (H q). unfold ent, entry_of.
  destruct (h' !! q) as [[]|], (h !! q) as [[]|]; simplify_eq/=; done.
Qed.

Lemma keys_ok_same_kv (h h' : gmap positive node) :
  same_kv h h' → keys_ok h → keys_ok h'.
Proof.
  intros H [Hk Hu]. split.
  - intros p n' Hp. pose proof (H p) as E. rewrite Hp in E.
    destruct (h !! p) as [n|] eqn:Hn; simplify_eq/=.
    destruct (Hk p n Hn) as (k & v & Hk1 & Hv1 & Hc1 & Hc2). exists k, v.
    repeat split; congruence.
  - intros p q n' m' Hp Hq Hkey.
    pose proof (H p) as Ep. pose proof (H q) as Eq. rewrite Hp in Ep. rewrite Hq in Eq.
    destruct (h !! p) as [n|] eqn:Hn; destruct (h !! q) as [m|] eqn:Hm; simplify_eq/=.
    eapply Hu; [done|done|congruence].
Qed.

Lemma keys_ok_set_value (h : gmap positive node) p v :
  keys_ok h → keys_ok (alter (λ x, set_value x (Some (cstr v))) p h).
Proof.
  intros [Hk Hu]. split.
  - intros q n'. rewrite lookup_alter. case_decide as E.
    + subst q. destruct (h !! p) as [n|] eqn:Hn; [|done]. simpl. intros [= <-].
      destruct (Hk p n Hn) as (k & v' & ? & ? & ? & ?).
      exists k, (cstr v). simpl. by rewrite cstr_idem.
    + apply Hk.
  - intros q1 q2 n1 n2. rewrite !lookup_alter. intros H1 H2 Hkey.
    assert (∃ m1, h !! q1 = Some m1 ∧ N.key m1 = N.key n1) as (m1 & ? & ?).
    { clear H2. case_decide; subst; [|eauto]. destruct (h !! q1) as [x|]; simplify_eq/=. eauto. }
    assert (∃ m2, h !! q2 = Some m2 ∧ N.key m2 = N.key n2) as (m2 & ? & ?).
    { clear H1. case_decide; subst; [|eauto]. destruct (h !! q2) as [x|]; simplify_eq/=. eauto. }
    eapply Hu; [done|done|congruence].
Qed.

Lemma keys_ok_insert (h : gmap positive node) p k v lk :
  keys_ok h → (∀ q n, h !! q = Some n → N.key n ≠ Some (cstr k)) →
  keys_ok (<[p := N.mk (Some (cstr k)) (Some (cstr v)) lk.1.1 lk.1.2 lk.2]> h).
Proof.
  intros [Hk Hu] Hnew. split.
  - intros q n. rewrite lookup_insert. case_decide; [|apply Hk].
    intros [= <-]. exists (cstr k), (cstr v). simpl. by rewrite !cstr_idem.
  - intros q1 q2 n1 n2. rewrite !lookup_insert. intros H1 H2 Hkey.
    repeat case_decide; simplify_eq/=; try done.
    + exfalso. eapply Hnew; [done|]. by rewrite <- Hkey.
    + exfalso. eapply Hnew; [done|]. by rewrite Hkey.
    + by eapply Hu.
Qed.

Lemma keys_ok_delete (h : gmap positive node) p : keys_ok h → keys_ok (delete p h).
Proof.
  intros [Hk Hu]. split.
  - intros q n. rewrite lookup_delete. case_decide; [done | apply Hk].
  - intros q1 q2 n1 n2. rewrite !lookup_delete.
    repeat case_decide; try done. apply Hu.
Qed.

Lemma del_cons_perm l p : NoDup l → p ∈ l → p :: del p l ≡ₚ l.
Proof.
  intros Hnd (l1 & l2 & ->)%list_elem_of_split.
  rewrite del_middle by done. apply Permutation_middle.
Qed.

(** ** [cache_put] on a present key *)

Lemma put_update_ok w l bs p v :
  cache_rep w l bs → p ∈ l →
  ∃ r w', put_update w p v = Some (r, w') ∧
    events w' = events w ++ [unlock] ∧
    avail w' = (next_outcome (avail w)).2 ∧
    if (next_outcome (avail w)).1
    then r = 0 ∧ cache_rep w' (p :: del p l) bs ∧
         same_kv (alter (λ x, set_value x (Some (cstr v))) p (nodes w)) (nodes w') ∧
         C.capacity (self w') = C.capacity (self w)
    else r = -1 ∧ nodes w' = nodes w ∧ self w' = self w.
Proof.
  intros Hrep Hp.
  pose proof Hrep as (Hdll & Htab & Hperm & Hdom & Hkeys & Hsz & Hle & Hcap & Hhs).
  pose proof Hdll as (Hnd & _).
  unfold put_update, strdup. destruct (next_outcome (avail w)) as [ok av'].
  destruct ok; simpl; [|by eexists _, _].
  assert (Hlive : is_Some (nodes w !! p)) by (by apply Hdom).
  rewrite store_alter by done. simpl.
  set (w1 := set_nodes (set_avail w av') _).
  assert (Hkv1 : same_kv (alter (λ x, set_value x (Some (cstr v))) p (nodes w)) (nodes w1))
    by done.
  assert (Hd1 : dll_ok w1 l).
  { eapply dll_ok_frame; [exact Hdll| |done|done].
    intros q _. simpl. rewrite lookup_alter.
    case_decide; subst; [|done]. by destruct (nodes w !! q) as [[]|]. }
  assert (Ht1 : table_ok w1 bs).
  { eapply table_ok_frame; [exact Htab| |done|done].
    intros q _. simpl. rewrite lookup_alter.
    case_decide; subst; [|done]. by destruct (nodes w !! q) as [[]|]. }
  destruct (dll_remove_ok w1 l p Hd1 Hp) as (w2 & E2 & Hd2 & Hl2).
  rewrite E2. simpl.
  destruct (dll_push_head_ok w2 (del p l) p Hd2) as (w3 & E3 & Hd3 & Hl3).
  { rewrite elem_of_del. tauto. }
  { apply (same_kv_is_Some _ _ _ (links_only_same_kv _ _ Hl2)).
    simpl. rewrite lookup_alter, decide_True by done. destruct Hlive as [? ->]. simpl. eauto. }
  rewrite E3. simpl. eexists _, _. split; [done|].
  pose proof (same_kv_trans _ _ _ Hkv1
    (same_kv_trans _ _ _ (links_only_same_kv _ _ Hl2) (links_only_same_kv _ _ Hl3))) as Hkv.
  pose proof Hl2 as (_ & Hc2 & Hs2 & Hh2 & Ht2 & Ha2 & He2).
  pose proof Hl3 as (_ & Hc3 & Hs3 & Hh3 & Ht3 & Ha3 & He3).
  simpl. split; [by rewrite He3, He2|]. split; [by rewrite Ha3, Ha2|].
  split; [done|]. split; [|split; [done | by rewrite Hc3, Hc2]].
  split; [exact Hd3|]. split.
  { change (table_ok w3 bs).
    eapply links_only_dll_table; [|eapply links_only_dll_table; [|exact Ht1]]; done. }
  split. { by rewrite del_cons_perm. }
  split.
  { intros q. simpl. rewrite (same_kv_is_Some _ _ _ Hkv).
    rewrite (del_cons_perm l p) by done. rewrite <- Hdom.
    rewrite lookup_alter. case_decide; subst; [|done].
    destruct Hlive as [? ->]. simpl. split; eauto. }
  split. { eapply keys_ok_same_kv; [exact Hkv|]. by apply keys_ok_set_value. }
  simpl. rewrite Hs3, Hs2, Hc3, Hc2, Hh3, Hh2. simpl.
  split; [|done]. rewrite Hsz. f_equal. simpl. by rewrite length_del.
Qed.

Lemma same_kv_delete (h h' : gmap positive node) p :
  same_kv h h' → same_kv (delete p h) (delete p h').
Proof. intros H q. rewrite !lookup_delete. case_decide; [done | apply H]. Qed.

(** ** Eviction *)

Lemma evict_ok w l bs ev :
  dll_ok w l → table_ok w bs → mjoin bs ≡ₚ l → 0 < C.hsize (self w) → ev ∈ l →
  ∃ w' bs',
    (w1 ← dll_remove w ev; w2 ← htable_remove w1 ev;
     node_free (set_size w2 (wrap (C.size (self w2) - 1))) (Some ev)) = Some w' ∧
    dll_ok w' (del ev l) ∧ table_ok w' bs' ∧ mjoin bs' ≡ₚ del ev l ∧
    same_kv (delete ev (nodes w)) (nodes w') ∧
    C.capacity (self w') = C.capacity (self w) ∧
    C.hsize (self w') = C.hsize (self w) ∧
    C.size (self w') = wrap (C.size (self w) - 1) ∧
    avail w' = avail w ∧ events w' = events w.
Proof.
  intros Hdll Htab Hperm Hhs Hev. pose proof Hdll as (Hnd & _).
  destruct (dll_remove_ok w l ev Hdll Hev) as (w1 & E1 & Hd1 & Hl1).
  pose proof (links_only_dll_table _ _ _ Hl1 Htab) as Ht1.
  assert (∃ j bj, bs !! j = Some bj ∧ ev ∈ bj) as (j & bj & Hj & Hevj).
  { rewrite <- Hperm in Hev. apply list_elem_of_join in Hev as (bj & ? & Hbj).
    apply list_elem_of_lookup in Hbj as [j ?]. eauto. }
  pose proof Hl1 as (_ & Hc1 & Hs1 & Hh1 & Htb1 & Ha1 & He1).
  destruct (htable_remove_ok w1 bs j bj ev Ht1) as (w2 & E2 & Ht2 & Hc2); try done.
  { by rewrite Hh1. }
  pose proof (chains_only_dll _ _ _ Hc2 Hd1) as Hd2.
  pose proof Hc2 as (_ & Hcc2 & Hs2 & Hh2 & Hhd2 & Htl2 & Ha2 & He2).
  pose proof (same_kv_trans _ _ _ (links_only_same_kv _ _ Hl1)
                (chains_only_same_kv _ _ Hc2)) as Hkv.
  assert (Hlive : is_Some (nodes w2 !! ev)).
  { apply (same_kv_is_Some _ _ _ Hkv). destruct Hdll as (_ & _ & _ & Hn).
    destruct (Hn ev Hev) as (? & -> & _). eauto. }
  assert (Hperm' : mjoin (<[j := del ev bj]> bs) ≡ₚ del ev l).
  { rewrite mjoin_insert_del; [by apply del_Permutation|done| |done]. by rewrite Hperm. }
  exists (set_nodes (set_size w2 (wrap (C.size (self w2) - 1))) (delete ev (nodes w2))),
         (<[j := del ev bj]> bs).
  split.
  { rewrite E1. simpl. rewrite E2. simpl. unfold free_node. simpl.
    destruct Hlive as [? ->]. done. }
  split.
  { eapply dll_ok_frame; [exact Hd2| |done|done].
    intros q [_ Hq]%elem_of_del. simpl. by rewrite lookup_delete_ne. }
  split.
  { eapply table_ok_frame; [exact Ht2| |done|done].
    intros q Hq. rewrite Hperm' in Hq. apply elem_of_del in Hq as [_ Hq].
    simpl. by rewrite lookup_delete_ne. }
  split; [done|]. split; [by apply same_kv_delete|].
  simpl. rewrite Hcc2, Hc1, Hh2, Hh1, Hs2, Hs1, Ha2, Ha1, He2, He1. done.
Qed.

Lemma heap_size (h : gmap positive node) l :
  NoDup l → (∀ p, is_Some (h !! p) ↔ p ∈ l) → base.size h = length l.
Proof.
  intros Hnd Hdom.
  rewrite <- (size_list_to_set (C := gset positive) l Hnd), <- (size_dom h).
  f_equal. apply set_eq. intros p.
  rewrite elem_of_dom, elem_of_list_to_set. apply Hdom.
Qed.

Lemma del_last_take l x :
  NoDup l → last l = Some x → del x l = take (length l - 1) l.
Proof.
  intros Hnd [l' ->]%last_Some. rewrite del_middle by done.
  rewrite length_app. simpl. rewrite app_nil_r.
  replace (length l' + 1 - 1)%nat with (length l') by lia.
  by rewrite take_app_length.
Qed.

Lemma same_kv_insert (h h' : gmap positive node) p n :
  same_kv h h' → same_kv (<[p := n]> h) (<[p := n]> h').
Proof. intros H q. rewrite !lookup_insert. case_decide; [done | apply H]. Qed.

(** ** [cache_put] on an absent key *)

Lemma put_insert_ok w l bs k v :
  cache_rep w l bs →
  (∀ q n, nodes w !! q = Some n → N.key n ≠ Some (cstr k)) →
  ∃ r w' res w1,
    put_insert w k v = Some (r, w') ∧
    node_create w k v = Some (res, w1) ∧
    events w' = events w ++ [unlock] ∧
    match res with
    | None => r = -1 ∧ nodes w' = nodes w ∧ self w' = self w
    | Some p =>
        r = 0 ∧ (p ∉ l) ∧ C.capacity (self w') = C.capacity (self w) ∧
        ∃ bs',
          cache_rep w' (take (Z.to_nat (C.capacity (self w))) (p :: l)) bs' ∧
          ∀ q, q ∈ take (Z.to_nat (C.capacity (self w))) (p :: l) →
            ent (nodes w') q =
            ent (<[p := N.mk (Some (cstr k)) (Some (cstr v)) None None None]> (nodes w)) q
    end.
Proof.
  intros Hrep Hnew.
  pose proof Hrep as (Hdll & Htab & Hperm & Hdom & Hkeys & Hsz & Hle & Hcap & Hhs).
  pose proof Hdll as (Hnd & _).
  pose proof (cache_rep_hsize _ _ _ Hrep) as [Hhs0 _].
  destruct (node_create_ok w k v) as (res & w1 & E1 & Hs1 & He1 & Hres).
  unfold put_insert. rewrite E1. simpl.
  destruct res as [p|].
  2:{ eexists _, _, None, _. split; [done|]. split; [done|]. simpl.
      by rewrite He1, Hres, Hs1. }
  destruct Hres as (Hfresh & Hroom & Hn1).
  set (new := N.mk (Some (cstr k)) (Some (cstr v)) None None None) in *.
  assert (Hpl : p ∉ l).
  { intros H%Hdom. rewrite Hfresh in H. by destruct H. }
  assert (Hd1 : dll_ok w1 l).
  { eapply dll_ok_frame; [exact Hdll| |by rewrite Hs1|by rewrite Hs1].
    intros q Hq. rewrite Hn1, lookup_insert_ne; [done|]. by intros ->. }
  assert (Ht1 : table_ok w1 bs).
  { eapply table_ok_frame; [exact Htab| |by rewrite Hs1|by rewrite Hs1].
    intros q Hq. rewrite Hperm in Hq. rewrite Hn1, lookup_insert_ne; [done|]. by intros ->. }
  destruct (htable_insert_ok w1 bs p new (cstr k) Ht1) as (b & w2 & Hb & E2 & Ht2 & Hc2).
  { by rewrite Hs1. }
  { by rewrite Hn1, lookup_insert_eq. }
  { done. }
  { by rewrite Hperm. }
  rewrite E2. simpl.
  pose proof (chains_only_dll _ _ _ Hc2 Hd1) as Hd2.
  pose proof Hc2 as (_ & Hcc2 & Hsz2 & Hh2 & Hhd2 & Htl2 & Ha2 & Hev2).
  destruct (dll_push_head_ok w2 l p Hd2 Hpl) as (w3 & E3 & Hd3 & Hl3).
  { apply (same_kv_is_Some _ _ _ (chains_only_same_kv _ _ Hc2)).
    rewrite Hn1, lookup_insert_eq. eauto. }
  rewrite E3. simpl.
  pose proof (links_only_dll_table _ _ _ Hl3 Ht2) as Ht3.
  pose proof Hl3 as (_ & Hcc3 & Hsz3 & Hh3 & Htb3 & Ha3 & Hev3).
  rewrite Hs1 in *.
  set (bs2 := <[bucket_of (C.hsize (self w)) (cstr k) := p :: b]> bs) in *.
  assert (Hperm2 : mjoin bs2 ≡ₚ p :: l).
  { unfold bs2. by rewrite mjoin_insert_cons, Hperm. }
  pose proof (same_kv_trans _ _ _ (chains_only_same_kv _ _ Hc2)
                (links_only_same_kv _ _ Hl3)) as Hkv3.
  rewrite Hn1 in Hkv3.
  assert (Hsize : base.size (nodes w) = length l) by (by apply heap_size).
  assert (Hwrap : wrap (C.size (self w3) + 1) = Z.of_nat (length l) + 1).
  { rewrite Hsz3, Hsz2, Hsz. unfold wrap. apply Z.mod_small.
    unfold address_room in Hroom. apply Z.ltb_lt in Hroom.
    rewrite Hsize in Hroom. unfold sizeof_node in Hroom. lia. }
  rewrite Hcc3, Hcc2, Hwrap.
  assert (Hkeys3 : keys_ok (<[p := new]> (nodes w))).
  { apply (keys_ok_insert _ p k v (None, None, None)); done. }
  destruct (Z.ltb_spec (C.capacity (self w)) (Z.of_nat (length l) + 1)) as [Hfull|Hroom'].
  - (* the capacity is exceeded: the tail is evicted *)
    assert (Hlen : Z.to_nat (C.capacity (self w)) = length l) by lia.
    destruct (last (p :: l)) as [ev|] eqn:Hlast; [|by apply last_None in Hlast].
    assert (Htail : C.tail (self w3) = Some ev).
    { destruct Hd3 as (_ & _ & -> & _). done. }
    simpl. rewrite Htail.
    assert (Hev : ev ∈ p :: l).
    { apply last_Some in Hlast as [l' ->]. apply elem_of_app. right. left. }
    destruct (evict_ok (set_size w3 (Z.of_nat (length l) + 1)) (p :: l) bs2 ev)
      as (w4 & bs4 & E4 & Hd4 & Ht4 & Hperm4 & Hkv4 & Hcc4 & Hh4 & Hsz4 & Ha4 & Hev4);
      try done.
    { simpl. lia. }
    simpl in E4. rewrite E4. simpl. eexists 0, _, (Some p), _.
    split; [done|]. split; [done|].
    simpl in *. split; [by rewrite Hev4, Hev3, Hev2, He1|].
    split; [done|]. split; [done|]. split; [by rewrite Hcc4, Hcc3, Hcc2|].
    assert (Hl' : del ev (p :: l) = take (Z.to_nat (C.capacity (self w))) (p :: l)).
    { rewrite (del_last_take (p :: l) ev); [|by apply NoDup_cons|done].
      simpl length. f_equal. lia. }
    rewrite <- Hl'.
    pose proof (same_kv_trans _ _ _ (same_kv_delete _ _ ev Hkv3) Hkv4) as Hkv.
    exists bs4. split.
    + split; [exact Hd4|]. split; [exact Ht4|]. split; [done|]. split.
      { intros q. simpl. rewrite (same_kv_is_Some _ _ _ Hkv).
        rewrite lookup_delete, lookup_insert, elem_of_del, elem_of_cons, <- Hdom.
        destruct (decide (ev = q)) as [->|Hevq].
        { split; [by intros [? ?] | by intros [_ ?]]. }
        destruct (decide (p = q)) as [->|Hpq].
        { split; [intros _; split; [by left | congruence] | eauto]. }
        split; [intros ?; split; [by right | congruence] | intros [[->|?] _]; done]. }
      split. { eapply keys_ok_same_kv; [exact Hkv|]. by apply keys_ok_delete. }
      simpl. rewrite Hsz4, Hcc4, Hh4, Hh3, Hh2, Hcc3, Hcc2.
      replace (wrap (Z.of_nat (length l) + 1 - 1)) with (Z.of_nat (length l)).
      2:{ unfold wrap. rewrite Z.mod_small; lia. }
      split.
      { assert (Hld : S (length (del ev (p :: l))) = length (p :: l)).
        { apply length_del; [by apply NoDup_cons | done]. }
        simpl length in Hld. lia. }
      split; [lia|]. done.
    + intros q [_ Hq]%elem_of_del. simpl.
      rewrite (same_kv_ent _ _ _ Hkv). unfold ent, entry_of.
      by rewrite lookup_delete_ne.
  - simpl. eexists 0, _, (Some p), _. split; [done|]. split; [done|].
    simpl. split; [by rewrite Hev3, Hev2, He1|].
    split; [done|]. split; [done|]. split; [by rewrite Hcc3, Hcc2|].
    rewrite take_ge by (simpl; lia).
    exists bs2. split.
    + split; [exact Hd3|]. split; [exact Ht3|]. split; [done|]. split.
      { intros q. simpl. rewrite (same_kv_is_Some _ _ _ Hkv3).
        rewrite lookup_insert, elem_of_cons, <- Hdom.
        destruct (decide (p = q)) as [->|Hpq]; [split; eauto|].
        split; [by right | intros [->|?]; done]. }
      split. { eapply keys_ok_same_kv; [exact Hkv3|done]. }
      simpl. rewrite Hcc3, Hcc2, Hh3, Hh2.
      split; [lia|]. split; [lia|]. done.
    + intros q _. simpl. by rewrite (same_kv_ent _ _ _ Hkv3).
Qed.


(** ** Promotion *)

Lemma promote_ok w l bs p :
  cache_rep w l bs → p ∈ l →
  ∃ w', (w1 ← dll_remove w p; dll_push_head w1 p) = Some w' ∧
        cache_rep w' (p :: del p l) bs ∧ same_kv (nodes w) (nodes w') ∧
        C.capacity (self w') = C.capacity (self w) ∧
        avail w' = avail w ∧ events w' = events w.
Proof.
  intros Hrep Hp.
  pose proof Hrep as (Hdll & Htab & Hperm & Hdom & Hkeys & Hsz & Hle & Hcap & Hhs).
  pose proof Hdll as (Hnd & _).
  destruct (dll_remove_ok w l p Hdll Hp) as (w2 & E2 & Hd2 & Hl2).
  destruct (dll_push_head_ok w2 (del p l) p Hd2) as (w3 & E3 & Hd3 & Hl3).
  { rewrite elem_of_del. tauto. }
  { apply (same_kv_is_Some _ _ _ (links_only_same_kv _ _ Hl2)). by apply Hdom. }
  exists w3. rewrite E2. simpl. split; [done|].
  pose proof (same_kv_trans _ _ _ (links_only_same_kv _ _ Hl2)
                (links_only_same_kv _ _ Hl3)) as Hkv.
  pose proof Hl2 as (_ & Hc2 & Hs2 & Hh2 & Ht2 & Ha2 & He2).
  pose proof Hl3 as (_ & Hc3 & Hs3 & Hh3 & Ht3 & Ha3 & He3).
  split; [|split; [done|]; split; [congruence|]; split; congruence].
  split; [exact Hd3|]. split.
  { eapply links_only_dll_table; [|eapply links_only_dll_table; [|exact Htab]]; done. }
  split. { by rewrite del_cons_perm. }
  split.
  { intros q. rewrite (same_kv_is_Some _ _ _ Hkv), (del_cons_perm l p) by done. apply Hdom. }
  split. { by eapply keys_ok_same_kv. }
  rewrite Hs3, Hs2, Hc3, Hc2, Hh3, Hh2.
  split; [|done]. rewrite Hsz. f_equal. simpl. by rewrite length_del.
Qed.

(** ** [cache_get] *)

Lemma get_shared_ok w l bs k :
  cache_rep w l bs →
  ∃ r, lookup_key w k = Some r ∧
       get_shared w k =
       Some (bool_decide (is_Some r), lock_event unlock (lock_event rdlock w)).
Proof.
  intros Hrep. destruct (lookup_key_ok w l bs k Hrep) as (r & Hr & _).
  exists r. split; [done|]. unfold get_shared.
  change (lookup_key (lock_event rdlock w) k) with (lookup_key w k). by rewrite Hr.
Qed.

Lemma get_exclusive_ok w l bs k :
  cache_rep w l bs →
  ∃ r ret w', lookup_key w k = Some r ∧ get_exclusive w k = Some (ret, w') ∧
    events w' = events w ++ [wrlock; unlock] ∧
    C.capacity (self w') = C.capacity (self w) ∧
    match r with
    | Some p =>
        cache_rep w' (p :: del p l) bs ∧ same_kv (nodes w) (nodes w') ∧
        avail w' = (next_outcome (avail w)).2 ∧
        ret = (if (next_outcome (avail w)).1 then Some (ent (nodes w) p).2 else None)
    | None => ret = None ∧ nodes w' = nodes w ∧ self w' = self w ∧ avail w' = avail w
    end.
Proof.
  intros Hrep. destruct (lookup_key_ok w l bs k Hrep) as (r & Hr & Hspec).
  exists r. unfold get_exclusive.
  change (lookup_key (lock_event wrlock w) k) with (lookup_key w k). rewrite Hr. simpl.
  destruct r as [p|].
  2:{ eexists _, _. split; [done|]. split; [done|]. simpl.
      rewrite <- (assoc_L (++)). done. }
  destruct Hspec as (Hp & n & Hpn & Hk).
  destruct (promote_ok (lock_event wrlock w) l bs p) as (w3 & E3 & Hrep3 & Hkv & Hc3 & Ha3 & He3).
  { by eapply cache_rep_ext. }
  { done. }
  destruct (dll_remove (lock_event wrlock w) p) as [w2|] eqn:E2; [|done].
  change (dll_push_head w2 p = Some w3) in E3.
  change (Some w2 ≫= ?f) with (f w2). cbv beta. rewrite E3. simpl.
  pose proof Hrep as (_ & _ & _ & _ & [Hkeys _] & _).
  destruct (Hkeys p n Hpn) as (k' & v & Hk' & Hv & _ & Hcv).
  pose proof (Hkv p) as Ep. simpl in Ep. rewrite Hpn in Ep.
  destruct (nodes w3 !! p) as [n3|] eqn:Hn3; [|done]. simpl in Ep.
  injection Ep as Ek3 Ev3. simpl. rewrite Ev3, Hv. simpl.
  unfold strdup. rewrite Ha3. simpl. destruct (next_outcome (avail w)) as [ok av'].
  eexists _, _. split; [done|]. split; [done|]. simpl.
  split; [rewrite He3; simpl; by rewrite <- (assoc_L (++))|]. split; [done|].
  split; [by eapply cache_rep_ext; [| |exact Hrep3]|]. split; [done|]. split; [done|].
  unfold ent, entry_of. rewrite Hpn. simpl. rewrite Hk', Hv. simpl.
  destruct ok; [by rewrite Hcv | done].
Qed.

(** ** [cache_delete] *)

Lemma find_key_prev_fst fuel (h : gmap positive node) cur prev key :
  fst <$> find_key_prev fuel h cur prev key = find_key fuel h cur key.
Proof.
  revert cur prev. induction fuel as [|fuel IH]; intros cur prev; simpl; [done|].
  destruct cur as [c|]; [|done].
  destruct (h !! c) as [cn|]; [|done]. simpl.
  destruct (N.key cn) as [ck|]; [|done]. simpl.
  destruct (strcmp ck key =? 0); [done|]. apply IH.
Qed.

Lemma unlink_step_ok w bs i b p n hv :
  table_ok w bs → bs !! i = Some b → p ∈ b → nodes w !! p = Some n → Z.to_nat hv = i →
  ∃ w1,
    match prv b p with
    | Some q => store w q (λ x, set_hnext x (N.hnext n))
    | None => store_bucket w hv (N.hnext n)
    end = Some w1 ∧
    table_ok w1 (<[i := del p b]> bs) ∧ chains_only w w1.
Proof.
  intros Htab Hb Hp Hpn Hhv. pose proof Htab as (Ht & Hlen & Hc).
  pose proof (Hc i b Hb) as (Hnd & Hbn).
  destruct (Hbn p Hp) as (n' & k & Hpn' & Hnx & _).
  assert (n' = n) as -> by congruence.
  destruct (prv b p) as [q|] eqn:Hpv.
  - assert (Hq : is_Some (nodes w !! q)).
    { apply prv_elem_of in Hpv as [_ Hq]. destruct (Hbn q Hq) as (? & ? & -> & _). eauto. }
    rewrite store_alter by done. eexists. split; [done|]. split.
    + eapply unlink_table_ok; try done.
      * intros x _. simpl. by rewrite Hpv, Hnx.
      * by rewrite Hpv.
    + split; [|done]. intros x. simpl. rewrite lookup_alter.
      case_decide; subst; [|done]. by destruct (nodes w !! x) as [[]|].
  - unfold store_bucket. rewrite decide_True.
    2:{ rewrite Hhv, Ht, length_fmap. by eapply lookup_lt_Some. }
    eexists. split; [done|]. split.
    + eapply unlink_table_ok; try done.
      * intros x _. simpl. by rewrite Hpv.
      * simpl. by rewrite Hpv, Hhv, Hnx.
    + by split.
Qed.

Lemma cache_delete_ok w l bs k :
  cache_rep w l bs →
  ∃ r rc w', lookup_key w k = Some r ∧
    cache_delete (Some w) (Some k) = Some (rc, Some w') ∧
    events w' = events w ++ [wrlock; unlock] ∧ avail w' = avail w ∧
    C.capacity (self w') = C.capacity (self w) ∧
    match r with
    | Some p => rc = 0 ∧ ∃ bs', cache_rep w' (del p l) bs' ∧
                same_kv (delete p (nodes w)) (nodes w')
    | None => rc = 1 ∧ nodes w' = nodes w ∧ self w' = self w
    end.
Proof.
  intros Hrep. pose proof (cache_rep_hsize _ _ _ Hrep) as [Hhs0 _].
  pose proof Hrep as (Hdll & Htab & Hperm & Hdom & Hkeys & Hsz & Hle & Hcap & Hhs).
  pose proof Hdll as (Hnd & _).
  destruct (lookup_key_ok w l bs k Hrep) as (r & Hr & Hspec).
  destruct (table_ok_bucket w bs k Htab Hhs0) as (b & Hb & Hix & Hld).
  pose proof Htab as (_ & _ & Hc). pose proof (Hc _ _ Hb) as Hchain.
  destruct (find_key_prev_suffix w _ b [] b k (fuel_of w) Hchain eq_refl
              (chain_ok_fuel _ _ _ Hchain)) as (r' & pv & Hfind & Hspec').
  change (last []) with (@None positive) in Hfind.
  assert (r' = r) as ->.
  { pose proof (find_key_prev_fst (fuel_of w) (nodes w) (head b) None k) as E.
    rewrite Hfind in E. simpl in E.
    unfold lookup_key in Hr. rewrite Hix in Hr. simpl in Hr. rewrite Hld in Hr.
    simpl in Hr. congruence. }
  exists r. unfold cache_delete.
  change (bucket_index (lock_event wrlock w) k) with (bucket_index w k).
  rewrite Hix. cbn.
  change (load_bucket (lock_event wrlock w) ?x) with (load_bucket w x).
  rewrite Hld. cbn.
  change (fuel_of (lock_event wrlock w)) with (fuel_of w).
  rewrite Hfind. cbn.
  destruct r as [p|].
  2:{ eexists _, _. split; [done|]. split; [done|]. simpl.
      rewrite <- (assoc_L (++)). done. }
  destruct Hspec as (Hp & n & Hpn & Hk). destruct Hspec' as (Hpb & -> & _).
  rewrite Hpn. simpl.
  set (i := bucket_of (C.hsize (self w)) k) in *.
  destruct (unlink_step_ok (lock_event wrlock w) bs i b p n
              (hash_str k mod C.hsize (self w))) as (w1 & E1 & Ht1 & Hc1); try done.
  rewrite E1. simpl.
  pose proof (chains_only_dll (lock_event wrlock w) w1 l Hc1 Hdll) as Hd1.
  destruct (dll_remove_ok w1 l p Hd1 Hp) as (w2 & E2 & Hd2 & Hl2).
  rewrite E2. simpl.
  pose proof (links_only_dll_table _ _ _ Hl2 Ht1) as Ht2.
  pose proof (same_kv_trans _ _ _ (chains_only_same_kv _ _ Hc1)
                (links_only_same_kv _ _ Hl2)) as Hkv.
  simpl in Hkv.
  assert (Hlive : is_Some (nodes w2 !! p)).
  { apply (same_kv_is_Some _ _ _ Hkv). eauto. }
  unfold free_node. destruct Hlive as [n2 Hn2]. rewrite Hn2. simpl.
  pose proof Hc1 as (_ & Hcc1 & Hs1 & Hh1 & Hhd1 & Htl1 & Ha1 & He1).
  pose proof Hl2 as (_ & Hcc2 & Hs2 & Hh2 & Htb2 & Ha2 & He2).
  simpl in *.
  assert (Hperm' : mjoin (<[i := del p b]> bs) ≡ₚ del p l).
  { rewrite mjoin_insert_del; [by apply del_Permutation|done| |done]. by rewrite Hperm. }
  eexists _, _. split; [done|]. split; [done|]. simpl.
  split; [by rewrite He2, He1, <- (assoc_L (++))|].
  split; [by rewrite Ha2, Ha1|]. split; [by rewrite Hcc2, Hcc1|].
  split; [done|]. exists (<[i := del p b]> bs).
  pose proof (same_kv_delete _ _ p Hkv) as Hkv'.
  split; [|done]. split.
  { eapply dll_ok_frame; [exact Hd2| |done|done].
    intros q [_ Hq]%elem_of_del. simpl. by rewrite lookup_delete_ne. }
  split.
  { eapply table_ok_frame; [exact Ht2| |done|done].
    intros q Hq. rewrite Hperm' in Hq. apply elem_of_del in Hq as [_ Hq].
    simpl. by rewrite lookup_delete_ne. }
  split; [done|]. split.
  { intros q. simpl. rewrite (same_kv_is_Some _ _ _ Hkv'), lookup_delete, elem_of_del, <- Hdom.
    case_decide; subst; split; try tauto; by intros [? ?]. }
  split. { eapply keys_ok_same_kv; [exact Hkv'|]. by apply keys_ok_delete. }
  simpl. rewrite Hs2, Hs1, Hcc2, Hcc1, Hh2, Hh1.
  assert (Hld' : S (length (del p l)) = length l) by (by apply length_del).
  assert (Hw : wrap (C.size (self w) - 1) = Z.of_nat (length (del p l))).
  { unfold wrap. rewrite Z.mod_small; lia. }
  rewrite Hw. split; [done|]. split; [lia|]. done.
Qed.


(** ** [cache_create] *)

Lemma mjoin_replicate_nil (n : nat) : mjoin (replicate n ([] : list positive)) = [].
Proof. induction n as [|n IH]; [done|]. simpl. done. Qed.

Lemma cache_create_Some cap av w :
  cache_create cap av = Some w →
  cap ≠ 0 ∧
  w = World ∅ (C.mk cap 0 (wrap (cap * 2 + 1))
                 (replicate (Z.to_nat (wrap (cap * 2 + 1))) None) None None)
        (next_outcome (next_outcome av).2).2 [].
Proof.
  unfold cache_create, calloc_cache, calloc_table.
  destruct (Z.eqb_spec cap 0) as [|Hne]; [done|].
  destruct (next_outcome av) as [ok1 av1]. destruct ok1; [|done]. simpl.
  destruct (next_outcome av1) as [ok2 av2]. destruct ok2; [|done]. simpl.
  destruct (wrap (cap * 2 + 1) * sizeof_ptr <? word_max); [|done].
  by intros [= <-].
Qed.

Lemma cache_create_ok cap av w :
  0 ≤ cap < word_max → cache_create cap av = Some w →
  cache_rep w [] (replicate (Z.to_nat (C.hsize (self w))) []) ∧
  C.capacity (self w) = cap ∧ events w = [].
Proof.
  intros Hcap [Hne ->]%cache_create_Some. simpl. split; [|done].
  split. { split; [constructor|]. split; [done|]. split; [done|]. by intros p ?%elem_of_nil. }
  split.
  { split; [|split]; simpl.
    - by rewrite fmap_replicate.
    - by rewrite length_replicate.
    - intros i b [-> _]%lookup_replicate. split; [constructor|]. by intros p ?%elem_of_nil. }
  split. { by rewrite mjoin_replicate_nil. }
  split. { intros p. simpl. rewrite lookup_empty. split; [by intros [? ?] | by intros ?%elem_of_nil]. }
  split. { split; intros ?; intros; simplify_map_eq. }
  simpl. split; [done|]. split; [lia|]. split; [lia|]. done.
Qed.

(** ** [cache_put] *)

Lemma cache_put_ok w l bs k v :
  cache_rep w l bs →
  ∃ r rc w', lookup_key w k = Some r ∧
    cache_put (Some w) (Some k) (Some v) = Some (rc, Some w') ∧
    events w' = events w ++ [wrlock; unlock] ∧
    match r with
    | Some p =>
        p ∈ l ∧ (∃ n, nodes w !! p = Some n ∧ N.key n = Some (cstr k)) ∧
        if (next_outcome (avail w)).1
        then rc = 0 ∧ cache_rep w' (p :: del p l) bs ∧
             same_kv (alter (λ x, set_value x (Some (cstr v))) p (nodes w)) (nodes w') ∧
             C.capacity (self w') = C.capacity (self w)
        else rc = -1 ∧ nodes w' = nodes w ∧ self w' = self w
    | None =>
        (∀ q n, nodes w !! q = Some n → N.key n ≠ Some (cstr k)) ∧
        ∃ res w1, node_create w k v = Some (res, w1) ∧
          match res with
          | None => rc = -1 ∧ nodes w' = nodes w ∧ self w' = self w
          | Some p =>
              rc = 0 ∧ (p ∉ l) ∧ C.capacity (self w') = C.capacity (self w) ∧
              ∃ bs',
                cache_rep w' (take (Z.to_nat (C.capacity (self w))) (p :: l)) bs' ∧
                ∀ q, q ∈ take (Z.to_nat (C.capacity (self w))) (p :: l) →
                  ent (nodes w') q =
                  ent (<[p := N.mk (Some (cstr k)) (Some (cstr v)) None None None]>
                         (nodes w)) q
          end
    end.
Proof.
  intros Hrep. destruct (lookup_key_ok w l bs k Hrep) as (r & Hr & Hspec).
  exists r. unfold cache_put.
  change (lookup_key (lock_event wrlock w) k) with (lookup_key w k). rewrite Hr. simpl.
  assert (Hrep' : cache_rep (lock_event wrlock w) l bs) by (by eapply cache_rep_ext).
  destruct r as [p|].
  - destruct Hspec as [Hp Hn].
    destruct (put_update_ok _ l bs p v Hrep' Hp) as (rc & w' & E & Hev & Hav & Hpost).
    rewrite E. simpl. exists rc, w'. split; [done|]. split; [done|].
    simpl in Hev. split; [by rewrite Hev, <- (assoc_L (++))|]. done.
  - destruct (put_insert_ok _ l bs k v Hrep' Hspec) as (rc & w' & res & w1 & E & E1 & Hev & Hpost).
    rewrite E. simpl. exists rc, w'. split; [done|]. split; [done|].
    simpl in Hev. split; [by rewrite Hev, <- (assoc_L (++))|]. split; [done|].
    destruct (node_create_ok w k v) as (res0 & w0 & E0 & _).
    assert (res0 = res) as ->.
    { clear -E0 E1. unfold node_create, calloc_node, strdup, store, free_node in *.
      simpl in *. destruct (next_outcome (avail w)) as [ok1 av1]. simpl in *.
      destruct (ok1 && address_room (nodes w)); simpl in *; [|congruence].
      destruct (next_outcome av1) as [ok2 av2]. simpl in *.
      rewrite !lookup_insert_eq in *. simpl in *.
      destruct (next_outcome av2) as [ok3 av3]. simpl in *.
      rewrite !lookup_insert_eq in *. simpl in *. rewrite !lookup_insert_eq in *. simpl in *.
      destruct ok2, ok3; simpl in *; rewrite ?lookup_insert_eq in *; simpl in *; congruence. }
    exists res, w0. split; [done|]. exact Hpost.
Qed.


(** ** Reading the lists back from the store *)

Lemma walk_next_suffix w l l1 l2 fuel :
  dll_ok w l → l = l1 ++ l2 → (length l2 < fuel)%nat →
  walk_next fuel (nodes w) (head l2) = Some l2.
Proof.
  intros (Hnd & _ & _ & Hn). revert l1 fuel.
  induction l2 as [|x l2 IH]; intros l1 fuel Hl Hf.
  - destruct fuel; [simpl in Hf; lia | done].
  - destruct fuel; [lia|]. simpl in Hf. simpl.
    destruct (Hn x) as (n & Hx & Hnx & _).
    { rewrite Hl. apply elem_of_app. right. left. }
    rewrite Hx. simpl.
    assert (Hx1 : x ∉ l1).
    { rewrite Hl in Hnd. apply NoDup_app in Hnd as (_ & Hd & _).
      intros ?. eapply Hd; [done | left]. }
    assert (Hnx' : N.next n = head l2) by (by rewrite Hnx, Hl, nxt_middle).
    rewrite Hnx', (IH (l1 ++ [x])); [done| |lia].
    by rewrite <- (assoc_L (++)).
Qed.

Lemma walk_hnext_suffix w i b b1 b2 fuel :
  chain_ok w i b → b = b1 ++ b2 → (length b2 < fuel)%nat →
  walk_hnext fuel (nodes w) (head b2) = Some b2.
Proof.
  intros (Hnd & Hn). revert b1 fuel.
  induction b2 as [|x b2 IH]; intros b1 fuel Hb Hf.
  - destruct fuel; [simpl in Hf; lia | done].
  - destruct fuel; [lia|]. simpl in Hf. simpl.
    destruct (Hn x) as (n & k & Hx & Hnx & _).
    { rewrite Hb. apply elem_of_app. right. left. }
    rewrite Hx. simpl.
    assert (Hx1 : x ∉ b1).
    { rewrite Hb in Hnd. apply NoDup_app in Hnd as (_ & Hd & _).
      intros ?. eapply Hd; [done | left]. }
    assert (Hnx' : N.hnext n = head b2) by (by rewrite Hnx, Hb, nxt_middle).
    rewrite Hnx', (IH (b1 ++ [x])); [done| |lia].
    by rewrite <- (assoc_L (++)).
Qed.

Lemma recency_ok w l bs : cache_rep w l bs → recency w = Some l.
Proof.
  intros (Hdll & _ & _ & Hdom & _). pose proof Hdll as (Hnd & Hhd & _).
  unfold recency. rewrite Hhd. apply (walk_next_suffix w l [] l); [done|done|].
  unfold fuel_of. apply Nat.lt_succ_r, length_le_size; [done|]. intros p. apply Hdom.
Qed.

Lemma mapM_fmap_Some {A B} (f : A → option B) (g : A → B) (xs : list A) :
  (∀ x, x ∈ xs → f x = Some (g x)) → mapM f xs = Some (g <$> xs).
Proof.
  induction xs as [|x xs IH]; intros H; [done|]. simpl.
  rewrite (H x) by left. simpl. rewrite IH; [done|]. intros y Hy. apply H. by right.
Qed.

Lemma mapM_fmap_inv {A B} (f : B → option A) (g : A → B) (xs : list A) :
  (∀ x, x ∈ xs → f (g x) = Some x) → mapM f (g <$> xs) = Some xs.
Proof.
  induction xs as [|x xs IH]; intros H; [done|]. rewrite fmap_cons.
  change (mapM f (g x :: (g <$> xs))) with
    (y ← f (g x); k ← mapM f (g <$> xs); Some (y :: k)).
  rewrite (H x) by left. simpl. rewrite IH; [done|]. intros y Hy. apply H. by right.
Qed.

Lemma index_chains_ok w l bs : cache_rep w l bs → index_chains w = Some bs.
Proof.
  intros (_ & (Ht & _ & Hc) & _). unfold index_chains. rewrite Ht.
  apply mapM_fmap_inv.
  intros b [i Hi]%list_elem_of_lookup. pose proof (Hc i b Hi) as Hchain.
  apply (walk_hnext_suffix w i b [] b); [done|done|]. by eapply chain_ok_fuel.
Qed.

Lemma entry_of_live (h : gmap positive node) p :
  keys_ok h → is_Some (h !! p) → entry_of h p = Some (ent h p).
Proof.
  intros [Hk _] [n Hn]. destruct (Hk p n Hn) as (k & v & Hkk & Hv & _).
  unfold ent, entry_of. rewrite Hn. simpl. by rewrite Hkk, Hv.
Qed.

Lemma ent_key (h : gmap positive node) p n k :
  keys_ok h → h !! p = Some n → (ent h p).1 = k ↔ N.key n = Some k.
Proof.
  intros [Hk _] Hn. destruct (Hk p n Hn) as (k' & v & Hkk & Hv & _).
  unfold ent, entry_of. rewrite Hn. simpl. rewrite Hkk, Hv. simpl.
  split; congruence.
Qed.

Lemma ent_key_inj (h : gmap positive node) p q :
  keys_ok h → is_Some (h !! p) → is_Some (h !! q) → (ent h p).1 = (ent h q).1 → p = q.
Proof.
  intros Hkeys [n Hn] [m Hm] E. pose proof Hkeys as [Hk Hu].
  destruct (Hk q m Hm) as (k & v & Hkk & _).
  apply (ent_key h q m k Hkeys Hm) in Hkk as Hq. rewrite Hq in E.
  apply (ent_key h p n k Hkeys Hn) in E. eapply Hu; [done|done|congruence].
Qed.

Lemma entries_ok w l bs : cache_rep w l bs → entries w = Some (ent (nodes w) <$> l).
Proof.
  intros Hrep. unfold entries. rewrite (recency_ok w l bs Hrep). simpl.
  destruct Hrep as (_ & _ & _ & Hdom & Hkeys & _).
  apply mapM_fmap_Some. intros p Hp. apply entry_of_live; [done|]. by apply Hdom.
Qed.

Lemma fmap_del_without (h : gmap positive node) l p k :
  (∀ q, q ∈ l → (ent h q).1 = k ↔ q = p) →
  ent h <$> del p l = without k (ent h <$> l).
Proof.
  induction l as [|x l IH]; intros H; [done|].
  unfold del, without in *. rewrite fmap_cons.
  destruct (decide (x = p)) as [->|Hne].
  - rewrite !filter_cons_False; [apply IH|..].
    + intros q Hq. apply H. by right.
    + intros Hk. apply Hk. apply H; [left|done].
    + by intros ?.
  - rewrite !filter_cons_True; [|by rewrite (H x) by left|done].
    rewrite fmap_cons. f_equal. apply IH. intros q Hq. apply H. by right.
Qed.

Lemma assoc_ent_Some (h : gmap positive node) l p k :
  p ∈ l → (∀ q, q ∈ l → (ent h q).1 = k ↔ q = p) →
  assoc k (ent h <$> l) = Some (ent h p).2.
Proof.
  induction l as [|x l IH]; intros Hp H; [by apply elem_of_nil in Hp|].
  simpl. destruct (decide (x = p)) as [->|Hne].
  - rewrite decide_True; [done|]. apply H; [left|done].
  - rewrite decide_False by (by rewrite (H x) by left).
    apply IH; [by apply elem_of_cons in Hp as [->|?]|].
    intros q Hq. apply H. by right.
Qed.

Lemma assoc_ent_None (h : gmap positive node) l k :
  (∀ q, q ∈ l → (ent h q).1 ≠ k) → assoc k (ent h <$> l) = None.
Proof.
  induction l as [|x l IH]; intros H; [done|]. simpl.
  rewrite decide_False by (apply H; left). apply IH. intros q Hq. apply H. by right.
Qed.

Lemma assoc_Some_elem k v (es : list (string * string)) :
  assoc k es = Some v → (k, v) ∈ es.
Proof.
  induction es as [|[k' v'] es IH]; simpl; [done|].
  case_decide; simpl in *.
  - intros [= <-]. subst. left.
  - intros ?. right. auto.
Qed.

Lemma assoc_None_not_elem k (es : list (string * string)) :
  assoc k es = None ↔ k ∉ es.*1.
Proof.
  induction es as [|[k' v'] es IH]; simpl.
  - split; [intros _ ?%elem_of_nil; done | done].
  - rewrite not_elem_of_cons. case_decide; simpl in *; [split; [done|]; intros [? _]; congruence|].
    rewrite IH. split; [split; [congruence|done] | by intros [_ ?]].
Qed.


(** ** The code against the list of entries *)

Lemma rep_key_spec w l bs k r :
  cache_rep w l bs → lookup_key w k = Some r →
  match r with
  | Some p => p ∈ l ∧ ∀ q, q ∈ l → (ent (nodes w) q).1 = cstr k ↔ q = p
  | None => ∀ q, q ∈ l → (ent (nodes w) q).1 ≠ cstr k
  end.
Proof.
  intros Hrep Hr. destruct (lookup_key_ok w l bs k Hrep) as (r' & Hr' & Hspec).
  assert (r' = r) as -> by congruence.
  pose proof Hrep as (_ & _ & _ & Hdom & Hkeys & _).
  destruct r as [p|].
  - destruct Hspec as (Hp & n & Hpn & Hk). split; [done|].
    assert (Hpk : (ent (nodes w) p).1 = cstr k) by (by eapply ent_key).
    intros q Hq. split; [|by intros ->].
    intros E. apply (ent_key_inj (nodes w)); [done|by apply Hdom|by apply Hdom|congruence].
  - intros q Hq E. apply Hdom in Hq as [n Hn].
    apply (ent_key _ _ _ _ Hkeys Hn) in E. by eapply Hspec.
Qed.

Lemma put_sim w es k v :
  cache_inv w → entries w = Some es →
  ∃ rc w', cache_put (Some w) (Some k) (Some v) = Some (rc, Some w') ∧
    cache_inv w' ∧
    events w' = events w ++ [wrlock; unlock] ∧
    C.capacity (self w') = C.capacity (self w) ∧
    (rc = 0 ∨ rc = -1) ∧
    (rc = -1 ↔ put_out_of_memory w k v = true) ∧
    (is_Some (assoc (cstr k) es) → (rc = -1 ↔ out_of_memory w = true)) ∧
    (rc = 0 → entries w' = Some (model_put (C.capacity (self w)) (cstr k) (cstr v) es)) ∧
    (rc = -1 → nodes w' = nodes w ∧ self w' = self w).
Proof.
  intros (l & bs & Hrep) Hes. rewrite (entries_ok w l bs Hrep) in Hes.
  injection Hes as <-.
  pose proof Hrep as (Hdll & _ & _ & Hdom & Hkeys & _). pose proof Hdll as (Hnd & _).
  destruct (cache_put_ok w l bs k v Hrep) as (r & rc & w' & Hr & E & Hev & Hpost).
  pose proof (rep_key_spec w l bs k r Hrep Hr) as Hkey.
  exists rc, w'. split; [done|]. unfold put_out_of_memory, out_of_memory. rewrite Hr.
  destruct r as [p|].
  - destruct Hkey as [Hp Hkey]. destruct Hpost as (_ & _ & Hpost).
    rewrite (assoc_ent_Some _ l p (cstr k) Hp Hkey).
    unfold strdup. destruct (next_outcome (avail w)) as [ok av']. simpl in *.
    destruct ok.
    + destruct Hpost as (-> & Hrep' & Hkv & Hcap).
      split; [by eexists _, _|]. split; [done|]. split; [done|]. split; [by left|].
      split; [by rewrite bool_decide_eq_true|]. split; [done|]. split; [|done].
      intros _. rewrite (entries_ok _ _ _ Hrep'). f_equal.
      unfold model_put. rewrite (assoc_ent_Some _ l p (cstr k) Hp Hkey).
      rewrite fmap_cons. f_equal.
      * rewrite (same_kv_ent _ _ _ Hkv). unfold ent, entry_of.
        rewrite lookup_alter, decide_True by done.
        assert (Hpk : (ent (nodes w) p).1 = cstr k) by (by apply Hkey).
        apply Hdom in Hp as [n Hn]. apply (ent_key _ _ _ _ Hkeys Hn) in Hpk.
        rewrite Hn. simpl. rewrite Hpk. simpl. done.
      * rewrite <- (fmap_del_without _ l p (cstr k) Hkey).
        apply list_fmap_ext. intros i q Hq.
        apply list_elem_of_lookup_2, elem_of_del in Hq as [_ Hq].
        rewrite (same_kv_ent _ _ _ Hkv). unfold ent, entry_of.
        by rewrite lookup_alter, decide_False.
    + destruct Hpost as (-> & Hn & Hs).
      split. { exists l, bs. by eapply cache_rep_ext. }
      split; [done|]. split; [by rewrite Hs|]. split; [by right|].
      split; [by rewrite bool_decide_eq_true|]. done.
  - destruct Hpost as (Hnew & res & w1 & E1 & Hpost). rewrite E1. simpl.
    rewrite (assoc_ent_None _ l (cstr k) Hkey).
    destruct res as [p|].
    + destruct Hpost as (-> & Hpl & Hcap & bs' & Hrep' & Hent).
      split; [by eexists _, _|]. split; [done|]. split; [done|]. split; [by left|].
      split; [by rewrite bool_decide_eq_true|]. split; [by intros [? ?]|]. split; [|done].
      intros _. rewrite (entries_ok _ _ _ Hrep'). f_equal.
      unfold model_put. rewrite (assoc_ent_None _ l (cstr k) Hkey).
      rewrite (list_fmap_ext (ent (nodes w')) (ent (<[p := _]> (nodes w)))
                 (take _ (p :: l)) (λ i q Hq, Hent q (list_elem_of_lookup_2 _ i q Hq))).
      rewrite fmap_take, fmap_cons. f_equal. f_equal.
      * unfold ent, entry_of. by rewrite lookup_insert_eq.
      * apply list_fmap_ext. intros i q Hq. apply list_elem_of_lookup_2 in Hq.
        unfold ent, entry_of. rewrite lookup_insert_ne; [done|]. by intros ->.
    + destruct Hpost as (-> & Hn & Hs).
      split. { exists l, bs. by eapply cache_rep_ext. }
      split; [done|]. split; [by rewrite Hs|]. split; [by right|].
      split; [by rewrite bool_decide_eq_true|]. split; [by intros [? ?]|]. done.
Qed.


Lemma get_sim w es k :
  cache_inv w → entries w = Some es →
  ∃ ret w', cache_get (Some w) (Some k) = Some (ret, Some w') ∧
    cache_inv w' ∧
    entries w' = Some (model_get (cstr k) es) ∧
    C.capacity (self w') = C.capacity (self w) ∧
    match assoc (cstr k) es with
    | Some v =>
        ret = (if out_of_memory w then None else Some v) ∧
        avail w' = (next_outcome (avail w)).2 ∧
        events w' = events w ++ [rdlock; unlock; wrlock; unlock]
    | None =>
        ret = None ∧ nodes w' = nodes w ∧ self w' = self w ∧ avail w' = avail w ∧
        events w' = events w ++ [rdlock; unlock]
    end.
Proof.
  intros (l & bs & Hrep) Hes. rewrite (entries_ok w l bs Hrep) in Hes.
  injection Hes as <-.
  pose proof Hrep as (Hdll & _ & _ & Hdom & Hkeys & _). pose proof Hdll as (Hnd & _).
  destruct (get_shared_ok w l bs k Hrep) as (r & Hr & E1).
  pose proof (rep_key_spec w l bs k r Hrep Hr) as Hkey.
  unfold cache_get. rewrite E1. simpl. unfold model_get.
  destruct r as [p|].
  - destruct Hkey as [Hp Hkey].
    rewrite (assoc_ent_Some _ l p (cstr k) Hp Hkey).
    rewrite bool_decide_eq_true_2 by eauto.
    set (w1 := lock_event unlock (lock_event rdlock w)).
    assert (Hrep1 : cache_rep w1 l bs) by (by eapply cache_rep_ext).
    destruct (get_exclusive_ok w1 l bs k Hrep1)
      as (r' & ret & w' & Hr' & E2 & Hev & Hcap & Hpost).
    change (lookup_key w1 k) with (lookup_key w k) in Hr'.
    assert (r' = Some p) as -> by congruence.
    destruct Hpost as (Hrep' & Hkv & Hav & Hret).
    rewrite E2. simpl. exists ret, w'. split; [done|]. split; [by eexists _, _|].
    split.
    { rewrite (entries_ok _ _ _ Hrep'). f_equal. rewrite fmap_cons. f_equal.
      - rewrite (same_kv_ent _ _ _ Hkv). simpl.
        assert (Hpk : (ent (nodes w) p).1 = cstr k) by (by apply Hkey).
        rewrite <- Hpk. by destruct (ent (nodes w) p).
      - rewrite <- (fmap_del_without _ l p (cstr k) Hkey).
        apply list_fmap_ext. intros i q Hq. by rewrite (same_kv_ent _ _ _ Hkv). }
    split; [done|]. split.
    { rewrite Hret. unfold out_of_memory. simpl. by destruct (next_outcome (avail w)).1. }
    split; [done|]. rewrite Hev. simpl. by rewrite <- !(assoc_L (++)).
  - rewrite (assoc_ent_None _ l (cstr k) Hkey).
    rewrite bool_decide_eq_false_2 by (by intros [? ?]).
    eexists _, _. split; [done|]. split. { exists l, bs. by eapply cache_rep_ext. }
    split. { erewrite entries_ok; [done|]. by eapply cache_rep_ext. }
    simpl. by rewrite <- (assoc_L (++)).
Qed.

Lemma delete_sim w es k :
  cache_inv w → entries w = Some es →
  ∃ rc w', cache_delete (Some w) (Some k) = Some (rc, Some w') ∧
    cache_inv w' ∧
    entries w' = Some (model_delete (cstr k) es) ∧
    C.capacity (self w') = C.capacity (self w) ∧
    avail w' = avail w ∧
    events w' = events w ++ [wrlock; unlock] ∧
    match assoc (cstr k) es with
    | Some _ => rc = 0
    | None => rc = 1 ∧ nodes w' = nodes w ∧ self w' = self w
    end.
Proof.
  intros (l & bs & Hrep) Hes. rewrite (entries_ok w l bs Hrep) in Hes.
  injection Hes as <-.
  pose proof Hrep as (Hdll & _ & _ & Hdom & Hkeys & _). pose proof Hdll as (Hnd & _).
  destruct (cache_delete_ok w l bs k Hrep) as (r & rc & w' & Hr & E & Hev & Hav & Hcap & Hpost).
  pose proof (rep_key_spec w l bs k r Hrep Hr) as Hkey.
  exists rc, w'. split; [done|]. unfold model_delete.
  destruct r as [p|].
  - destruct Hkey as [Hp Hkey]. destruct Hpost as (-> & bs' & Hrep' & Hkv).
    rewrite (assoc_ent_Some _ l p (cstr k) Hp Hkey).
    split; [by eexists _, _|]. split; [|done].
    rewrite (entries_ok _ _ _ Hrep'). f_equal.
    rewrite <- (fmap_del_without _ l p (cstr k) Hkey).
    apply list_fmap_ext. intros i q Hq.
    apply list_elem_of_lookup_2, elem_of_del in Hq as [_ Hq].
    rewrite (same_kv_ent _ _ _ Hkv). unfold ent, entry_of. by rewrite lookup_delete_ne.
  - destruct Hpost as (-> & Hn & Hs).
    rewrite (assoc_ent_None _ l (cstr k) Hkey).
    split. { exists l, bs. by eapply cache_rep_ext. }
    split; [|done]. erewrite entries_ok by (by eapply cache_rep_ext).
    rewrite Hn. f_equal. unfold without. symmetry.
    clear -Hkey. induction l as [|x l IH]; [done|]. rewrite fmap_cons.
    rewrite filter_cons_True by (apply Hkey; left). f_equal. apply IH.
    intros q Hq. apply Hkey. by right.
Qed.

(** ** Every call keeps the invariant *)

Lemma step_inv w c :
  cache_inv w →
  ∃ w', step w c = Some w' ∧ cache_inv w' ∧
        C.capacity (self w') = C.capacity (self w) ∧
        C.hsize (self w') = C.hsize (self w).
Proof.
  intros Hinv.
  assert (Hes : ∃ es, entries w = Some es).
  { destruct Hinv as (l & bs & Hrep). erewrite entries_ok by done. eauto. }
  destruct Hes as [es Hes].
  assert (Hh : ∀ w', cache_inv w' → C.capacity (self w') = C.capacity (self w) →
                      C.hsize (self w') = C.hsize (self w)).
  { intros w' (l' & bs' & Hrep') Hc. destruct Hinv as (l & bs & Hrep).
    destruct Hrep as (_ & _ & _ & _ & _ & _ & _ & _ & ->).
    destruct Hrep' as (_ & _ & _ & _ & _ & _ & _ & _ & ->). by rewrite Hc. }
  destruct c as [[k|] [v|]|[k|]|[k|]]; unfold step; try (by exists w).
  - destruct (put_sim w es k v Hinv Hes) as (rc & w' & E & Hinv' & _ & Hc & _).
    rewrite E. simpl. exists w'. auto.
  - destruct (get_sim w es k Hinv Hes) as (rc & w' & E & Hinv' & _ & Hc & _).
    rewrite E. simpl. exists w'. auto.
  - destruct (delete_sim w es k Hinv Hes) as (rc & w' & E & Hinv' & _ & Hc & _).
    rewrite E. simpl. exists w'. auto.
Qed.

Lemma run_inv cs w :
  cache_inv w →
  ∃ w', run cs w = Some w' ∧ cache_inv w' ∧
        C.capacity (self w') = C.capacity (self w) ∧
        C.hsize (self w') = C.hsize (self w).
Proof.
  revert w. induction cs as [|c cs IH]; intros w Hinv; simpl; [by exists w|].
  destruct (step_inv w c Hinv) as (w1 & E1 & Hinv1 & Hc1 & Hh1). rewrite E1. simpl.
  destruct (IH w1 Hinv1) as (w' & E & Hinv' & Hc & Hh).
  exists w'. split; [done|]. split; [done|]. split; congruence.
Qed.

Lemma reach_inv cap av cs w :
  reach cap av cs = Some w →
  cache_inv w ∧ C.capacity (self w) = cap ∧ C.hsize (self w) = wrap (cap * 2 + 1) ∧
  0 < cap < word_max.
Proof.
  unfold reach. case_decide as Hcap; [|done].
  destruct (cache_create cap av) as [w0|] eqn:E0; [|done].
  simpl. destruct (cache_create_ok cap av w0 Hcap E0) as (Hrep & Hc & _).
  assert (Hinv0 : cache_inv w0) by (by eexists _, _).
  destruct (run_inv cs w0 Hinv0) as (w' & E & Hinv' & Hc' & Hh'). rewrite E.
  intros [= <-]. split; [done|]. split; [congruence|].
  destruct Hinv' as (l & bs & Hrep').
  destruct Hrep' as (_ & _ & _ & _ & _ & _ & _ & Hpos & ->).
  rewrite Hc', Hc in *. done.
Qed.


(** ** Lists of entries *)


Lemma entries_facts w es :
  cache_inv w → entries w = Some es →
  C.size (self w) = Z.of_nat (length es) ∧
  C.size (self w) ≤ C.capacity (self w) ∧
  NoDup es.*1.
Proof.
  intros (l & bs & Hrep) Hes. rewrite (entries_ok w l bs Hrep) in Hes.
  injection Hes as <-.
  destruct Hrep as ((Hnd & _) & _ & _ & Hdom & Hkeys & Hsz & Hle & _).
  rewrite length_fmap. split; [done|]. split; [done|].
  rewrite <- list_fmap_compose. apply NoDup_fmap_2_strong; [|done].
  intros p q Hp Hq E. simpl in E.
  apply (ent_key_inj (nodes w)); [done| | |done]; by apply Hdom.
Qed.

Lemma assoc_without_ne k k' es : k ≠ k' → assoc k (without k' es) = assoc k es.
Proof.
  intros Hne. unfold without. induction es as [|[k1 v1] es IH]; [done|].
  destruct (decide (k1 = k')) as [->|Hk1].
  - rewrite filter_cons_False by (by intros ?). simpl.
    rewrite decide_False by congruence. done.
  - rewrite filter_cons_True by done. simpl. by rewrite IH.
Qed.

Lemma assoc_without_eq k es : assoc k (without k es) = None.
Proof.
  apply assoc_None_not_elem. unfold without. intros H.
  apply list_elem_of_fmap in H as ([k1 v1] & -> & H).
  apply list_elem_of_filter in H as [H _]. by apply H.
Qed.

Lemma assoc_take_None k n es : assoc k es = None → assoc k (take n es) = None.
Proof.
  rewrite !assoc_None_not_elem. intros H Hin. apply H.
  apply list_elem_of_fmap in Hin as (e & -> & Hin).
  apply list_elem_of_fmap. exists e. split; [done|].
  apply elem_of_take in Hin as (i & Hi & _). by eapply list_elem_of_lookup_2.
Qed.

Lemma assoc_model_get k k' es : assoc k (model_get k' es) = assoc k es.
Proof.
  unfold model_get. destruct (assoc k' es) as [v'|] eqn:E; [|done]. simpl.
  destruct (decide (k' = k)) as [->|Hne]; [done|]. by apply assoc_without_ne.
Qed.

Lemma assoc_model_delete_None k k' es :
  assoc k es = None → assoc k (model_delete k' es) = None.
Proof.
  intros H. unfold model_delete.
  destruct (decide (k = k')) as [->|Hne]; [apply assoc_without_eq|].
  by rewrite assoc_without_ne.
Qed.

Lemma assoc_model_put_None cap k k' v' es :
  k ≠ k' → assoc k es = None → assoc k (model_put cap k' v' es) = None.
Proof.
  intros Hne H. unfold model_put. destruct (assoc k' es) as [v0|].
  - simpl. rewrite decide_False by congruence. by rewrite assoc_without_ne.
  - apply assoc_take_None. simpl. by rewrite decide_False by congruence.
Qed.

Lemma length_without_present k v es :
  NoDup es.*1 → assoc k es = Some v → S (length (without k es)) = length es.
Proof.
  unfold without. induction es as [|[k1 v1] es IH]; simpl; [done|].
  intros [Hk1 Hnd]%NoDup_cons. case_decide as E; simpl in E.
  - subst k1. intros _. rewrite filter_cons_False by (by intros ?). f_equal.
    clear IH. induction es as [|[k2 v2] es IH]; [done|].
    simpl in Hk1. apply not_elem_of_cons in Hk1 as [? ?].
    apply NoDup_cons in Hnd as [? ?].
    rewrite filter_cons_True by (simpl; congruence). simpl. f_equal. by apply IH.
  - intros H. rewrite filter_cons_True by done. simpl. f_equal. by apply IH.
Qed.

(** ** Every call against the list of entries *)

Lemma step_sim w c es :
  cache_inv w → entries w = Some es →
  ∃ w' es', step w c = Some w' ∧ cache_inv w' ∧ entries w' = Some es' ∧
    C.capacity (self w') = C.capacity (self w) ∧
    (es' = es ∨ es' = model_call (C.capacity (self w)) c es).
Proof.
  intros Hinv Hes.
  destruct c as [[k|] [v|]|[k|]|[k|]]; unfold step;
    try (exists w, es; repeat split; auto; done).
  - destruct (put_sim w es k v Hinv Hes)
      as (rc & w' & E & Hinv' & _ & Hc & Hrc & _ & _ & Hok & Hfail).
    rewrite E. simpl. destruct Hrc as [->| ->].
    + eexists w', _. rewrite (Hok eq_refl). repeat split; eauto.
    + destruct (Hfail eq_refl) as [Hn Hs]. exists w', es.
      split; [done|]. split; [done|]. split; [|auto].
      unfold entries, recency, fuel_of in *. by rewrite Hn, Hs.
  - destruct (get_sim w es k Hinv Hes) as (rc & w' & E & Hinv' & Hes' & Hc & _).
    rewrite E. simpl. eexists w', _. repeat split; eauto.
  - destruct (delete_sim w es k Hinv Hes) as (rc & w' & E & Hinv' & Hes' & Hc & _).
    rewrite E. simpl. eexists w', _. repeat split; eauto.
Qed.


(** ** Sequences of calls against the list of entries *)

Lemma run_sim (P : list (string * string) → Prop) (ok : call → Prop) cs w es :
  (∀ cap c es, ok c → P es → P (model_call cap c es)) →
  cache_inv w → entries w = Some es → P es → Forall ok cs →
  ∃ w' es', run cs w = Some w' ∧ cache_inv w' ∧ entries w' = Some es' ∧ P es' ∧
            C.capacity (self w') = C.capacity (self w).
Proof.
  intros HP. revert w es. induction cs as [|c cs IH]; intros w es Hinv Hes HPes Hok.
  { exists w, es. simpl. auto. }
  apply Forall_cons in Hok as [Hc Hok].
  destruct (step_sim w c es Hinv Hes) as (w1 & es1 & E1 & Hinv1 & Hes1 & Hcap1 & Hes1').
  assert (HP1 : P es1) by (destruct Hes1' as [->| ->]; auto).
  destruct (IH w1 es1 Hinv1 Hes1 HP1 Hok) as (w' & es' & E & Hinv' & Hes' & HP' & Hcap).
  exists w', es'. simpl. rewrite E1. simpl. split; [done|]. split; [done|].
  split; [done|]. split; [done|]. congruence.
Qed.

Lemma lookup_key_assoc w es k :
  cache_inv w → entries w = Some es →
  ∃ r, lookup_key w k = Some r ∧ (is_Some r ↔ is_Some (assoc (cstr k) es)).
Proof.
  intros (l & bs & Hrep) Hes. rewrite (entries_ok w l bs Hrep) in Hes.
  injection Hes as <-.
  destruct (lookup_key_ok w l bs k Hrep) as (r & Hr & _).
  pose proof (rep_key_spec w l bs k r Hrep Hr) as Hkey.
  exists r. split; [done|]. destruct r as [p|].
  - destruct Hkey as [Hp Hkey]. rewrite (assoc_ent_Some _ l p (cstr k) Hp Hkey).
    split; eauto.
  - rewrite (assoc_ent_None _ l (cstr k) Hkey). split; by intros [? ?].
Qed.

Lemma reach_entries cap av cs w :
  reach cap av cs = Some w → ∃ es, entries w = Some es.
Proof.
  intros ((l & bs & Hrep) & _)%reach_inv. erewrite entries_ok by done. eauto.
Qed.

(** ** Inserting distinct keys into a fresh cache *)

Lemma insert_all_sim kvs w es w' :
  cache_inv w → entries w = Some es → insert_all kvs w = Some w' →
  cache_inv w' ∧ C.capacity (self w') = C.capacity (self w) ∧
  entries w' =
    Some (foldl (λ es kv, model_put (C.capacity (self w)) (cstr kv.1) (cstr kv.2) es) es kvs).
Proof.
  revert w es. induction kvs as [|[k v] kvs IH]; intros w es Hinv Hes Hall.
  { simpl in *. by injection Hall as <-. }
  destruct (put_sim w es k v Hinv Hes)
    as (rc & w1 & E & Hinv1 & _ & Hc & _ & _ & _ & Hok & _).
  change (insert_all ((k, v) :: kvs) w) with
    ('(rc, h) ← cache_put (Some w) (Some k) (Some v);
     if rc =? 0 then w ← h; insert_all kvs w else None) in Hall.
  rewrite E in Hall. simpl in Hall. destruct (Z.eqb_spec rc 0) as [->|]; [|done].
  simpl in Hall.
  destruct (IH w1 _ Hinv1 (Hok eq_refl) Hall) as (Hinv' & Hc' & Hes').
  split; [done|]. split; [congruence|]. simpl. by rewrite Hes', Hc.
Qed.

Lemma take_cons_take {A} (n : nat) (x : A) (xs : list A) :
  take n (x :: take n xs) = take n (x :: xs).
Proof.
  destruct n as [|n]; [done|]. simpl. f_equal.
  rewrite take_take. f_equal. lia.
Qed.

Lemma foldl_model_put_fresh cap es kvs :
  NoDup (kvs.*1 ++ es.*1) →
  foldl (λ es kv, model_put cap kv.1 kv.2 es) (take (Z.to_nat cap) es) kvs =
  take (Z.to_nat cap) (reverse kvs ++ es).
Proof.
  revert es. induction kvs as [|[k v] kvs IH]; intros es Hnd; [done|].
  simpl in *. apply NoDup_cons in Hnd as [Hk Hnd].
  rewrite reverse_cons, <- (assoc_L (++)). simpl.
  rewrite <- (IH ((k, v) :: es)).
  2:{ simpl. apply NoDup_app in Hnd as (H1 & H2 & H3). apply NoDup_app.
      split; [done|]. split.
      - intros x Hx [->|?]%elem_of_cons; [|by eapply H2].
        apply Hk. apply elem_of_app. by left.
      - apply NoDup_cons. split; [|done]. intros ?. apply Hk. apply elem_of_app. by right. }
  f_equal. unfold model_put. rewrite assoc_take_None.
  - apply take_cons_take.
  - apply assoc_None_not_elem. intros ?. apply Hk. apply elem_of_app. by right.
Qed.

(** ** The entries behind the most recently used one

    As long as no call names a key of [es0], the entries are some newer
    ones followed by a prefix of [es0]: the entries of [es0] leave from the
    back, the first one last. *)

Lemma without_not_elem k es : k ∉ es.*1 → without k es = es.
Proof.
  unfold without. induction es as [|[k1 v1] es IH]; [done|]. simpl.
  intros [? ?]%not_elem_of_cons. rewrite filter_cons_True by (simpl; congruence).
  f_equal. auto.
Qed.

Lemma take_keys_subset (m : nat) es k : k ∈ (take m es).*1 → k ∈ es.*1.
Proof.
  intros (e & -> & He)%list_elem_of_fmap. apply list_elem_of_fmap. exists e.
  split; [done|]. apply elem_of_take in He as (i & Hi & _). by eapply list_elem_of_lookup_2.
Qed.

Lemma without_block k1 news (m : nat) es0 :
  k1 ∉ es0.*1 → without k1 (news ++ take m es0) = without k1 news ++ take m es0.
Proof.
  intros Hk. unfold without. rewrite filter_app. f_equal.
  apply without_not_elem. intros ?. apply Hk. by eapply take_keys_subset.
Qed.

Lemma block_cons_without es0 k1 v1 es :
  k1 ∉ es0.*1 →
  (∃ news (m : nat), es = news ++ take m es0 ∧ Forall (λ e, e.1 ∉ es0.*1) news) →
  ∃ news (m : nat), (k1, v1) :: without k1 es = news ++ take m es0 ∧
                    Forall (λ e, e.1 ∉ es0.*1) news.
Proof.
  intros Hk (news & m & -> & Hnews). rewrite without_block by done.
  exists ((k1, v1) :: without k1 news), m. split; [done|].
  apply Forall_cons. split; [done|]. unfold without.
  apply Forall_forall. intros e [_ He]%list_elem_of_filter.
  by eapply Forall_forall in Hnews.
Qed.

Lemma block_take es0 (n : nat) es :
  (∃ news (m : nat), es = news ++ take m es0 ∧ Forall (λ e, e.1 ∉ es0.*1) news) →
  ∃ news (m : nat), take n es = news ++ take m es0 ∧ Forall (λ e, e.1 ∉ es0.*1) news.
Proof.
  intros (news & m & -> & Hnews). rewrite take_app, take_take.
  exists (take n news), ((n - length news) `min` m)%nat. split; [done|].
  by apply Forall_take.
Qed.

Lemma block_model_call es0 cap c es :
  (∀ k1, call_key c = Some k1 → k1 ∉ es0.*1) →
  (∃ news (m : nat), es = news ++ take m es0 ∧ Forall (λ e, e.1 ∉ es0.*1) news) →
  ∃ news (m : nat), model_call cap c es = news ++ take m es0 ∧
                    Forall (λ e, e.1 ∉ es0.*1) news.
Proof.
  intros Hc HJ. destruct c as [[k|] [v|]|[k|]|[k|]]; simpl in *; try done.
  - specialize (Hc _ eq_refl). unfold model_put. destruct (assoc (cstr k) es).
    + by apply block_cons_without.
    + apply block_take. destruct HJ as (news & m & -> & Hnews).
      exists ((cstr k, cstr v) :: news), m. split; [done|]. by apply Forall_cons.
  - specialize (Hc _ eq_refl). unfold model_get. destruct (assoc (cstr k) es); [|done].
    by apply block_cons_without.
  - specialize (Hc _ eq_refl). unfold model_delete.
    destruct HJ as (news & m & -> & Hnews). rewrite without_block by done.
    exists (without (cstr k) news), m. split; [done|]. unfold without.
    apply Forall_forall. intros e [_ He]%list_elem_of_filter.
    by eapply Forall_forall in Hnews.
Qed.

Lemma block_head_last k v rest es k' :
  (∃ news (m : nat), es = news ++ take m ((k, v) :: rest) ∧
     Forall (λ e, e.1 ∉ ((k, v) :: rest).*1) news) →
  k' ∈ ((k, v) :: rest).*1 → is_Some (assoc k' es) → is_Some (assoc k es).
Proof.
  intros (news & m & -> & Hnews) Hk' Hsome.
  assert (Hin : k' ∈ (news ++ take m ((k, v) :: rest)).*1).
  { destruct (decide (k' ∈ (news ++ take m ((k, v) :: rest)).*1)) as [|Hn]; [done|].
    apply assoc_None_not_elem in Hn. rewrite Hn in Hsome. by destruct Hsome. }
  rewrite fmap_app, elem_of_app in Hin. destruct Hin as [Hin|Hin].
  { apply list_elem_of_fmap in Hin as (e & -> & He).
    eapply Forall_forall in Hnews; [|done]. done. }
  destruct m as [|m]; [by apply elem_of_nil in Hin|].
  destruct (assoc k (news ++ take (S m) ((k, v) :: rest))) eqn:E; [eauto|].
  apply assoc_None_not_elem in E. exfalso. apply E.
  rewrite fmap_app, elem_of_app. right. simpl. left.
Qed.


(** * The claims *)

(** C1.  Capacity bound.  In whatever state a sequence of calls (of puts
    in particular) has left a cache created with a positive capacity, one
    more put returns, and after it the size is at most the capacity and is
    the number of entries.  A put that inserts a new entry into a full
    cache drops exactly one entry, the last of the recency order. *)
Theorem C1_capacity_bound cap av cs w (key value : option string) :
  reach cap av cs = Some w →
  ∃ rc w' es es',
    cache_put (Some w) key value = Some (rc, Some w') ∧
    0 < cap ∧ C.capacity (self w') = cap ∧
    C.size (self w') ≤ C.capacity (self w') ∧
    entries w = Some es ∧ entries w' = Some es' ∧
    C.size (self w') = Z.of_nat (length es') ∧
    (∀ k v, key = Some k → value = Some v → rc = 0 →
       assoc (cstr k) es = None → Z.of_nat (length es) = cap →
       es' = (cstr k, cstr v) :: take (length es - 1) es).
Proof.
  intros Hreach. destruct (reach_inv _ _ _ _ Hreach) as (Hinv & Hcap & _ & Hpos).
  destruct (reach_entries _ _ _ _ Hreach) as [es Hes].
  destruct (entries_facts w es Hinv Hes) as (Hsz & Hle & _).
  destruct key as [k|], value as [v|];
    try (exists (-1), w, es, es; simpl; repeat split; try done; lia).
  destruct (put_sim w es k v Hinv Hes)
    as (rc & w' & E & Hinv' & _ & Hc & Hrc & _ & _ & Hok & Hfail).
  assert (Hes' : ∃ es', entries w' = Some es').
  { destruct Hinv' as (l & bs & Hrep). erewrite entries_ok by done. eauto. }
  destruct Hes' as [es' Hes'].
  destruct (entries_facts w' es' Hinv' Hes') as (Hsz' & Hle' & _).
  exists rc, w', es, es'. split; [done|]. split; [lia|]. split; [congruence|].
  split; [done|]. split; [done|]. split; [done|]. split; [done|].
  intros k' v' [= <-] [= <-] Hrc0 Hnone Hfull.
  rewrite (Hok Hrc0) in Hes'. injection Hes' as <-.
  unfold model_put. rewrite Hnone, Hcap.
  replace (Z.to_nat cap) with (S (length es - 1)) by lia. done.
Qed.

Lemma foldl_fmap_l {A B C} (g : A → C → A) (f : B → C) (a : A) (xs : list B) :
  foldl g a (f <$> xs) = foldl (λ a x, g a (f x)) a xs.
Proof. revert a. induction xs as [|x xs IH]; intros a; [done|]. simpl. apply IH. Qed.

Lemma NoDup_fst_agree k v v' es :
  NoDup es.*1 → (k, v) ∈ es → (k, v') ∈ es → v = v'.
Proof.
  induction es as [|[k1 v1] es IH]; simpl; [by intros _ ?%elem_of_nil|].
  intros [Hk Hnd]%NoDup_cons [E1|H1]%elem_of_cons [E2|H2]%elem_of_cons.
  - congruence.
  - exfalso. apply Hk. injection E1 as <- <-. apply list_elem_of_fmap. by exists (k, v').
  - exfalso. apply Hk. injection E2 as <- <-. apply list_elem_of_fmap. by exists (k, v).
  - by apply IH.
Qed.

Lemma assoc_reverse_Some k v es :
  NoDup es.*1 → (k, v) ∈ es → assoc k (reverse es) = Some v.
Proof.
  intros Hnd Hin.
  destruct (assoc k (reverse es)) as [v'|] eqn:E.
  - apply assoc_Some_elem in E. rewrite elem_of_reverse in E.
    f_equal. by eapply NoDup_fst_agree.
  - apply assoc_None_not_elem in E. exfalso. apply E.
    apply list_elem_of_fmap. exists (k, v). split; [done|]. by rewrite elem_of_reverse.
Qed.

(** C2.  LRU eviction order.  A cache created with capacity N into which
    N+1 keys, distinct as C strings, are inserted by puts that all return
    success, with nothing in between, holds the last N of them: after any
    number of gets, a get of the first key returns not found, and a get of
    any of the other keys returns the value stored for it whenever its copy
    can be allocated. *)
Theorem C2_lru_eviction_order cap av w0 k0 v0 kvs w (gs : list (option string)) w2 :
  reach cap av [] = Some w0 →
  Z.of_nat (length kvs) = cap →
  NoDup (cstr <$> (k0 :: kvs.*1)) →
  insert_all ((k0, v0) :: kvs) w0 = Some w →
  run (Get <$> gs) w = Some w2 →
  entries w = Some (reverse ((λ kv, (cstr kv.1, cstr kv.2)) <$> kvs)) ∧
  (∃ w3, cache_get (Some w2) (Some k0) = Some (None, Some w3)) ∧
  (∀ k v, (k, v) ∈ kvs → out_of_memory w2 = false →
     ∃ w3, cache_get (Some w2) (Some k) = Some (Some (cstr v), Some w3)).
Proof.
  intros Hreach Hlen Hnd Hall Hgets.
  destruct (reach_inv _ _ _ _ Hreach) as (Hinv0 & Hcap0 & _ & Hpos).
  assert (Hes0 : entries w0 = Some []).
  { unfold reach in Hreach. case_decide; [|done]. simpl in Hreach.
    destruct (cache_create cap av) as [w0'|] eqn:E; [|done]. simpl in Hreach.
    injection Hreach as ->. apply cache_create_Some in E as [_ ->]. done. }
  destruct (insert_all_sim _ w0 [] w Hinv0 Hes0 Hall) as (Hinv & Hcap & Hes).
  set (f := λ kv : string * string, (cstr kv.1, cstr kv.2)) in *.
  set (ckvs := f <$> kvs).
  assert (Hkeys : (f <$> ((k0, v0) :: kvs)).*1 = cstr <$> (k0 :: kvs.*1)).
  { rewrite !fmap_cons. simpl. f_equal. rewrite <- !list_fmap_compose. done. }
  assert (Hnd' : NoDup ((f <$> ((k0, v0) :: kvs)).*1 ++ ([] : list (string * string)).*1)).
  { by rewrite app_nil_r, Hkeys. }
  assert (Hes' : entries w = Some (reverse ckvs)).
  { rewrite Hes. f_equal. rewrite Hcap0.
    pose proof (foldl_model_put_fresh cap [] (f <$> ((k0, v0) :: kvs)) Hnd') as Hf.
    rewrite take_nil, foldl_fmap_l in Hf.
    transitivity (take (Z.to_nat cap) (reverse (f <$> ((k0, v0) :: kvs)) ++ []));
      [exact Hf|].
    rewrite app_nil_r, fmap_cons, reverse_cons. fold ckvs.
    rewrite take_app_length'; [done|]. rewrite length_reverse. unfold ckvs.
    rewrite length_fmap. lia. }
  split; [done|].
  assert (Hck : NoDup ckvs.*1 ∧ (cstr k0 ∉ ckvs.*1)).
  { rewrite app_nil_r, fmap_cons, fmap_cons in Hnd'. fold ckvs in Hnd'.
    apply NoDup_cons in Hnd' as [? ?]. done. }
  destruct Hck as [Hck Hk0].
  (* the gets change the order but not what is stored *)
  destruct (run_sim (λ es, ∀ k, assoc k es = assoc k (reverse ckvs))
              (λ c, ∃ g, c = Get g) (Get <$> gs) w (reverse ckvs))
    as (w2' & es2 & E2 & Hinv2 & Hes2 & Hassoc & _); try done.
  { intros cap' c es [[k1|] ->] HP k; simpl; [|done]. by rewrite assoc_model_get. }
  { apply Forall_forall. intros c (g & -> & _)%list_elem_of_fmap. eauto. }
  assert (w2' = w2) as -> by congruence.
  split.
  - destruct (get_sim w2 es2 k0 Hinv2 Hes2) as (ret & w3 & E & _ & _ & _ & Hpost).
    rewrite Hassoc in Hpost.
    assert (Hn : assoc (cstr k0) (reverse ckvs) = None).
    { apply assoc_None_not_elem. by rewrite fmap_reverse, elem_of_reverse. }
    rewrite Hn in Hpost. destruct Hpost as (-> & _). eauto.
  - intros k v Hin Hmem.
    destruct (get_sim w2 es2 k Hinv2 Hes2) as (ret & w3 & E & _ & _ & _ & Hpost).
    rewrite Hassoc in Hpost.
    rewrite (assoc_reverse_Some (cstr k) (cstr v)) in Hpost; [|done|].
    + destruct Hpost as (-> & _). rewrite Hmem in E. eauto.
    + unfold ckvs. apply list_elem_of_fmap. by exists (k, v).
Qed.

(** C3, as the code has it.  Get.  On a key that is present, get moves
    the entry to the front of the recency order and then copies the value:
    it returns the stored value when the copy can be allocated and null, as
    for a key that is absent, when it cannot, the entry being promoted in
    both cases.  From then on, as long as no call names a key that was live
    at the time of the get, any of those keys that is still in the cache
    has the promoted key with it: the promoted key is the last of them to
    be evicted.  On a key that is absent, get returns not found and changes
    neither the store nor the cache structure. *)
Theorem C3_get_promotes cap av cs w es k :
  reach cap av cs = Some w → entries w = Some es →
  (∀ v, assoc (cstr k) es = Some v →
     ∃ ret w', cache_get (Some w) (Some k) = Some (ret, Some w') ∧
       ret = (if out_of_memory w then None else Some v) ∧
       entries w' = Some ((cstr k, v) :: without (cstr k) es) ∧
       ∀ cs' w2 es2 k',
         Forall (λ c, ∀ k1, call_key c = Some k1 → k1 ∉ es.*1) cs' →
         run cs' w' = Some w2 → entries w2 = Some es2 →
         k' ∈ es.*1 → is_Some (assoc k' es2) → is_Some (assoc (cstr k) es2)) ∧
  (assoc (cstr k) es = None →
     ∃ w', cache_get (Some w) (Some k) = Some (None, Some w') ∧
       nodes w' = nodes w ∧ self w' = self w ∧ avail w' = avail w).
Proof.
  intros Hreach Hes. destruct (reach_inv _ _ _ _ Hreach) as (Hinv & _).
  destruct (get_sim w es k Hinv Hes) as (ret & w' & E & Hinv' & Hes' & _ & Hpost).
  split.
  - intros v Hv. rewrite Hv in Hpost. destruct Hpost as (Hret & _).
    exists ret, w'. split; [done|]. split; [done|].
    unfold model_get in Hes'. rewrite Hv in Hes'. split; [done|].
    intros cs' w2 es2 k' Hcs Hrun Hes2 Hk' Hsome.
    set (es0 := (cstr k, v) :: without (cstr k) es) in *.
    assert (Hkeys : ∀ x, x ∈ es.*1 ↔ x ∈ es0.*1).
    { intros x. unfold es0. simpl. rewrite elem_of_cons. unfold without. split.
      - intros (e & -> & He)%list_elem_of_fmap.
        destruct (decide (e.1 = cstr k)) as [|Hne]; [by left|]. right.
        apply list_elem_of_fmap. exists e. split; [done|]. by apply list_elem_of_filter.
      - intros [->|(e & -> & [_ He]%list_elem_of_filter)%list_elem_of_fmap].
        + apply assoc_Some_elem in Hv. apply list_elem_of_fmap. by exists (cstr k, v).
        + apply list_elem_of_fmap. by exists e. }
    destruct (run_sim
                (λ es1, ∃ news (m : nat), es1 = news ++ take m es0 ∧
                                           Forall (λ e, e.1 ∉ es0.*1) news)
                (λ c, ∀ k1, call_key c = Some k1 → k1 ∉ es0.*1) cs' w' es0)
      as (w2' & es2' & E2 & _ & Hes2' & HJ & _); try done.
    { intros cap' c es1. apply block_model_call. }
    { exists [], (length es0). by rewrite take_ge. }
    { eapply Forall_impl; [exact Hcs|]. intros c Hc k1 Hk1. rewrite <- Hkeys. by apply Hc. }
    assert (w2' = w2) as -> by congruence. assert (es2' = es2) as -> by congruence.
    eapply (block_head_last (cstr k) v (without (cstr k) es) es2 k'); [done| |done].
    by apply Hkeys.
  - intros Hnone. rewrite Hnone in Hpost. destruct Hpost as (-> & Hn & Hs & Ha & _).
    eauto.
Qed.

(** C4.  Put on a present key.  When the copy of the new value can be
    allocated, put returns success, the entry of the key holds the new value
    and is at the front of the recency order, every other entry is still
    there, and the size is what it was. *)
Theorem C4_put_updates cap av cs w es k v v0 :
  reach cap av cs = Some w → entries w = Some es →
  assoc (cstr k) es = Some v0 → out_of_memory w = false →
  ∃ w', cache_put (Some w) (Some k) (Some v) = Some (0, Some w') ∧
    entries w' = Some ((cstr k, cstr v) :: without (cstr k) es) ∧
    (∀ k', k' ≠ cstr k →
       assoc k' ((cstr k, cstr v) :: without (cstr k) es) = assoc k' es) ∧
    C.size (self w') = C.size (self w).
Proof.
  intros Hreach Hes Hv0 Hmem. destruct (reach_inv _ _ _ _ Hreach) as (Hinv & _).
  destruct (put_sim w es k v Hinv Hes)
    as (rc & w' & E & Hinv' & _ & _ & Hrc & _ & Hoom & Hok & _).
  assert (rc = 0) as ->.
  { destruct Hrc as [->| ->]; [done|]. rewrite Hv0 in Hoom.
    destruct (Hoom ltac:(eauto)) as [Hoom' _]. specialize (Hoom' eq_refl). congruence. }
  exists w'. split; [done|]. specialize (Hok eq_refl).
  unfold model_put in Hok. rewrite Hv0 in Hok. split; [done|]. split.
  - intros k' Hne. simpl. rewrite decide_False by congruence. by apply assoc_without_ne.
  - destruct (entries_facts w es Hinv Hes) as (-> & _ & Hnd).
    destruct (entries_facts w' _ Hinv' Hok) as (-> & _). simpl.
    by rewrite (length_without_present (cstr k) v0 es).
Qed.


(** C5, as the code has it.  A get runs a first critical section under
    the shared lock, in which it only looks the key up, and releases the
    lock.  On a miss that is all.  On a hit it then takes the exclusive
    lock and, in this second critical section, looks the key up again and
    promotes the entry it finds there.  Nothing protects the entry between
    the two sections: a delete of the key by another caller goes through
    there, and the get then returns not found and promotes nothing. *)
Theorem C5_get_two_sections cap av cs w es k :
  reach cap av cs = Some w → entries w = Some es →
  ∃ found w1,
    get_shared w k = Some (found, w1) ∧
    found = bool_decide (is_Some (assoc (cstr k) es)) ∧
    events w1 = events w ++ [rdlock; unlock] ∧
    nodes w1 = nodes w ∧ self w1 = self w ∧
    cache_get (Some w) (Some k) =
      (if found then '(ret, w2) ← get_exclusive w1 k; Some (ret, Some w2)
       else Some (None, Some w1)) ∧
    (found = true →
       (∃ ret w2, get_exclusive w1 k = Some (ret, w2) ∧
          events w2 = events w1 ++ [wrlock; unlock] ∧
          entries w2 = Some (model_get (cstr k) es)) ∧
       (∃ w1' w2, cache_delete (Some w1) (Some k) = Some (0, Some w1') ∧
          get_exclusive w1' k = Some (None, w2) ∧
          entries w2 = Some (without (cstr k) es))).
Proof.
  intros Hreach Hes. destruct (reach_inv _ _ _ _ Hreach) as (Hinv & _).
  pose proof Hinv as (l & bs & Hrep).
  destruct (get_shared_ok w l bs k Hrep) as (r & Hr & E1).
  destruct (lookup_key_assoc w es k Hinv Hes) as (r' & Hr' & Hiff).
  assert (r' = r) as -> by congruence.
  set (w1 := lock_event unlock (lock_event rdlock w)) in *.
  assert (Hrep1 : cache_rep w1 l bs) by (by eapply cache_rep_ext).
  assert (Hinv1 : cache_inv w1) by (by eexists _, _).
  assert (Hes1 : entries w1 = Some es) by done.
  exists (bool_decide (is_Some r)), w1. split; [done|].
  split; [by apply bool_decide_ext|].
  split; [simpl; by rewrite <- (assoc_L (++))|]. split; [done|]. split; [done|].
  split. { unfold cache_get. rewrite E1. done. }
  intros Hfound. apply bool_decide_eq_true in Hfound. apply Hiff in Hfound as [v Hv].
  split.
  - destruct (get_sim w es k Hinv Hes) as (ret & w2 & E & _ & Hes2 & _ & Hpost).
    unfold cache_get in E. rewrite E1 in E. simpl in E.
    rewrite bool_decide_eq_true_2 in E by (apply Hiff; eauto).
    destruct (get_exclusive w1 k) as [[ret' w2']|] eqn:E2; [|done].
    simpl in E. injection E as -> ->. exists ret, w2. split; [done|]. split; [|done].
    rewrite Hv in Hpost. destruct Hpost as (_ & _ & ->). simpl.
    by rewrite <- !(assoc_L (++)).
  - destruct (delete_sim w1 es k Hinv1 Hes1) as (rc & w1' & Ed & Hinv' & Hes' & _ & _ & _ & Hrc).
    rewrite Hv in Hrc. subst rc. exists w1'.
    pose proof Hinv' as (l' & bs' & Hrep').
    destruct (get_exclusive_ok w1' l' bs' k Hrep')
      as (r2 & ret & w2 & Hr2 & E2 & _ & _ & Hpost).
    destruct (lookup_key_assoc w1' _ k Hinv' Hes') as (r2' & Hr2' & Hiff2).
    assert (r2' = r2) as -> by congruence.
    destruct r2 as [p|].
    { destruct (proj1 Hiff2 ltac:(eauto)) as [? Habs].
      unfold model_delete in Habs. by rewrite assoc_without_eq in Habs. }
    destruct Hpost as (-> & Hn & Hs & _). exists w2. split; [done|]. split; [done|].
    unfold entries, recency, fuel_of in *. by rewrite Hn, Hs.
Qed.

(** C6.  Allocation failure in put.  A put with a key and a value returns
    failure exactly when its allocation requests fail, and then the store
    and the cache structure, hence the size, the entries and their order,
    are what they were before the call. *)
Theorem C6_put_failure_no_mutation cap av cs w k v :
  reach cap av cs = Some w →
  ∃ rc w', cache_put (Some w) (Some k) (Some v) = Some (rc, Some w') ∧
    (rc = -1 ↔ put_out_of_memory w k v = true) ∧
    (put_out_of_memory w k v = true →
       rc = -1 ∧ nodes w' = nodes w ∧ self w' = self w ∧
       entries w' = entries w ∧ recency w' = recency w).
Proof.
  intros Hreach. destruct (reach_inv _ _ _ _ Hreach) as (Hinv & _).
  destruct (reach_entries _ _ _ _ Hreach) as [es Hes].
  destruct (put_sim w es k v Hinv Hes)
    as (rc & w' & E & _ & _ & _ & _ & Hoom & _ & _ & Hfail).
  exists rc, w'. split; [done|]. split; [done|].
  intros Hm. apply Hoom in Hm. destruct (Hfail Hm) as [Hn Hs].
  split; [done|]. split; [done|]. split; [done|].
  unfold entries, recency, fuel_of. by rewrite Hn, Hs.
Qed.

(** C7.  Delete.  On a present key, delete returns success (0), the entry
    is gone from the recency list and from the hash index, the size is one
    less, and every later get of the key returns not found as long as no
    put of that key has come in between.  On an absent key, delete returns
    1, which is neither success (0) nor the error (-1), and changes neither
    the store nor the cache structure. *)
Theorem C7_delete cap av cs w es k :
  reach cap av cs = Some w → entries w = Some es →
  (∀ v, assoc (cstr k) es = Some v →
     ∃ w', cache_delete (Some w) (Some k) = Some (0, Some w') ∧
       entries w' = Some (without (cstr k) es) ∧
       assoc (cstr k) (without (cstr k) es) = None ∧
       lookup_key w' k = Some None ∧
       C.size (self w') = C.size (self w) - 1 ∧
       ∀ cs' w2,
         Forall (λ c, is_put c = true → call_key c ≠ Some (cstr k)) cs' →
         run cs' w' = Some w2 →
         ∃ w3, cache_get (Some w2) (Some k) = Some (None, Some w3)) ∧
  (assoc (cstr k) es = None →
     ∃ w', cache_delete (Some w) (Some k) = Some (1, Some w') ∧
       nodes w' = nodes w ∧ self w' = self w ∧ (1 ≠ 0 ∧ 1 ≠ -1)).
Proof.
  intros Hreach Hes. destruct (reach_inv _ _ _ _ Hreach) as (Hinv & _).
  destruct (delete_sim w es k Hinv Hes) as (rc & w' & E & Hinv' & Hes' & _ & _ & _ & Hrc).
  unfold model_delete in Hes'. split.
  - intros v Hv. rewrite Hv in Hrc. subst rc. exists w'. split; [done|]. split; [done|].
    split; [apply assoc_without_eq|]. split; [|split].
    + destruct (lookup_key_assoc w' _ k Hinv' Hes') as (r & Hr & Hiff).
      rewrite assoc_without_eq in Hiff. destruct r as [p|]; [|done].
      by destruct (proj1 Hiff ltac:(eauto)).
    + destruct (entries_facts w es Hinv Hes) as (-> & _ & Hnd).
      destruct (entries_facts w' _ Hinv' Hes') as (-> & _).
      pose proof (length_without_present (cstr k) v es Hnd Hv). lia.
    + intros cs' w2 Hcs Hrun.
      destruct (run_sim (λ es1, assoc (cstr k) es1 = None)
                  (λ c, is_put c = true → call_key c ≠ Some (cstr k)) cs' w'
                  (without (cstr k) es))
        as (w2' & es2 & E2 & Hinv2 & Hes2 & Hnone & _); try done.
      { intros cap' c es1 Hc HP.
        destruct c as [[k1|] [v1|]|[k1|]|[k1|]]; simpl in *; try done.
        - apply assoc_model_put_None; [|done]. intros Heq. apply Hc; [done|]. by rewrite Heq.
        - by rewrite assoc_model_get.
        - by apply assoc_model_delete_None. }
      { apply assoc_without_eq. }
      assert (w2' = w2) as -> by congruence.
      destruct (get_sim w2 es2 k Hinv2 Hes2) as (ret & w3 & Eg & _ & _ & _ & Hpost).
      rewrite Hnone in Hpost. destruct Hpost as (-> & _). eauto.
  - intros Hnone. rewrite Hnone in Hrc. destruct Hrc as (-> & Hn & Hs). eauto 10.
Qed.


(** ** [cache_create] and the bucket count *)

(** [cache_create] fails exactly when the capacity is zero or one of its
    two allocations fails. *)
Lemma cache_create_fails cap av :
  cache_create cap av = None ↔
  cap = 0 ∨ (calloc_cache av).1 = None ∨
  (calloc_table (calloc_cache av).2 (wrap (cap * 2 + 1))).1 = None.
Proof.
  unfold cache_create. destruct (Z.eqb_spec cap 0) as [|Hne]; [tauto|].
  destruct (calloc_cache av) as [[c|] av1] eqn:E1; simpl; [|tauto].
  unfold calloc_cache in E1. destruct (next_outcome av) as [[] ?]; simplify_eq/=.
  destruct (calloc_table av1 (wrap (cap * 2 + 1))) as [[t|] av2]; simpl.
  - split; [done|]. intros [?|[?|?]]; done.
  - tauto.
Qed.

(** A created cache is empty. *)
Lemma cache_create_empty cap av w :
  cache_create cap av = Some w →
  C.size (self w) = 0 ∧ C.head (self w) = None ∧ C.tail (self w) = None ∧
  nodes w = ∅ ∧ entries w = Some [].
Proof. by intros [_ ->]%cache_create_Some. Qed.

(** No call changes the bucket count, and it is [2 * capacity + 1] as long
    as that fits a [size_t]. *)
Lemma bucket_count_fixed cap av cs w :
  reach cap av cs = Some w →
  C.hsize (self w) = wrap (cap * 2 + 1) ∧
  length (C.htable (self w)) = Z.to_nat (C.hsize (self w)) ∧
  (2 * cap + 1 < word_max → C.hsize (self w) = 2 * cap + 1).
Proof.
  intros Hreach. destruct (reach_inv _ _ _ _ Hreach) as ((l & bs & Hrep) & _ & Hh & Hpos).
  split; [done|]. split.
  - destruct Hrep as (_ & (-> & <- & _) & _). by rewrite length_fmap.
  - intros Hfit. rewrite Hh. unfold wrap. rewrite Z.mod_small; lia.
Qed.

(** C8, where the code departs from the claim.  [cache_create (2^63)]
    succeeds when memory is available, and the bucket count it stores is 1:
    [capacity * 2 + 1] is computed in [size_t] and wraps around. *)
Theorem C8_bucket_count_overflow :
  ∃ w, cache_create (2 ^ 63) [] = Some w ∧
       C.capacity (self w) = 2 ^ 63 ∧
       C.size (self w) = 0 ∧
       C.hsize (self w) = 1 ∧
       C.htable (self w) = [None] ∧
       C.hsize (self w) ≠ 2 * C.capacity (self w) + 1.
Proof. eexists. split; [reflexivity|]. vm_compute. repeat split; congruence. Qed.

(** C9.  Bijection and counts.  In the state any sequence of calls leaves,
    the recency list read from the head and the bucket chains read from the
    bucket array hold the same nodes, each once; a lookup of a key through
    the hash index finds a node exactly when that node is in the recency
    list with that key; no two nodes of the list have the same key; and the
    size is the length of the list and the number of nodes in the chains. *)
Theorem C9_bijection cap av cs w :
  reach cap av cs = Some w →
  ∃ l bs,
    recency w = Some l ∧ index_chains w = Some bs ∧
    (∀ p, p ∈ mjoin bs ↔ p ∈ l) ∧
    (∀ k p, lookup_key w k = Some (Some p) ↔
            p ∈ l ∧ fst <$> entry_of (nodes w) p = Some (cstr k)) ∧
    NoDup l ∧ NoDup (mjoin bs) ∧
    (∀ p q e1 e2, p ∈ l → q ∈ l →
       entry_of (nodes w) p = Some e1 → entry_of (nodes w) q = Some e2 →
       e1.1 = e2.1 → p = q) ∧
    C.size (self w) = Z.of_nat (length l) ∧
    C.size (self w) = Z.of_nat (length (mjoin bs)).
Proof.
  intros Hreach. destruct (reach_inv _ _ _ _ Hreach) as ((l & bs & Hrep) & _).
  pose proof Hrep as (Hdll & Htab & Hperm & Hdom & Hkeys & Hsz & _).
  pose proof Hdll as (Hnd & _).
  exists l, bs. split; [by eapply recency_ok|]. split; [by eapply index_chains_ok|].
  split; [intros p; by rewrite Hperm|]. split; [|split; [done|]; split; [by rewrite Hperm|]].
  - intros k p. destruct (lookup_key_ok w l bs k Hrep) as (r & Hr & Hspec).
    rewrite Hr. split.
    + intros [= ->]. destruct Hspec as (Hp & n & Hpn & Hk). split; [done|].
      destruct Hkeys as [Hkv _]. destruct (Hkv p n Hpn) as (k' & v' & Hk' & Hv' & _).
      unfold entry_of. rewrite Hpn. simpl. rewrite Hk', Hv'. simpl. congruence.
    + intros [Hp He]. destruct (Hdom p) as [_ Hl]. destruct (Hl Hp) as [n Hpn].
      assert (Hk : N.key n = Some (cstr k)).
      { unfold entry_of in He. rewrite Hpn in He. simpl in He.
        destruct (N.key n) as [k'|]; [|done]. simpl in He.
        destruct (N.value n); simpl in He; congruence. }
      destruct r as [p'|]; [|by destruct (Hspec p n Hpn)].
      destruct Hspec as (Hp' & n' & Hpn' & Hk'). do 2 f_equal.
      destruct Hkeys as [_ Hu]. eapply Hu; [done|done|congruence].
  - split; [|split; [done | by rewrite Hperm]].
    intros p q e1 e2 Hp Hq He1 He2 E.
    apply (ent_key_inj (nodes w)); [done|by apply Hdom|by apply Hdom|].
    unfold ent. by rewrite He1, He2.
Qed.

(** C10.  The results of get.  A get on a null handle, a get on a null
    key and a get of a key that is absent all return the same null result:
    the value returned does not tell an invalid argument from a miss. *)
Theorem C10_get_null_results cap av cs w es k (key : option string) :
  reach cap av cs = Some w → entries w = Some es → assoc (cstr k) es = None →
  cache_get None key = Some (None, None) ∧
  cache_get (Some w) None = Some (None, Some w) ∧
  ∃ w', cache_get (Some w) (Some k) = Some (None, Some w').
Proof.
  intros Hreach Hes Hnone. destruct (reach_inv _ _ _ _ Hreach) as (Hinv & _).
  split; [done|]. split; [done|].
  destruct (get_sim w es k Hinv Hes) as (ret & w' & E & _ & _ & _ & Hpost).
  rewrite Hnone in Hpost. destruct Hpost as (-> & _). eauto.
Qed.


(** * The claims on the scenarios of the specification *)

Lemma C1_capacity_bound_witness :
  reach 2 [] put_a_b = Some world_a_b ∧
  ∃ rc w' es es',
    cache_put (Some world_a_b) (Some key_c) (Some val_3) = Some (rc, Some w') ∧
    0 < 2 ∧ C.capacity (self w') = 2 ∧
    C.size (self w') ≤ C.capacity (self w') ∧
    entries world_a_b = Some es ∧ entries w' = Some es' ∧
    C.size (self w') = Z.of_nat (length es') ∧
    (∀ k v, Some key_c = Some k → Some val_3 = Some v → rc = 0 →
       assoc (cstr k) es = None → Z.of_nat (length es) = 2 →
       es' = (cstr k, cstr v) :: take (length es - 1) es).
Proof.
  split; [vm_compute; reflexivity|].
  apply (C1_capacity_bound 2 [] put_a_b world_a_b (Some key_c) (Some val_3)).
  vm_compute; reflexivity.
Defined.

Lemma C2_lru_eviction_order_witness :
  reach 2 [] [] = Some world_empty ∧
  Z.of_nat (length [(key_b, val_2); (key_c, val_3)]) = 2 ∧
  NoDup (cstr <$> (key_a :: [(key_b, val_2); (key_c, val_3)].*1)) ∧
  insert_all ((key_a, val_1) :: [(key_b, val_2); (key_c, val_3)]) world_empty
    = Some world_a_b_c ∧
  run (Get <$> [Some key_b]) world_a_b_c = Some world_a_b_c_got_b ∧
  entries world_a_b_c =
    Some (reverse ((λ kv, (cstr kv.1, cstr kv.2)) <$> [(key_b, val_2); (key_c, val_3)])) ∧
  (∃ w3, cache_get (Some world_a_b_c_got_b) (Some key_a) = Some (None, Some w3)) ∧
  (∀ k v, (k, v) ∈ [(key_b, val_2); (key_c, val_3)] →
     out_of_memory world_a_b_c_got_b = false →
     ∃ w3, cache_get (Some world_a_b_c_got_b) (Some k) = Some (Some (cstr v), Some w3)).
Proof.
  split; [vm_compute; reflexivity|]. split; [reflexivity|].
  split; [compute_done|]. split; [vm_compute; reflexivity|].
  split; [vm_compute; reflexivity|].
  apply (C2_lru_eviction_order 2 [] world_empty key_a val_1
           [(key_b, val_2); (key_c, val_3)] world_a_b_c [Some key_b] world_a_b_c_got_b).
  - vm_compute; reflexivity.
  - reflexivity.
  - compute_done.
  - vm_compute; reflexivity.
  - vm_compute; reflexivity.
Defined.

Lemma C3_get_promotes_witness :
  reach 2 [] put_a_b = Some world_a_b ∧
  entries world_a_b = Some [(key_b, val_2); (key_a, val_1)] ∧
  assoc (cstr key_a) [(key_b, val_2); (key_a, val_1)] = Some val_1 ∧
  ∃ ret w', cache_get (Some world_a_b) (Some key_a) = Some (ret, Some w') ∧
    ret = (if out_of_memory world_a_b then None else Some val_1) ∧
    entries w' =
      Some ((cstr key_a, val_1) :: without (cstr key_a) [(key_b, val_2); (key_a, val_1)]) ∧
    ∀ cs' w2 es2 k',
      Forall (λ c, ∀ k1, call_key c = Some k1 →
                         k1 ∉ [(key_b, val_2); (key_a, val_1)].*1) cs' →
      run cs' w' = Some w2 → entries w2 = Some es2 →
      k' ∈ [(key_b, val_2); (key_a, val_1)].*1 →
      is_Some (assoc k' es2) → is_Some (assoc (cstr key_a) es2).
Proof.
  split; [vm_compute; reflexivity|]. split; [vm_compute; reflexivity|].
  split; [reflexivity|].
  apply (C3_get_promotes 2 [] put_a_b world_a_b [(key_b, val_2); (key_a, val_1)] key_a).
  - vm_compute; reflexivity.
  - vm_compute; reflexivity.
  - reflexivity.
Defined.

(** C3, as claimed, fails on the code.  After [put(a, 1)] and [put(b, 2)],
    with the allocator refusing the next request, a get of [a], which is
    present, does not return the stored value: it returns null, [strdup]
    failing, and has moved [a] in front of [b] all the same. *)
Lemma C3_counterexample :
  reach 2 [true; true; true; true; true; true; true; true; false] put_a_b
    = Some world_a_b_oom ∧
  entries world_a_b_oom = Some [(key_b, val_2); (key_a, val_1)] ∧
  assoc (cstr key_a) [(key_b, val_2); (key_a, val_1)] = Some val_1 ∧
  ¬ get_returns_the_stored_value world_a_b_oom key_a ∧
  ∃ w', cache_get (Some world_a_b_oom) (Some key_a) = Some (None, Some w') ∧
        entries w' = Some [(key_a, val_1); (key_b, val_2)].
Proof.
  split; [vm_compute; reflexivity|]. split; [vm_compute; reflexivity|].
  split; [reflexivity|]. split.
  { intros H.
    destruct (H [(key_b, val_2); (key_a, val_1)] val_1) as (w' & E).
    - vm_compute; reflexivity.
    - reflexivity.
    - vm_compute in E. discriminate E. }
  eexists. split; [vm_compute; reflexivity|]. vm_compute. reflexivity.
Qed.

Lemma C4_put_updates_witness :
  reach 2 [] put_a_b = Some world_a_b ∧
  entries world_a_b = Some [(key_b, val_2); (key_a, val_1)] ∧
  assoc (cstr key_a) [(key_b, val_2); (key_a, val_1)] = Some val_1 ∧
  out_of_memory world_a_b = false ∧
  ∃ w', cache_put (Some world_a_b) (Some key_a) (Some val_3) = Some (0, Some w') ∧
    entries w' =
      Some ((cstr key_a, cstr val_3) ::
            without (cstr key_a) [(key_b, val_2); (key_a, val_1)]) ∧
    (∀ k', k' ≠ cstr key_a →
       assoc k' ((cstr key_a, cstr val_3) ::
                 without (cstr key_a) [(key_b, val_2); (key_a, val_1)]) =
       assoc k' [(key_b, val_2); (key_a, val_1)]) ∧
    C.size (self w') = C.size (self world_a_b).
Proof.
  split; [vm_compute; reflexivity|]. split; [vm_compute; reflexivity|].
  split; [reflexivity|]. split; [reflexivity|].
  apply (C4_put_updates 2 [] put_a_b world_a_b [(key_b, val_2); (key_a, val_1)]
           key_a val_3 val_1).
  - vm_compute; reflexivity.
  - vm_compute; reflexivity.
  - reflexivity.
  - reflexivity.
Defined.

(** C5, as claimed, fails on the code.  After [put(a, 1)], a get of [a] is
    not one exclusive critical section: it takes the shared lock, releases
    it, and then takes the exclusive lock.  And between the two, a delete
    of [a] goes through, after which the get that had found [a] returns
    not found. *)
Lemma C5_counterexample :
  reach 2 [] [Put (Some key_a) (Some val_1)] = Some world_a ∧
  ¬ get_is_one_exclusive_section world_a key_a ∧
  (∃ ret w', cache_get (Some world_a) (Some key_a) = Some (ret, Some w') ∧
     events w' = events world_a ++ [rdlock; unlock; wrlock; unlock]) ∧
  get_shared world_a key_a = Some (true, world_a_found) ∧
  cache_delete (Some world_a_found) (Some key_a) = Some (0, Some world_a_deleted) ∧
  (∃ w', get_exclusive world_a_deleted key_a = Some (None, w')).
Proof.
  split; [vm_compute; reflexivity|]. split.
  { intros (ret & w' & E & Hev). vm_compute in E. injection E as <- <-.
    vm_compute in Hev. discriminate Hev. }
  split. { eexists _, _. split; [vm_compute; reflexivity|]. vm_compute. reflexivity. }
  split; [vm_compute; reflexivity|]. split; [vm_compute; reflexivity|].
  eexists. vm_compute. reflexivity.
Qed.

Lemma C5_get_two_sections_witness :
  reach 2 [] put_a_b = Some world_a_b ∧
  entries world_a_b = Some [(key_b, val_2); (key_a, val_1)] ∧
  ∃ found w1,
    get_shared world_a_b key_a = Some (found, w1) ∧
    found = bool_decide (is_Some (assoc (cstr key_a) [(key_b, val_2); (key_a, val_1)])) ∧
    events w1 = events world_a_b ++ [rdlock; unlock] ∧
    nodes w1 = nodes world_a_b ∧ self w1 = self world_a_b ∧
    cache_get (Some world_a_b) (Some key_a) =
      (if found then '(ret, w2) ← get_exclusive w1 key_a; Some (ret, Some w2)
       else Some (None, Some w1)) ∧
    (found = true →
       (∃ ret w2, get_exclusive w1 key_a = Some (ret, w2) ∧
          events w2 = events w1 ++ [wrlock; unlock] ∧
          entries w2 = Some (model_get (cstr key_a) [(key_b, val_2); (key_a, val_1)])) ∧
       (∃ w1' w2, cache_delete (Some w1) (Some key_a) = Some (0, Some w1') ∧
          get_exclusive w1' key_a = Some (None, w2) ∧
          entries w2 = Some (without (cstr key_a) [(key_b, val_2); (key_a, val_1)]))).
Proof.
  split; [vm_compute; reflexivity|]. split; [vm_compute; reflexivity|].
  apply (C5_get_two_sections 2 [] put_a_b world_a_b [(key_b, val_2); (key_a, val_1)] key_a).
  - vm_compute; reflexivity.
  - vm_compute; reflexivity.
Defined.

Lemma C6_put_failure_no_mutation_witness :
  reach 2 [true; true; true; true; true; false] [Put (Some key_a) (Some val_1)]
    = Some world_a_oom ∧
  ∃ rc w', cache_put (Some world_a_oom) (Some key_a) (Some val_2) = Some (rc, Some w') ∧
    (rc = -1 ↔ put_out_of_memory world_a_oom key_a val_2 = true) ∧
    (put_out_of_memory world_a_oom key_a val_2 = true →
       rc = -1 ∧ nodes w' = nodes world_a_oom ∧ self w' = self world_a_oom ∧
       entries w' = entries world_a_oom ∧ recency w' = recency world_a_oom).
Proof.
  split; [vm_compute; reflexivity|].
  apply (C6_put_failure_no_mutation 2 [true; true; true; true; true; false]
           [Put (Some key_a) (Some val_1)] world_a_oom key_a val_2).
  vm_compute; reflexivity.
Defined.

Lemma C7_delete_witness :
  reach 2 [] put_a_b = Some world_a_b ∧
  entries world_a_b = Some [(key_b, val_2); (key_a, val_1)] ∧
  assoc (cstr key_a) [(key_b, val_2); (key_a, val_1)] = Some val_1 ∧
  ∃ w', cache_delete (Some world_a_b) (Some key_a) = Some (0, Some w') ∧
    entries w' = Some (without (cstr key_a) [(key_b, val_2); (key_a, val_1)]) ∧
    assoc (cstr key_a) (without (cstr key_a) [(key_b, val_2); (key_a, val_1)]) = None ∧
    lookup_key w' key_a = Some None ∧
    C.size (self w') = C.size (self world_a_b) - 1 ∧
    ∀ cs' w2,
      Forall (λ c, is_put c = true → call_key c ≠ Some (cstr key_a)) cs' →
      run cs' w' = Some w2 →
      ∃ w3, cache_get (Some w2) (Some key_a) = Some (None, Some w3).
Proof.
  split; [vm_compute; reflexivity|]. split; [vm_compute; reflexivity|].
  split; [reflexivity|].
  refine (proj1 (C7_delete 2 [] put_a_b world_a_b [(key_b, val_2); (key_a, val_1)]
                   key_a _ _) val_1 _).
  - vm_compute; reflexivity.
  - vm_compute; reflexivity.
  - reflexivity.
Defined.

Lemma C9_bijection_witness :
  reach 2 [] put_a_b = Some world_a_b ∧
  ∃ l bs,
    recency world_a_b = Some l ∧ index_chains world_a_b = Some bs ∧
    (∀ p, p ∈ mjoin bs ↔ p ∈ l) ∧
    (∀ k p, lookup_key world_a_b k = Some (Some p) ↔
            p ∈ l ∧ fst <$> entry_of (nodes world_a_b) p = Some (cstr k)) ∧
    NoDup l ∧ NoDup (mjoin bs) ∧
    (∀ p q e1 e2, p ∈ l → q ∈ l →
       entry_of (nodes world_a_b) p = Some e1 → entry_of (nodes world_a_b) q = Some e2 →
       e1.1 = e2.1 → p = q) ∧
    C.size (self world_a_b) = Z.of_nat (length l) ∧
    C.size (self world_a_b) = Z.of_nat (length (mjoin bs)).
Proof.
  split; [vm_compute; reflexivity|].
  apply (C9_bijection 2 [] put_a_b world_a_b).
  vm_compute; reflexivity.
Defined.

Lemma C10_get_null_results_witness :
  reach 2 [] put_a_b = Some world_a_b ∧
  entries world_a_b = Some [(key_b, val_2); (key_a, val_1)] ∧
  assoc (cstr key_c) [(key_b, val_2); (key_a, val_1)] = None ∧
  cache_get None (Some key_a) = Some (None, None) ∧
  cache_get (Some world_a_b) None = Some (None, Some world_a_b) ∧
  ∃ w', cache_get (Some world_a_b) (Some key_c) = Some (None, Some w').
Proof.
  split; [vm_compute; reflexivity|]. split; [vm_compute; reflexivity|].
  split; [reflexivity|].
  apply (C10_get_null_results 2 [] put_a_b world_a_b [(key_b, val_2); (key_a, val_1)]
           key_c (Some key_a)).
  - vm_compute; reflexivity.
  - vm_compute; reflexivity.
  - reflexivity.
Defined.


(** * Further properties of the code *)

(** ** The hash *)

Lemma hash_loop_range s h : 0 ≤ h < word_max → 0 ≤ hash_loop s h < word_max.
Proof.
  revert h. induction s as [|c s IH]; intros h Hh; simpl; [done|].
  destruct (uchar c =? 0); [done|]. apply IH. unfold wrap. apply Z.mod_pos_bound. done.
Qed.

Lemma hash_loop_snoc s c h :
  cstr s = s → uchar c ≠ 0 →
  hash_loop (s +:+ String c EmptyString) h =
  wrap (wrap (wrap (Z.shiftl (hash_loop s h) 5) + hash_loop s h) + uchar c).
Proof.
  intros Hs Hc. revert h Hs. induction s as [|d s IH]; intros h Hs; simpl in *.
  - apply Z.eqb_neq in Hc. by rewrite Hc.
  - destruct (Z.eqb_spec (uchar d) 0) as [|Hd]; [done|].
    apply IH. congruence.
Qed.

(** X1.  [hash_str] is djb2 in 64-bit arithmetic: the hash of the empty
    string is 5381, every hash is a 64-bit value, and appending a byte [c]
    to a string [s] turns the hash into [(hash s * 33 + c) mod 2^64]. *)
Theorem hash_str_djb2 (s : string) (c : ascii) :
  cstr s = s → uchar c ≠ 0 →
  hash_str EmptyString = 5381 ∧
  0 ≤ hash_str s < word_max ∧
  hash_str (s +:+ String c EmptyString) = (hash_str s * 33 + uchar c) mod 2 ^ 64.
Proof.
  intros Hs Hc. split; [done|].
  assert (Hr : 0 ≤ hash_str s < word_max) by (by apply hash_loop_range).
  split; [done|]. unfold hash_str in *.
  rewrite hash_loop_snoc by done. apply hash_step. lia.
Qed.

(** X2.  Keys that [strcmp] finds equal have the same hash, and so the same
    bucket in every cache: what follows the terminator plays no part. *)
Theorem hash_str_strcmp (a b : string) :
  strcmp a b = 0 →
  hash_str a = hash_str b ∧ ∀ w, bucket_index w a = bucket_index w b.
Proof.
  intros H%strcmp_eq.
  assert (E : hash_str a = hash_str b).
  { by rewrite <- (hash_str_cstr a), <- (hash_str_cstr b), H. }
  split; [done|]. intros w. unfold bucket_index. by rewrite E.
Qed.

(** ** Nodes *)

(** X3.  [node_create] returns in every state, leaves the cache structure
    and the lock alone, and either fails, the store being as before (the
    node and the string that were allocated are freed again), or yields a
    node at an address that was not in use, holding copies of the key and
    of the value and three null links.  It succeeds exactly when the node
    fits the address space and the three allocations go through. *)
Theorem node_create_outcome w key value :
  ∃ res w', node_create w key value = Some (res, w') ∧
    self w' = self w ∧ events w' = events w ∧
    match res with
    | None => nodes w' = nodes w
    | Some p =>
        nodes w !! p = None ∧
        nodes w' = <[p := N.mk (Some (cstr key)) (Some (cstr value)) None None None]> (nodes w) ∧
        avail w' = (next_outcome (next_outcome (next_outcome (avail w)).2).2).2
    end ∧
    (is_Some res ↔
       address_room (nodes w) = true ∧
       (next_outcome (avail w)).1 = true ∧
       (next_outcome (next_outcome (avail w)).2).1 = true ∧
       (next_outcome (next_outcome (next_outcome (avail w)).2).2).1 = true).
Proof.
  destruct w as [h c av ev]. unfold node_create, calloc_node. simpl.
  destruct (next_outcome av) as [o1 av1] eqn:E1. simpl.
  destruct o1; simpl.
  2:{ eexists _, _. split; [done|]. repeat split; try done; by intros (? & ? & ? & ?). }
  destruct (address_room h) eqn:Hroom; simpl.
  2:{ eexists _, _. split; [done|]. repeat split; try done; by intros (? & ? & ? & ?). }
  set (p := fresh (dom h)).
  assert (Hp : h !! p = None).
  { apply not_elem_of_dom. apply is_fresh. }
  unfold strdup, store. simpl.
  destruct (next_outcome av1) as [o2 av2] eqn:E2. simpl.
  rewrite lookup_insert_eq. simpl.
  destruct (next_outcome av2) as [o3 av3] eqn:E3. simpl.
  rewrite lookup_insert_eq. simpl. rewrite lookup_insert_eq. simpl.
  rewrite !insert_insert_eq.
  destruct o2, o3; simpl;
    [|unfold free_node; simpl; rewrite lookup_insert_eq; simpl;
      rewrite delete_insert_id by done..];
    (eexists _, _; split; [done|]);
    repeat split; eauto; try done; by intros (? & ? & ? & ?).
Qed.

(** X4.  Freeing the node [node_create] has just returned gives back the
    store it started from; freeing a null pointer does nothing. *)
Theorem node_create_free w key value p w1 :
  node_create w key value = Some (Some p, w1) →
  (∃ w2, node_free w1 (Some p) = Some w2 ∧
         nodes w2 = nodes w ∧ self w2 = self w ∧ events w2 = events w) ∧
  node_free w1 None = Some w1.
Proof.
  intros E. split; [|done].
  destruct (node_create_ok w key value) as (res & w' & E' & Hs & He & Hres).
  rewrite E in E'. simplify_eq. destruct Hres as (Hp & _ & Hn).
  unfold node_free, free_node. rewrite Hn, lookup_insert_eq. simpl.
  eexists. split; [done|]. simpl. rewrite delete_insert_id by done. done.
Qed.

(** ** The recency list *)

Lemma store_Some w p f w' :
  store w p f = Some w' →
  ∃ n, nodes w !! p = Some n ∧ w' = set_nodes w (<[p := f n]> (nodes w)).
Proof.
  unfold store. intros H. destruct (nodes w !! p) as [n|]; [|done].
  simplify_eq/=. eauto.
Qed.

(** X5.  [dll_remove] of a node of the recency list leaves the list without
    that node, in the same order, and the node with null [prev] and [next];
    keys, values, bucket chains, the bucket array and the size are as
    before. *)
Theorem dll_remove_detaches w l p :
  dll_ok w l → p ∈ l →
  ∃ w' n', dll_remove w p = Some w' ∧ dll_ok w' (del p l) ∧
    nodes w' !! p = Some n' ∧ N.prev n' = None ∧ N.next n' = None ∧
    links_only w w'.
Proof.
  intros Hdll Hp.
  destruct (dll_remove_ok w l p Hdll Hp) as (w' & E & Hdll' & Hlinks).
  pose proof E as E0. unfold dll_remove in E.
  apply bind_Some in E as (nd & _ & E).
  apply bind_Some in E as (w1 & _ & E).
  apply bind_Some in E as (nd1 & _ & E).
  apply bind_Some in E as (w2 & _ & E).
  apply store_Some in E as (n2 & Hn2 & ->).
  eexists _, _. split; [done|]. split; [done|].
  split; [simpl; apply lookup_insert_eq|]. done.
Qed.

(** X6.  [dll_push_head] of a live node that is not in the recency list
    puts it in front of the list: it becomes the head, and the tail too
    when the list was empty; keys, values and bucket chains are as
    before. *)
Theorem dll_push_head_front w l p :
  dll_ok w l → p ∉ l → is_Some (nodes w !! p) →
  ∃ w', dll_push_head w p = Some w' ∧ dll_ok w' (p :: l) ∧
    C.head (self w') = Some p ∧
    C.tail (self w') = (if l is [] then Some p else C.tail (self w)) ∧
    links_only w w'.
Proof.
  intros Hdll Hp Hlive.
  destruct (dll_push_head_ok w l p Hdll Hp Hlive) as (w' & E & Hdll' & Hlinks).
  exists w'. split; [done|]. split; [done|].
  destruct Hdll as (_ & _ & Htl & _). destruct Hdll' as (_ & Hhd' & Htl' & _).
  split; [done|]. split; [|done].
  rewrite Htl', Htl. by destruct l.
Qed.

(** X7.  Pushing a detached node on the recency list and removing it again
    gives back the very state it started from. *)
Theorem dll_push_remove w l p n :
  dll_ok w l → p ∉ l → nodes w !! p = Some n → N.prev n = None → N.next n = None →
  ∃ w1, dll_push_head w p = Some w1 ∧ dll_remove w1 p = Some w.
Proof.
  destruct w as [h [cap sz hs tbl hd tl] av ev]. destruct n as [kk vv pv nx hn].
  intros (Hnd & Hhd & Htl & Hn) Hp Hpn Hpv Hnx. simpl in *. subst pv nx.
  unfold dll_push_head, store. simpl. rewrite Hpn. simpl.
  rewrite lookup_insert_eq. simpl. rewrite insert_insert_eq.
  destruct l as [|q l']; simpl in Hhd, Htl; subst hd.
  - simpl in Htl. subst tl. simpl. eexists. split; [done|].
    unfold dll_remove, store. simpl. rewrite lookup_insert_eq. simpl.
    rewrite lookup_insert_eq. simpl. rewrite lookup_insert_eq. simpl.
    rewrite insert_insert_eq. unfold set_nodes. simpl.
    by rewrite insert_id.
  - assert (Hqp : q ≠ p) by (intros ->; apply Hp; left).
    destruct (Hn q) as (nq & Hq & _ & Hqv); [left|].
    rewrite prv_cons_eq in Hqv by (by apply NoDup_cons in Hnd as [? _]).
    simpl. rewrite lookup_insert_ne by done. rewrite Hq. simpl.
    assert (∃ t, tl = Some t) as [t ->].
    { rewrite Htl. destruct (last (q :: l')) eqn:E; [eauto|]. by apply last_None in E. }
    eexists. split; [done|].
    unfold dll_remove, store. simpl.
    repeat (first [rewrite lookup_insert_eq | rewrite lookup_insert_ne by done]; simpl).
    unfold set_nodes. simpl. do 2 f_equal.
    apply map_eq. intros i. rewrite !lookup_insert.
    repeat case_decide; subst; try congruence.
    + by rewrite Hpn.
    + rewrite Hq. destruct nq; unfold set_prev; simpl in *; by subst.
Qed.

(** ** The hash index *)

(** X8.  [htable_insert] puts a live node that is in no chain at the head
    of the chain of its key's bucket, so that a lookup of the key finds
    that node; the other chains, the recency list and the size are as
    before. *)
Theorem htable_insert_prepends w bs p n k :
  table_ok w bs → 0 < C.hsize (self w) →
  nodes w !! p = Some n → N.key n = Some k → p ∉ mjoin bs →
  ∃ b w', bs !! bucket_of (C.hsize (self w)) k = Some b ∧
    htable_insert w p = Some w' ∧
    table_ok w' (<[bucket_of (C.hsize (self w)) k := p :: b]> bs) ∧
    lookup_key w' k = Some (Some p) ∧
    chains_only w w'.
Proof.
  intros Hok Hhs Hpn Hk Hp.
  destruct (htable_insert_ok w bs p n k Hok Hhs Hpn Hk Hp) as (b & w' & Hb & E & Hok' & Hch).
  exists b, w'. split; [done|]. split; [done|]. split; [done|]. split; [|done].
  pose proof Hch as (Hparts & _ & _ & Hhs' & _).
  assert (Hhs1 : 0 < C.hsize (self w')) by (by rewrite Hhs').
  destruct (table_ok_bucket w' _ k Hok' Hhs1) as (b' & Hb' & Hix & Hld).
  rewrite Hhs' in Hb'. rewrite list_lookup_insert_eq in Hb' by (by eapply lookup_lt_Some).
  simplify_eq. unfold lookup_key. rewrite Hix. simpl. rewrite Hld. simpl.
  unfold fuel_of. simpl.
  specialize (Hparts p). rewrite Hpn in Hparts.
  destruct (nodes w' !! p) as [n'|]; [|done]. simpl in *.
  assert (N.key n' = Some k) as -> by (unfold list_part in Hparts; congruence).
  simpl. by rewrite (proj2 (strcmp_eq k k) eq_refl).
Qed.

(** X9.  [htable_remove] of a node takes it out of the chain it is in,
    leaving the other nodes of the chain in their order and the node with
    a null [hnext]; the recency list and the size are as before. *)
Theorem htable_remove_unlinks w bs i b n :
  table_ok w bs → 0 < C.hsize (self w) → bs !! i = Some b → n ∈ b →
  ∃ w' n', htable_remove w n = Some w' ∧ table_ok w' (<[i := del n b]> bs) ∧
    nodes w' !! n = Some n' ∧ N.hnext n' = None ∧ chains_only w w'.
Proof.
  intros Hok Hhs Hb Hn.
  destruct (htable_remove_ok w bs i b n Hok Hhs Hb Hn) as (w' & E & Hok' & Hch).
  pose proof Hok as (Ht & Hlen & Hc).
  pose proof (Hc i b Hb) as Hchain. pose proof Hchain as (Hnd & Hbn).
  destruct (Hbn n Hn) as (nn & k & Hnn & Hnx & Hk & Hbk).
  destruct (table_ok_bucket w bs k Hok Hhs) as (b' & Hb' & Hix & Hld).
  rewrite Hbk in Hb'. assert (b' = b) as -> by congruence. clear Hb'.
  pose proof (chain_ok_fuel _ _ _ Hchain) as Hfuel.
  assert (Hi : (i < length (C.htable (self w)))%nat).
  { rewrite Ht, length_fmap. by eapply lookup_lt_Some. }
  destruct w as [h [cap sz hs tbl hd tl] av ev]. simpl in *.
  pose proof E as E0.
  unfold htable_remove in E. cbn in E. rewrite Hnn in E. cbn in E. rewrite Hk in E.
  cbn in E. rewrite Hix in E. cbn in E. rewrite Hld in E. cbn in E.
  rewrite (htable_remove_loop_suffix h cap sz hs tbl hd tl av ev i b [] b) in E; try done.
  injection E as E. rewrite <- E in *. clear E.
  eexists _, (set_hnext nn None). split; [exact E0|]. split; [done|].
  split; [|done]. simpl. rewrite lookup_alter, decide_True by done.
  rewrite lookup_alter_at, decide_False, Hnn; [done|].
  intros H. by apply prv_ne in H.
Qed.

Lemma htable_remove_loop_absent w i b b1 b2 n hv prev fuel :
  chain_ok w i b → b = b1 ++ b2 → n ∉ b2 → (length b2 < fuel)%nat →
  htable_remove_loop fuel w hv n (head b2) prev = Some w.
Proof.
  intros (Hnd & Hn). revert b1 prev fuel.
  induction b2 as [|x b2 IH]; intros b1 prev fuel Hb Hnb Hf.
  { destruct fuel; [simpl in Hf; lia | done]. }
  destruct fuel; [simpl in Hf; lia|]. simpl in Hf.
  destruct (Hn x) as (nx & k & Hx & Hnx & Hk & _).
  { rewrite Hb. apply elem_of_app. right. left. }
  assert (Hx1 : x ∉ b1).
  { rewrite Hb in Hnd. apply NoDup_app in Hnd as (_ & Hd & _).
    intros ?. eapply Hd; [done | left]. }
  assert (Hnx' : N.hnext nx = head b2) by (by rewrite Hnx, Hb, nxt_middle).
  simpl. rewrite decide_False by (intros ->; apply Hnb; left).
  rewrite Hx. simpl. rewrite Hnx'. apply (IH (b1 ++ [x])).
  - by rewrite <- (assoc_L (++)).
  - intros ?. apply Hnb. by right.
  - lia.
Qed.

(** X10.  [htable_remove] of a live node that is in no chain walks the
    chain of its key's bucket to the end and changes nothing. *)
Theorem htable_remove_absent w bs n nd k :
  table_ok w bs → 0 < C.hsize (self w) →
  nodes w !! n = Some nd → N.key nd = Some k → n ∉ mjoin bs →
  htable_remove w n = Some w.
Proof.
  intros Hok Hhs Hn Hk Hnb. pose proof Hok as (Ht & Hlen & Hc).
  destruct (table_ok_bucket w bs k Hok Hhs) as (b & Hb & Hix & Hld).
  pose proof (Hc _ b Hb) as Hchain.
  unfold htable_remove. rewrite Hn. cbn. rewrite Hk. cbn.
  rewrite Hix. cbn. rewrite Hld. cbn.
  apply (htable_remove_loop_absent w (bucket_of (C.hsize (self w)) k) b [] b); try done.
  - intros ?. apply Hnb. by eapply table_ok_elem.
  - by eapply chain_ok_fuel.
Qed.

(** X11.  Inserting a node with a null [hnext] into the hash index and
    removing it again gives back the very state it started from. *)
Theorem htable_insert_remove w p n k :
  0 < C.hsize (self w) →
  length (C.htable (self w)) = Z.to_nat (C.hsize (self w)) →
  nodes w !! p = Some n → N.key n = Some k → N.hnext n = None →
  ∃ w1, htable_insert w p = Some w1 ∧ htable_remove w1 p = Some w.
Proof.
  destruct w as [h [cap sz hs tbl hd tl] av ev]. destruct n as [kk vv pv nx hn].
  simpl. intros Hhs Hlen Hpn Hk Hhn. subst kk hn.
  assert (Hi : (Z.to_nat (hash_str k mod hs) < length tbl)%nat).
  { rewrite Hlen. apply (bucket_of_lt hs k Hhs). }
  destruct (lookup_lt_is_Some_2 tbl _ Hi) as [b0 Hb0].
  assert (Hz : (hs =? 0) = false) by (apply Z.eqb_neq; lia).
  unfold htable_insert, bucket_index, load_bucket, store, store_bucket. simpl.
  rewrite Hpn. simpl. rewrite Hz. simpl. rewrite Hb0. simpl.
  rewrite decide_True by done.
  eexists. split; [done|].
  unfold htable_remove, bucket_index, load_bucket, fuel_of. simpl.
  rewrite lookup_insert_eq. simpl. rewrite Hz. simpl.
  rewrite list_lookup_insert_eq by done. simpl.
  rewrite decide_True by done. unfold store, store_bucket. simpl.
  rewrite lookup_insert_eq. simpl. rewrite length_insert, decide_True by done.
  simpl. rewrite lookup_insert_eq. simpl.
  unfold set_nodes, set_htable. simpl.
  rewrite insert_insert_eq, list_insert_insert_eq.
  rewrite list_insert_id by done. by rewrite insert_id.
Qed.

Lemma find_key_prev_link fuel (h : gmap positive node) cur prev key r pv :
  find_key_prev fuel h cur prev key = Some (r, pv) →
  (∀ q, prev = Some q → ∃ nq, h !! q = Some nq ∧ N.hnext nq = cur) →
  (∀ q, pv = Some q → ∃ nq, h !! q = Some nq ∧ N.hnext nq = r) ∧
  (pv = None → prev = None ∧ r = cur).
Proof.
  revert cur prev. induction fuel as [|fuel IH]; intros cur prev E Hprev; [done|].
  simpl in E. destruct cur as [c|]; [|by simplify_eq].
  destruct (h !! c) as [cn|] eqn:Hc; [|done]. simpl in E.
  destruct (N.key cn) as [ck|]; [|done]. simpl in E.
  destruct (strcmp ck key =? 0); [by simplify_eq|].
  destruct (IH _ _ E) as [H1 H2].
  { intros q [= <-]. eauto. }
  split; [done|]. intros Hpv. by destruct (H2 Hpv).
Qed.

(** X12.  The search of [cache_delete] stops at the node the search of
    [cache_put] and [cache_get] stops at, and the predecessor it tracks is
    the node whose [hnext] is that node, or null when the bucket itself
    points to it: the unlinking that follows rewrites the right link. *)
Theorem delete_search_agrees cap av cs w key :
  reach cap av cs = Some w →
  ∃ hv start cur prev,
    bucket_index w key = Some hv ∧ load_bucket w hv = Some start ∧
    find_key_prev (fuel_of w) (nodes w) start None key = Some (cur, prev) ∧
    lookup_key w key = Some cur ∧
    match prev with
    | None => cur = start
    | Some q => ∃ nq, nodes w !! q = Some nq ∧ N.hnext nq = cur
    end.
Proof.
  intros Hreach. destruct (reach_inv _ _ _ _ Hreach) as ((l & bs & Hrep) & _).
  destruct (lookup_key_ok w l bs key Hrep) as (r & E & _).
  pose proof E as E0. unfold lookup_key in E.
  apply bind_Some in E as (hv & Hhv & E).
  apply bind_Some in E as (start & Hst & E).
  pose proof (find_key_prev_fst (fuel_of w) (nodes w) start None key) as Hfst.
  rewrite E in Hfst.
  destruct (find_key_prev (fuel_of w) (nodes w) start None key) as [[cur pv]|] eqn:Ep;
    [|done].
  simpl in Hfst. simplify_eq.
  exists hv, start, r, pv. split; [done|]. split; [done|]. split; [done|].
  split; [done|].
  destruct (find_key_prev_link _ _ _ _ _ _ _ Ep) as [H1 H2]; [done|].
  destruct pv as [q|]; [by apply H1 | by destruct H2].
Qed.

(** ** [cache_destroy] *)

Lemma destroy_chain_frees fuel w0 b b1 b2 :
  NoDup b → b = b1 ++ b2 →
  (∀ p, p ∈ b2 → ∃ n, nodes w0 !! p = Some n ∧ N.hnext n = nxt b p) →
  (length b2 < fuel)%nat →
  ∃ w1, destroy_chain fuel w0 (head b2) = Some w1 ∧
    self w1 = self w0 ∧ avail w1 = avail w0 ∧ events w1 = events w0 ∧
    ∀ q, nodes w1 !! q = if decide (q ∈ b2) then None else nodes w0 !! q.
Proof.
  intros Hnd. revert w0 b1 fuel.
  induction b2 as [|x b2 IH]; intros w0 b1 fuel Hb Hn Hf.
  { destruct fuel; [simpl in Hf; lia|]. exists w0. by repeat split. }
  destruct fuel; [simpl in Hf; lia|]. simpl in Hf.
  destruct (Hn x) as (n & Hx & Hnx); [left|].
  assert (Hx1 : (x ∉ b1) ∧ (x ∉ b2)).
  { rewrite Hb in Hnd. apply NoDup_app in Hnd as (_ & Hd & [? _]%NoDup_cons).
    split; [|done]. intros ?. eapply Hd; [done | left]. }
  destruct Hx1 as [Hx1 Hx2].
  assert (Hnx' : N.hnext n = head b2) by (by rewrite Hnx, Hb, nxt_middle).
  simpl. rewrite Hx. simpl. unfold free_node. rewrite Hx. simpl. rewrite Hnx'.
  destruct (IH (set_nodes w0 (delete x (nodes w0))) (b1 ++ [x]) fuel)
    as (w1 & E & Hs & Ha & He & Hq).
  - by rewrite <- (assoc_L (++)).
  - intros p Hp. simpl. rewrite lookup_delete_ne by (intros ->; done).
    apply Hn. by right.
  - lia.
  - exists w1. split; [done|]. split; [done|]. split; [done|]. split; [done|].
    intros q. rewrite Hq. simpl.
    destruct (decide (q = x)) as [->|Hqx].
    + rewrite lookup_delete_eq. rewrite (decide_True (P := x ∈ x :: b2)) by left.
      by case_decide.
    + rewrite lookup_delete_ne by done.
      destruct (decide (q ∈ b2)).
      * rewrite decide_True; [done | by right].
      * rewrite decide_False; [done|]. by intros [->|?]%elem_of_cons.
Qed.

Lemma destroy_buckets_S fuel w i :
  destroy_buckets (S fuel) w i =
  if i <? C.hsize (self w) then
    cur ← load_bucket w i;
    w ← destroy_chain (fuel_of w) w cur;
    destroy_buckets fuel w (wrap (i + 1))
  else Some w.
Proof. done. Qed.

Lemma destroy_buckets_frees w bs l fuel j wj :
  cache_rep w l bs →
  (j + fuel = length bs)%nat →
  self wj = self w →
  (∀ q, nodes wj !! q = if decide (q ∈ mjoin (take j bs)) then None else nodes w !! q) →
  ∃ w', destroy_buckets fuel wj (Z.of_nat j) = Some w' ∧
    self w' = self w ∧ avail w' = avail wj ∧ events w' = events wj ∧
    ∀ q, nodes w' !! q = None.
Proof.
  intros Hrep. pose proof Hrep as (Hdll & Hok & Hperm & Hdom & _).
  pose proof Hok as (Ht & Hlen & Hc).
  pose proof (cache_rep_hsize _ _ _ Hrep) as Hhs.
  revert j wj. induction fuel as [|fuel IH]; intros j wj Hj Hs Hq.
  - exists wj. simpl. rewrite Hs.
    destruct (Z.ltb_spec (Z.of_nat j) (C.hsize (self w))) as [Hlt|_]; [lia|].
    split; [done|]. split; [done|]. split; [done|]. split; [done|].
    intros q. rewrite Hq. rewrite take_ge by lia.
    case_decide as Hin; [done|].
    destruct (nodes w !! q) eqn:E; [|done]. exfalso. apply Hin.
    rewrite Hperm. apply Hdom. eauto.
  - rewrite destroy_buckets_S, Hs.
    destruct (Z.ltb_spec (Z.of_nat j) (C.hsize (self w))) as [_|Hge]; [|lia].
    destruct (lookup_lt_is_Some_2 bs j) as [b Hb]; [lia|].
    unfold load_bucket. rewrite Hs, Ht, Nat2Z.id, list_lookup_fmap, Hb.
    change (head <$> Some b) with (Some (head b)).
    change (Some (head b) ≫= ?f) with (f (head b)). cbv beta.
    pose proof (Hc j b Hb) as (Hndb & Hbn).
    assert (Hfresh : ∀ p, p ∈ b → p ∉ mjoin (take j bs)).
    { intros p Hp (b' & Hpb' & Hb')%list_elem_of_join.
      apply list_elem_of_lookup in Hb' as (i & Hi).
      pose proof (lookup_lt_Some _ _ _ Hi) as Hlt. rewrite length_take in Hlt.
      rewrite lookup_take_lt in Hi by lia.
      assert (j = i) by (by eapply (table_ok_disjoint w bs j i b b' p)). lia. }
    destruct (destroy_chain_frees (fuel_of wj) wj b [] b) as (w1 & E & Hs1 & Ha1 & He1 & Hq1);
      [done|done| | |].
    + intros p Hp. rewrite Hq, decide_False by (by apply Hfresh).
      destruct (Hbn p Hp) as (n & k & Hn & Hnx & _). eauto.
    + unfold fuel_of. apply Nat.lt_succ_r, length_le_size; [done|].
      intros p Hp. rewrite Hq, decide_False by (by apply Hfresh).
      destruct (Hbn p Hp) as (n & k & -> & _). eauto.
    + rewrite E. change (Some w1 ≫= ?f) with (f w1). cbv beta.
      replace (wrap (Z.of_nat j + 1)) with (Z.of_nat (S j)).
      2:{ unfold wrap. rewrite Z.mod_small; lia. }
      destruct (IH (S j) w1) as (w' & E' & Hs' & Ha' & He' & Hq'); [lia|congruence| |].
      * intros q. rewrite Hq1, Hq. rewrite (take_S_r _ _ b) by done.
        rewrite join_app. simpl. rewrite app_nil_r.
        destruct (decide (q ∈ b)), (decide (q ∈ mjoin (take j bs)));
          (rewrite decide_True by (apply elem_of_app; tauto)) ||
          (rewrite decide_False by (rewrite elem_of_app; tauto)); done.
      * exists w'. split; [done|]. split; [done|]. split; [congruence|].
        split; [congruence|]. done.
Qed.

(** X13.  [cache_destroy] of a cache in the state any sequence of calls has
    left it in frees every node, each once: it returns, nothing is left
    allocated, and the lock was taken exclusively and released once more.
    On a null handle it does nothing. *)
Theorem cache_destroy_frees_all cap av cs w :
  reach cap av cs = Some w →
  cache_destroy (Some w) = Some (Some (Remains ∅ (events w ++ [wrlock; unlock]))) ∧
  cache_destroy None = Some None.
Proof.
  intros Hreach. split; [|done].
  destruct (reach_inv _ _ _ _ Hreach) as ((l & bs & Hrep) & _).
  pose proof Hrep as (_ & (_ & Hlen & _) & _).
  assert (Hrep' : cache_rep (lock_event wrlock w) l bs) by (by eapply cache_rep_ext).
  destruct (destroy_buckets_frees (lock_event wrlock w) bs l
              (Z.to_nat (C.hsize (self w))) 0 (lock_event wrlock w) Hrep')
    as (w' & E & Hs & Ha & He & Hq).
  - simpl. lia.
  - done.
  - intros q. case_decide as Hin; [|done]. by apply elem_of_nil in Hin.
  - unfold cache_destroy. cbv zeta.
    change (C.hsize (self (lock_event wrlock w))) with (C.hsize (self w)).
    change (Z.of_nat 0) with 0 in E. rewrite E.
    change (Some w' ≫= ?f) with (f w'). cbv beta.
    do 3 f_equal.
    + apply map_eq. intros q. by rewrite Hq, lookup_empty.
    + simpl. rewrite He. simpl. by rewrite <- (assoc_L (++)).
Qed.

(** ** [cache_create] *)

(** X14.  [cache_create] with a capacity from 1 to [2^60 - 1] succeeds when
    its two allocations do, and returns an empty cache of that capacity
    with [2 * capacity + 1] empty buckets.  With capacity 0 it fails, and
    with a capacity from [2^60] to [2^63 - 1] it fails whatever memory is
    available: the bucket array would not fit the address space. *)
Theorem cache_create_bounds cap av :
  0 ≤ cap < word_max →
  (0 < cap < 2 ^ 60 →
   (next_outcome av).1 = true → (next_outcome (next_outcome av).2).1 = true →
   cache_create cap av =
     Some (World ∅
             (C.mk cap 0 (2 * cap + 1) (replicate (Z.to_nat (2 * cap + 1)) None) None None)
             (next_outcome (next_outcome av).2).2 [])) ∧
  (cap = 0 ∨ 2 ^ 60 ≤ cap < 2 ^ 63 → cache_create cap av = None).
Proof.
  intros Hcap. unfold word_max, word_bits in Hcap. split.
  - intros Hr H1 H2. unfold cache_create, calloc_cache, calloc_table.
    destruct (Z.eqb_spec cap 0); [lia|].
    destruct (next_outcome av) as [o1 av1]. simpl in *. subst o1. simpl.
    destruct (next_outcome av1) as [o2 av2]. simpl in *. subst o2. simpl.
    assert (Hw : wrap (cap * 2 + 1) = 2 * cap + 1).
    { unfold wrap, word_max, word_bits. rewrite Z.mod_small; lia. }
    rewrite Hw.
    destruct (Z.ltb_spec ((2 * cap + 1) * sizeof_ptr) word_max) as [_|Hge]; [done|].
    unfold sizeof_ptr, word_max, word_bits in Hge. lia.
  - intros [->|Hr]; [done|]. unfold cache_create, calloc_cache, calloc_table.
    destruct (Z.eqb_spec cap 0); [done|].
    destruct (next_outcome av) as [[] av1]; simpl; [|done].
    destruct (next_outcome av1) as [o2 av2]. simpl.
    assert (Hw : wrap (cap * 2 + 1) = 2 * cap + 1).
    { unfold wrap, word_max, word_bits. rewrite Z.mod_small; lia. }
    rewrite Hw.
    destruct (Z.ltb_spec ((2 * cap + 1) * sizeof_ptr) word_max) as [Hlt|_].
    + unfold sizeof_ptr, word_max, word_bits in Hlt. lia.
    + by rewrite andb_false_r.
Qed.

Lemma reach_nil cap av w :
  0 ≤ cap < word_max → cache_create cap av = Some w → reach cap av [] = Some w.
Proof.
  intros Hcap E. unfold reach. rewrite decide_True by done. by rewrite E.
Qed.

(** X15.  On a cache that was just created every get returns null and
    every delete returns 1, and neither changes it. *)
Theorem fresh_cache_is_empty cap av w key :
  0 ≤ cap < word_max → cache_create cap av = Some w →
  entries w = Some [] ∧
  (∃ w', cache_get (Some w) (Some key) = Some (None, Some w') ∧
         nodes w' = nodes w ∧ self w' = self w) ∧
  (∃ w', cache_delete (Some w) (Some key) = Some (1, Some w') ∧
         nodes w' = nodes w ∧ self w' = self w).
Proof.
  intros Hcap E. pose proof (reach_nil _ _ _ Hcap E) as Hreach.
  destruct (reach_inv _ _ _ _ Hreach) as (Hinv & _).
  destruct (cache_create_empty _ _ _ E) as (_ & _ & _ & _ & Hes).
  split; [done|]. split.
  - destruct (get_sim w [] key Hinv Hes) as (ret & w' & Eg & _ & _ & _ & Hpost).
    simpl in Hpost. destruct Hpost as (-> & Hn & Hs & _). eauto.
  - destruct (delete_sim w [] key Hinv Hes) as (rc & w' & Ed & _ & _ & _ & _ & _ & Hpost).
    simpl in Hpost. destruct Hpost as (-> & Hn & Hs). eauto.
Qed.

(** ** Sequences of calls *)

Lemma inv_entries w : cache_inv w → ∃ es, entries w = Some es.
Proof. intros (l & bs & Hrep). eexists. by eapply entries_ok. Qed.

(** X16.  Every sequence of calls on a created cache, whatever their
    arguments and whatever the allocator answers, runs to its end: no call
    goes through a null or dangling pointer, frees a node twice, divides by
    a zero bucket count or walks a chain without end.  The capacity and the
    bucket count stay as [cache_create] set them. *)
Theorem calls_run_to_the_end cap av cs w0 :
  0 ≤ cap < word_max → cache_create cap av = Some w0 →
  ∃ w, run cs w0 = Some w ∧
    C.capacity (self w) = cap ∧ C.hsize (self w) = C.hsize (self w0).
Proof.
  intros Hcap E. pose proof (reach_nil _ _ _ Hcap E) as Hreach.
  destruct (reach_inv _ _ _ _ Hreach) as (Hinv & Hc & _).
  destruct (run_inv cs w0 Hinv) as (w & Er & _ & Hc' & Hh').
  exists w. split; [done|]. split; [congruence | done].
Qed.

(** X17.  The return codes.  A put returns 0 or -1, and -1 without touching
    anything when the key or the value is null.  A delete returns 0, 1 or
    -1, and -1 exactly when the key is null; it makes no allocation
    request, so it never fails for lack of memory. *)
Theorem return_codes cap av cs w (key value : option string) :
  reach cap av cs = Some w →
  (∃ rc w', cache_put (Some w) key value = Some (rc, Some w') ∧
     (rc = 0 ∨ rc = -1) ∧
     (key = None ∨ value = None → rc = -1 ∧ w' = w)) ∧
  (∃ rc w', cache_delete (Some w) key = Some (rc, Some w') ∧
     (rc = 0 ∨ rc = 1 ∨ rc = -1) ∧
     (rc = -1 ↔ key = None) ∧
     avail w' = avail w ∧
     (key = None → w' = w)).
Proof.
  intros Hreach. destruct (reach_inv _ _ _ _ Hreach) as (Hinv & _).
  destruct (inv_entries w Hinv) as (es & Hes). split.
  - destruct key as [k|], value as [v|]; simpl; try (eexists _, _; split; [done|]; tauto).
    destruct (put_sim w es k v Hinv Hes) as (rc & w' & E & _ & _ & _ & Hrc & _).
    exists rc, w'. split; [done|]. split; [done|]. intros [?|?]; done.
  - destruct key as [k|]; simpl.
    2:{ eexists _, _. split; [done|]. repeat split; try done; tauto. }
    destruct (delete_sim w es k Hinv Hes) as (rc & w' & E & _ & _ & _ & Ha & _ & Hpost).
    exists rc, w'. split; [done|].
    destruct (assoc (cstr k) es); [|destruct Hpost as (-> & _)]; subst;
      repeat split; try done; try tauto; try lia.
Qed.

(** ** The lock *)

Lemma released_app evs t :
  released false evs = true → released false t = true →
  released false (evs ++ t) = true.
Proof.
  intros H Ht. assert (G : ∀ held, released held evs = true →
                           released held (evs ++ t) = true).
  { clear H. induction evs as [|e evs IH]; intros held H; simpl in *.
    - destruct held; [done|]. done.
    - destruct e, held; simpl in *; try done; by apply IH. }
  by apply G.
Qed.

Lemma step_events w c :
  cache_inv w →
  ∃ w' t, step w c = Some w' ∧ cache_inv w' ∧ events w' = events w ++ t ∧
          released false t = true.
Proof.
  intros Hinv. destruct (inv_entries w Hinv) as (es & Hes).
  destruct c as [[k|] [v|]|[k|]|[k|]]; unfold step;
    try (exists w, []; simpl; rewrite app_nil_r; done).
  - destruct (put_sim w es k v Hinv Hes) as (rc & w' & E & Hinv' & He & _).
    rewrite E. simpl. by exists w', [wrlock; unlock].
  - destruct (get_sim w es k Hinv Hes) as (ret & w' & E & Hinv' & _ & _ & Hpost).
    rewrite E. simpl. destruct (assoc (cstr k) es).
    + destruct Hpost as (_ & _ & He). by exists w', [rdlock; unlock; wrlock; unlock].
    + destruct Hpost as (_ & _ & _ & _ & He). by exists w', [rdlock; unlock].
  - destruct (delete_sim w es k Hinv Hes) as (rc & w' & E & Hinv' & _ & _ & _ & He & _).
    rewrite E. simpl. by exists w', [wrlock; unlock].
Qed.

(** X18.  The lock is used in matched pairs: in the history any sequence of
    calls leaves, every [rdlock] or [wrlock] is followed at once by its
    [unlock], and no call returns holding the lock, on a failure path
    either. *)
Theorem lock_always_released cap av cs w :
  reach cap av cs = Some w → released false (events w) = true.
Proof.
  unfold reach. case_decide as Hcap; [|done].
  destruct (cache_create cap av) as [w0|] eqn:E; [|done]. simpl.
  destruct (cache_create_ok _ _ _ Hcap E) as (Hrep & _ & Hev).
  assert (Hinv : cache_inv w0) by (by eexists _, _).
  assert (Hrel : released false (events w0) = true) by (by rewrite Hev).
  clear E Hrep Hev. revert w0 Hinv Hrel.
  induction cs as [|c cs IH]; intros w0 Hinv Hrel Hrun; simpl in Hrun.
  - by simplify_eq.
  - destruct (step_events w0 c Hinv) as (w1 & t & Es & Hinv1 & He & Ht).
    rewrite Es in Hrun. simpl in Hrun. apply (IH w1); [done| |done].
    rewrite He. by apply released_app.
Qed.

(** ** How the operations compose *)



Lemma model_put_assoc cap k v es :
  0 < cap → assoc k (model_put cap k v es) = Some v.
Proof.
  intros Hcap. unfold model_put. destruct (assoc k es).
  - simpl. by rewrite decide_True.
  - destruct (Z.to_nat cap) as [|n] eqn:E; [lia|]. simpl. by rewrite decide_True.
Qed.

(** X19.  What a put stores, a get returns: after a put of a key and a
    value that returned 0, in whatever state the cache was, a get of the
    key returns the value (as the C string it is) when its copy can be
    allocated. *)
Theorem put_then_get cap av cs w k v w1 :
  reach cap av cs = Some w →
  cache_put (Some w) (Some k) (Some v) = Some (0, Some w1) →
  out_of_memory w1 = false →
  ∃ w2, cache_get (Some w1) (Some k) = Some (Some (cstr v), Some w2).
Proof.
  intros Hreach Eput Hmem.
  destruct (reach_inv _ _ _ _ Hreach) as (Hinv & Hc & _ & Hpos).
  destruct (inv_entries w Hinv) as (es & Hes).
  destruct (put_sim w es k v Hinv Hes) as (rc & w' & E & Hinv' & _ & _ & _ & _ & _ & Hok & _).
  rewrite Eput in E. simplify_eq. specialize (Hok eq_refl).
  destruct (get_sim w' _ k Hinv' Hok) as (ret & w2 & Eg & _ & _ & _ & Hpost).
  rewrite model_put_assoc in Hpost by lia.
  destruct Hpost as (-> & _). rewrite Hmem in Eg. eauto.
Qed.


Lemma model_get_perm k es : NoDup es.*1 → model_get k es ≡ₚ es.
Proof.
  intros Hnd. unfold model_get. destruct (assoc k es) as [v|] eqn:Ha; [|done].
  apply assoc_Some_elem in Ha.
  apply list_elem_of_split in Ha as (es1 & es2 & ->).
  rewrite fmap_app in Hnd. simpl in Hnd.
  apply NoDup_app in Hnd as (_ & Hdis & [Hk _]%NoDup_cons).
  unfold without. rewrite filter_app, filter_cons_False by (simpl; tauto).
  rewrite <- Permutation_middle. f_equal.
  fold (without k es1) (without k es2).
  rewrite !without_not_elem; [done|done|].
  intros Hin. eapply Hdis; [done|left].
Qed.

(** X21.  A get changes the order of the entries only: whatever the key,
    present, absent or null, and whether or not the copy of the value can
    be allocated, the cache holds the same pairs afterwards, every key has
    the value it had and the size is as before; and a value it returns is
    the one stored under the key. *)
Theorem get_keeps_contents cap av cs w es (key : option string) :
  reach cap av cs = Some w → entries w = Some es →
  ∃ ret w' es', cache_get (Some w) key = Some (ret, Some w') ∧
    entries w' = Some es' ∧ es' ≡ₚ es ∧
    (∀ k', assoc k' es' = assoc k' es) ∧
    C.size (self w') = C.size (self w) ∧
    (∀ v, ret = Some v → ∃ k, key = Some k ∧ assoc (cstr k) es = Some v).
Proof.
  intros Hreach Hes. destruct (reach_inv _ _ _ _ Hreach) as (Hinv & _).
  destruct (entries_facts w es Hinv Hes) as (Hsz & _ & Hnd).
  destruct key as [k|]; simpl.
  2:{ exists None, w, es. repeat split; try done. }
  destruct (get_sim w es k Hinv Hes) as (ret & w' & E & Hinv' & Hes' & _ & Hpost).
  destruct (entries_facts w' _ Hinv' Hes') as (Hsz' & _ & _).
  pose proof (model_get_perm (cstr k) es Hnd) as Hperm.
  exists ret, w', (model_get (cstr k) es). split; [done|]. split; [done|].
  split; [done|]. split; [intros k'; apply assoc_model_get|].
  split; [by rewrite Hsz, Hsz', Hperm|].
  intros v ->. exists k. split; [done|].
  destruct (assoc (cstr k) es) as [v0|].
  - destruct Hpost as (Hret & _). destruct (out_of_memory w); congruence.
  - by destruct Hpost as (? & _).
Qed.

(** X22.  A get of a present key whose value cannot be copied returns
    null, as for an absent key, and has promoted the entry all the same:
    the copy is made after the move to the front. *)
Theorem get_out_of_memory cap av cs w es k v :
  reach cap av cs = Some w → entries w = Some es →
  assoc (cstr k) es = Some v → out_of_memory w = true →
  ∃ w', cache_get (Some w) (Some k) = Some (None, Some w') ∧
    entries w' = Some ((cstr k, v) :: without (cstr k) es).
Proof.
  intros Hreach Hes Ha Hmem. destruct (reach_inv _ _ _ _ Hreach) as (Hinv & _).
  destruct (get_sim w es k Hinv Hes) as (ret & w' & E & _ & Hes' & _ & Hpost).
  rewrite Ha in Hpost. destruct Hpost as (-> & _). rewrite Hmem in E.
  exists w'. split; [done|]. unfold model_get in Hes'. by rewrite Ha in Hes'.
Qed.

(** X23.  A put that returned 0 followed by a delete of its key: the delete
    returns 0 and a get of the key then returns null.  When the key was new
    and the cache was not full, the entries and the size are again what
    they were before the put. *)
Theorem put_then_delete cap av cs w es k v w1 :
  reach cap av cs = Some w → entries w = Some es →
  cache_put (Some w) (Some k) (Some v) = Some (0, Some w1) →
  ∃ w2 w3, cache_delete (Some w1) (Some k) = Some (0, Some w2) ∧
    cache_get (Some w2) (Some k) = Some (None, Some w3) ∧
    (assoc (cstr k) es = None → Z.of_nat (length es) < cap →
     entries w2 = Some es ∧ C.size (self w2) = C.size (self w)).
Proof.
  intros Hreach Hes Eput.
  destruct (reach_inv _ _ _ _ Hreach) as (Hinv & Hc & _ & Hpos).
  destruct (entries_facts w es Hinv Hes) as (Hsz & _ & _).
  destruct (put_sim w es k v Hinv Hes) as (rc & w' & E & Hinv' & _ & _ & _ & _ & _ & Hok & _).
  rewrite Eput in E. simplify_eq. specialize (Hok eq_refl).
  destruct (delete_sim w' _ k Hinv' Hok) as (rc & w2 & Ed & Hinv2 & Hes2 & _ & _ & _ & Hpost).
  rewrite model_put_assoc in Hpost by lia. subst rc.
  destruct (get_sim w2 _ k Hinv2 Hes2) as (ret & w3 & Eg & _ & _ & _ & Hget).
  unfold model_delete in Hget. rewrite assoc_without_eq in Hget.
  destruct Hget as (-> & _).
  exists w2, w3. split; [done|]. split; [done|]. intros Ha Hroom.
  assert (Hes2' : entries w2 = Some es).
  { rewrite Hes2. unfold model_put. rewrite Ha. rewrite take_ge by (simpl; lia).
    unfold model_delete, without. rewrite filter_cons_False by (simpl; tauto).
    fold (without (cstr k) es). rewrite without_not_elem; [done|].
    by apply assoc_None_not_elem. }
  split; [done|].
  destruct (entries_facts w2 es Hinv2 Hes2') as (Hsz2 & _ & _). congruence.
Qed.

(** ** The shape of the store *)

Lemma walk_prev_suffix w l r1 r2 fuel :
  dll_ok w l → reverse l = r1 ++ r2 → (length r2 < fuel)%nat →
  walk_prev fuel (nodes w) (head r2) = Some r2.
Proof.
  intros (Hnd & _ & _ & Hn). apply NoDup_reverse in Hnd. revert r1 fuel.
  induction r2 as [|x r2 IH]; intros r1 fuel Hl Hf.
  - destruct fuel; [simpl in Hf; lia | done].
  - destruct fuel; [lia|]. simpl in Hf. simpl.
    destruct (Hn x) as (n & Hx & _ & Hpv).
    { apply elem_of_reverse. rewrite Hl. apply elem_of_app. right. left. }
    rewrite Hx. simpl.
    assert (Hx1 : x ∉ r1).
    { rewrite Hl in Hnd. apply NoDup_app in Hnd as (_ & Hd & _).
      intros ?. eapply Hd; [done | left]. }
    assert (Hpv' : N.prev n = head r2).
    { rewrite Hpv. unfold prv. by rewrite Hl, nxt_middle. }
    rewrite Hpv', (IH (r1 ++ [x])); [done| |lia].
    by rewrite <- (assoc_L (++)).
Qed.

Lemma recency_rep w l bs l' : cache_rep w l bs → recency w = Some l' → l' = l.
Proof. intros Hrep E. rewrite (recency_ok _ _ _ Hrep) in E. congruence. Qed.

(** X24.  The recency list is linked both ways: in the state any sequence
    of calls leaves, following [prev] from the tail visits the nodes that
    following [next] from the head visits, in the opposite order; and the
    head, the tail and a zero size tell an empty list alike. *)
Theorem recency_both_ways cap av cs w l :
  reach cap av cs = Some w → recency w = Some l →
  recency_backwards w = Some (reverse l) ∧
  C.head (self w) = head l ∧ C.tail (self w) = last l ∧
  (C.head (self w) = None ↔ C.size (self w) = 0) ∧
  (C.tail (self w) = None ↔ C.size (self w) = 0).
Proof.
  intros Hreach Hl. destruct (reach_inv _ _ _ _ Hreach) as ((l0 & bs & Hrep) & _).
  apply (recency_rep _ _ _ _ Hrep) in Hl as ->.
  pose proof Hrep as (Hdll & _ & _ & Hdom & _ & Hsz & _).
  pose proof Hdll as (Hnd & Hhd & Htl & _).
  split; [|split; [done|split; [done|]]].
  - unfold recency_backwards. rewrite Htl, <- head_reverse.
    apply (walk_prev_suffix w l0 [] (reverse l0)); [done|done|].
    rewrite length_reverse. unfold fuel_of.
    apply Nat.lt_succ_r, length_le_size; [done|]. intros p. apply Hdom.
  - rewrite Hhd, Htl, Hsz. destruct l0 as [|x l0] using rev_ind; [done|].
    rewrite last_snoc, length_app. simpl. destruct l0; simpl; split; split; (done || lia).
Qed.

(** X25.  Nothing leaks: in the state any sequence of calls leaves, failed
    and evicting puts included, the nodes allocated are exactly those of
    the recency list, so their number is the size and at most the
    capacity. *)
Theorem store_holds_the_entries cap av cs w :
  reach cap av cs = Some w →
  ∃ l, recency w = Some l ∧
    (∀ p, is_Some (nodes w !! p) ↔ p ∈ l) ∧
    Z.of_nat (base.size (nodes w)) = C.size (self w) ∧
    Z.of_nat (base.size (nodes w)) ≤ cap.
Proof.
  intros Hreach. destruct (reach_inv _ _ _ _ Hreach) as ((l & bs & Hrep) & Hc & _).
  pose proof Hrep as ((Hnd & _) & _ & _ & Hdom & _ & Hsz & Hle & _).
  exists l. split; [by eapply recency_ok|]. split; [done|].
  rewrite (heap_size _ l Hnd Hdom). split; [done | lia].
Qed.

(** X26.  Every node of the store holds a key and a value, none of them
    null, and sits in the chain of the bucket its key hashes to. *)
Theorem nodes_are_well_placed cap av cs w p n :
  reach cap av cs = Some w → nodes w !! p = Some n →
  ∃ k v bs i b,
    N.key n = Some k ∧ N.value n = Some v ∧ cstr k = k ∧ cstr v = v ∧
    index_chains w = Some bs ∧ bs !! i = Some b ∧ p ∈ b ∧
    Z.of_nat i = hash_str k mod C.hsize (self w).
Proof.
  intros Hreach Hp. destruct (reach_inv _ _ _ _ Hreach) as ((l & bs & Hrep) & _).
  pose proof Hrep as (_ & Hok & _ & Hdom & (Hkv & _) & _).
  pose proof (cache_rep_hsize _ _ _ Hrep) as Hhs.
  destruct (Hkv p n Hp) as (k & v & Hk & Hv & Hck & Hcv).
  destruct (cache_rep_bucket w l bs p Hrep) as (i & b & Hb & Hpb).
  { apply Hdom. eauto. }
  pose proof Hok as (_ & _ & Hc). destruct (Hc i b Hb) as (_ & Hbn).
  destruct (Hbn p Hpb) as (n' & k' & Hp' & _ & Hk' & Hi).
  assert (n' = n) as -> by congruence. assert (k' = k) as -> by congruence.
  exists k, v, bs, i, b. repeat split; try done.
  - by eapply index_chains_ok.
  - rewrite <- Hi. unfold bucket_of. rewrite Z2Nat.id; [done|].
    apply Z.mod_pos_bound. lia.
Qed.

(** * The further properties on the scenarios *)

Lemma reach_rep cap av cs w l bs :
  reach cap av cs = Some w → recency w = Some l → index_chains w = Some bs →
  cache_rep w l bs.
Proof.
  intros Hreach Hl Hbs. destruct (reach_inv _ _ _ _ Hreach) as ((l0 & bs0 & Hrep) & _).
  rewrite (recency_ok _ _ _ Hrep) in Hl. rewrite (index_chains_ok _ _ _ Hrep) in Hbs.
  by simplify_eq.
Qed.

Lemma world_a_b_rep : cache_rep world_a_b [2; 1]%positive [[1]; [2]; []; []; []]%positive.
Proof. apply (reach_rep 2 [] put_a_b); vm_compute; reflexivity. Qed.

Lemma world_a_f_rep : cache_rep world_a_f [2; 1]%positive [[2; 1]; []; []; []; []]%positive.
Proof.
  apply (reach_rep 2 [] [Put (Some key_a) (Some val_1); Put (Some key_f) (Some val_2)]);
    vm_compute; reflexivity.
Qed.

Lemma world_detached_dll : dll_ok world_detached [1%positive].
Proof.
  assert (Hrep : cache_rep world_a [1]%positive [[1]; []; []; []; []]%positive).
  { apply (reach_rep 2 [] [Put (Some key_a) (Some val_1)]); vm_compute; reflexivity. }
  destruct Hrep as (Hdll & _).
  apply (dll_ok_frame world_a); [done| |reflexivity|reflexivity].
  intros p ->%list_elem_of_singleton. vm_compute. reflexivity.
Qed.

Lemma world_detached_table :
  table_ok world_detached [[1]; []; []; []; []]%positive.
Proof.
  assert (Hrep : cache_rep world_a [1]%positive [[1]; []; []; []; []]%positive).
  { apply (reach_rep 2 [] [Put (Some key_a) (Some val_1)]); vm_compute; reflexivity. }
  destruct Hrep as (_ & Hok & _).
  apply (table_ok_frame world_a); [done| |reflexivity|reflexivity].
  intros p ->%list_elem_of_singleton. vm_compute. reflexivity.
Qed.

Lemma hash_str_djb2_witness :
  cstr key_a = key_a ∧ uchar "b" ≠ 0 ∧
  hash_str EmptyString = 5381 ∧
  0 ≤ hash_str key_a < word_max ∧
  hash_str (key_a +:+ String "b" EmptyString) = (hash_str key_a * 33 + uchar "b") mod 2 ^ 64.
Proof.
  split; [reflexivity|]. split; [vm_compute; congruence|].
  apply (hash_str_djb2 key_a "b"); [reflexivity | vm_compute; congruence].
Defined.

Lemma hash_str_strcmp_witness :
  strcmp (String "a" (String zero key_b)) key_a = 0 ∧
  hash_str (String "a" (String zero key_b)) = hash_str key_a ∧
  ∀ w, bucket_index w (String "a" (String zero key_b)) = bucket_index w key_a.
Proof.
  split; [reflexivity|].
  apply (hash_str_strcmp (String "a" (String zero key_b)) key_a). reflexivity.
Defined.

Lemma node_create_free_witness :
  node_create world_a key_b val_2 = Some (Some 2%positive, world_detached) ∧
  (∃ w2, node_free world_detached (Some 2%positive) = Some w2 ∧
         nodes w2 = nodes world_a ∧ self w2 = self world_a ∧
         events w2 = events world_a) ∧
  node_free world_detached None = Some world_detached.
Proof.
  split; [vm_compute; reflexivity|].
  apply (node_create_free world_a key_b val_2 2%positive world_detached).
  vm_compute; reflexivity.
Defined.

Lemma dll_remove_detaches_witness :
  dll_ok world_a_b [2; 1]%positive ∧ 1%positive ∈ [2; 1]%positive ∧
  ∃ w' n', dll_remove world_a_b 1%positive = Some w' ∧
    dll_ok w' (del 1%positive [2; 1]%positive) ∧
    nodes w' !! 1%positive = Some n' ∧ N.prev n' = None ∧ N.next n' = None ∧
    links_only world_a_b w'.
Proof.
  split; [apply world_a_b_rep|]. split; [compute_done|].
  apply (dll_remove_detaches world_a_b [2; 1]%positive 1%positive).
  - apply world_a_b_rep.
  - compute_done.
Defined.

Lemma dll_push_head_front_witness :
  dll_ok world_detached [1%positive] ∧ (2%positive ∉ [1%positive]) ∧
  is_Some (nodes world_detached !! 2%positive) ∧
  ∃ w', dll_push_head world_detached 2%positive = Some w' ∧
    dll_ok w' [2; 1]%positive ∧
    C.head (self w') = Some 2%positive ∧
    C.tail (self w') = C.tail (self world_detached) ∧
    links_only world_detached w'.
Proof.
  split; [apply world_detached_dll|]. split; [compute_done|].
  split; [by eexists|].
  apply (dll_push_head_front world_detached [1%positive] 2%positive).
  - apply world_detached_dll.
  - compute_done.
  - by eexists.
Defined.

Lemma dll_push_remove_witness :
  dll_ok world_detached [1%positive] ∧ (2%positive ∉ [1%positive]) ∧
  nodes world_detached !! 2%positive =
    Some (N.mk (Some key_b) (Some val_2) None None None) ∧
  ∃ w1, dll_push_head world_detached 2%positive = Some w1 ∧
        dll_remove w1 2%positive = Some world_detached.
Proof.
  split; [apply world_detached_dll|]. split; [compute_done|].
  split; [reflexivity|].
  apply (dll_push_remove world_detached [1%positive] 2%positive
           (N.mk (Some key_b) (Some val_2) None None None)).
  - apply world_detached_dll.
  - compute_done.
  - reflexivity.
  - reflexivity.
  - reflexivity.
Defined.

Lemma htable_insert_prepends_witness :
  table_ok world_detached [[1]; []; []; []; []]%positive ∧
  0 < C.hsize (self world_detached) ∧
  nodes world_detached !! 2%positive =
    Some (N.mk (Some key_b) (Some val_2) None None None) ∧
  (2%positive ∉ mjoin [[1]; []; []; []; []]%positive) ∧
  ∃ b w',
    [[1]; []; []; []; []]%positive !! bucket_of (C.hsize (self world_detached)) key_b
      = Some b ∧
    htable_insert world_detached 2%positive = Some w' ∧
    table_ok w' (<[bucket_of (C.hsize (self world_detached)) key_b := 2%positive :: b]>
                   [[1]; []; []; []; []]%positive) ∧
    lookup_key w' key_b = Some (Some 2%positive) ∧
    chains_only world_detached w'.
Proof.
  split; [apply world_detached_table|]. split; [reflexivity|].
  split; [reflexivity|]. split; [compute_done|].
  apply (htable_insert_prepends world_detached [[1]; []; []; []; []]%positive 2%positive
           (N.mk (Some key_b) (Some val_2) None None None) key_b).
  - apply world_detached_table.
  - reflexivity.
  - reflexivity.
  - reflexivity.
  - compute_done.
Defined.

Lemma htable_remove_unlinks_witness :
  table_ok world_a_f [[2; 1]; []; []; []; []]%positive ∧
  0 < C.hsize (self world_a_f) ∧
  [[2; 1]; []; []; []; []]%positive !! 0%nat = Some [2; 1]%positive ∧
  1%positive ∈ [2; 1]%positive ∧
  ∃ w' n', htable_remove world_a_f 1%positive = Some w' ∧
    table_ok w' (<[0%nat := del 1%positive [2; 1]%positive]>
                   [[2; 1]; []; []; []; []]%positive) ∧
    nodes w' !! 1%positive = Some n' ∧ N.hnext n' = None ∧ chains_only world_a_f w'.
Proof.
  split; [apply world_a_f_rep|]. split; [reflexivity|]. split; [reflexivity|].
  split; [compute_done|].
  apply (htable_remove_unlinks world_a_f [[2; 1]; []; []; []; []]%positive 0%nat
           [2; 1]%positive 1%positive).
  - apply world_a_f_rep.
  - reflexivity.
  - reflexivity.
  - compute_done.
Defined.

Lemma htable_remove_absent_witness :
  table_ok world_detached [[1]; []; []; []; []]%positive ∧
  0 < C.hsize (self world_detached) ∧
  nodes world_detached !! 2%positive =
    Some (N.mk (Some key_b) (Some val_2) None None None) ∧
  (2%positive ∉ mjoin [[1]; []; []; []; []]%positive) ∧
  htable_remove world_detached 2%positive = Some world_detached.
Proof.
  split; [apply world_detached_table|]. split; [reflexivity|].
  split; [reflexivity|]. split; [compute_done|].
  apply (htable_remove_absent world_detached [[1]; []; []; []; []]%positive 2%positive
           (N.mk (Some key_b) (Some val_2) None None None) key_b).
  - apply world_detached_table.
  - reflexivity.
  - reflexivity.
  - reflexivity.
  - compute_done.
Defined.

Lemma htable_insert_remove_witness :
  0 < C.hsize (self world_detached) ∧
  length (C.htable (self world_detached)) = Z.to_nat (C.hsize (self world_detached)) ∧
  nodes world_detached !! 2%positive =
    Some (N.mk (Some key_b) (Some val_2) None None None) ∧
  ∃ w1, htable_insert world_detached 2%positive = Some w1 ∧
        htable_remove w1 2%positive = Some world_detached.
Proof.
  split; [reflexivity|]. split; [reflexivity|]. split; [reflexivity|].
  apply (htable_insert_remove world_detached 2%positive
           (N.mk (Some key_b) (Some val_2) None None None) key_b); reflexivity.
Defined.

Lemma delete_search_agrees_witness :
  reach 2 [] [Put (Some key_a) (Some val_1); Put (Some key_f) (Some val_2)]
    = Some world_a_f ∧
  ∃ hv start cur prev,
    bucket_index world_a_f key_a = Some hv ∧ load_bucket world_a_f hv = Some start ∧
    find_key_prev (fuel_of world_a_f) (nodes world_a_f) start None key_a
      = Some (cur, prev) ∧
    lookup_key world_a_f key_a = Some cur ∧
    match prev with
    | None => cur = start
    | Some q => ∃ nq, nodes world_a_f !! q = Some nq ∧ N.hnext nq = cur
    end.
Proof.
  split; [vm_compute; reflexivity|].
  apply (delete_search_agrees 2 []
           [Put (Some key_a) (Some val_1); Put (Some key_f) (Some val_2)] world_a_f key_a).
  vm_compute; reflexivity.
Defined.

Lemma cache_destroy_frees_all_witness :
  reach 2 [] put_a_b = Some world_a_b ∧
  cache_destroy (Some world_a_b)
    = Some (Some (Remains ∅ (events world_a_b ++ [wrlock; unlock]))) ∧
  cache_destroy None = Some None.
Proof.
  split; [vm_compute; reflexivity|].
  apply (cache_destroy_frees_all 2 [] put_a_b world_a_b).
  vm_compute; reflexivity.
Defined.

Lemma cache_create_bounds_witness :
  0 ≤ 2 < word_max ∧ 0 < 2 < 2 ^ 60 ∧
  (next_outcome []).1 = true ∧ (next_outcome (next_outcome []).2).1 = true ∧
  cache_create 2 [] =
    Some (World ∅
            (C.mk 2 0 (2 * 2 + 1) (replicate (Z.to_nat (2 * 2 + 1)) None) None None)
            (next_outcome (next_outcome []).2).2 []).
Proof.
  split; [done|]. split; [done|]. split; [reflexivity|]. split; [reflexivity|].
  apply (proj1 (cache_create_bounds 2 [] ltac:(done))); [done | reflexivity | reflexivity].
Defined.

Lemma fresh_cache_is_empty_witness :
  0 ≤ 2 < word_max ∧ cache_create 2 [] = Some world_empty ∧
  entries world_empty = Some [] ∧
  (∃ w', cache_get (Some world_empty) (Some key_a) = Some (None, Some w') ∧
         nodes w' = nodes world_empty ∧ self w' = self world_empty) ∧
  (∃ w', cache_delete (Some world_empty) (Some key_a) = Some (1, Some w') ∧
         nodes w' = nodes world_empty ∧ self w' = self world_empty).
Proof.
  split; [done|]. split; [reflexivity|].
  apply (fresh_cache_is_empty 2 [] world_empty key_a); [done | reflexivity].
Defined.

Lemma calls_run_to_the_end_witness :
  0 ≤ 2 < word_max ∧ cache_create 2 [] = Some world_empty ∧
  ∃ w, run put_a_b world_empty = Some w ∧
    C.capacity (self w) = 2 ∧ C.hsize (self w) = C.hsize (self world_empty).
Proof.
  split; [done|]. split; [reflexivity|].
  apply (calls_run_to_the_end 2 [] put_a_b world_empty); [done | reflexivity].
Defined.

Lemma return_codes_witness :
  reach 2 [] put_a_b = Some world_a_b ∧
  (∃ rc w', cache_put (Some world_a_b) (Some key_c) None = Some (rc, Some w') ∧
     (rc = 0 ∨ rc = -1) ∧
     (Some key_c = None ∨ @None string = None → rc = -1 ∧ w' = world_a_b)) ∧
  (∃ rc w', cache_delete (Some world_a_b) (Some key_c) = Some (rc, Some w') ∧
     (rc = 0 ∨ rc = 1 ∨ rc = -1) ∧
     (rc = -1 ↔ Some key_c = None) ∧
     avail w' = avail world_a_b ∧
     (Some key_c = None → w' = world_a_b)).
Proof.
  split; [vm_compute; reflexivity|].
  apply (return_codes 2 [] put_a_b world_a_b (Some key_c) None).
  vm_compute; reflexivity.
Defined.

Lemma lock_always_released_witness :
  reach 2 [] put_a_b = Some world_a_b ∧ released false (events world_a_b) = true.
Proof.
  split; [vm_compute; reflexivity|].
  apply (lock_always_released 2 [] put_a_b world_a_b). vm_compute; reflexivity.
Defined.

Lemma put_then_get_witness :
  reach 2 [] put_a_b = Some world_a_b ∧
  cache_put (Some world_a_b) (Some key_c) (Some val_3) = Some (0, Some world_a_b_c) ∧
  out_of_memory world_a_b_c = false ∧
  ∃ w2, cache_get (Some world_a_b_c) (Some key_c) = Some (Some (cstr val_3), Some w2).
Proof.
  split; [vm_compute; reflexivity|]. split; [vm_compute; reflexivity|].
  split; [reflexivity|].
  apply (put_then_get 2 [] put_a_b world_a_b key_c val_3 world_a_b_c).
  - vm_compute; reflexivity.
  - vm_compute; reflexivity.
  - reflexivity.
Defined.


Lemma get_keeps_contents_witness :
  reach 2 [] put_a_b = Some world_a_b ∧
  entries world_a_b = Some [(key_b, val_2); (key_a, val_1)] ∧
  ∃ ret w' es', cache_get (Some world_a_b) (Some key_a) = Some (ret, Some w') ∧
    entries w' = Some es' ∧ es' ≡ₚ [(key_b, val_2); (key_a, val_1)] ∧
    (∀ k', assoc k' es' = assoc k' [(key_b, val_2); (key_a, val_1)]) ∧
    C.size (self w') = C.size (self world_a_b) ∧
    (∀ v, ret = Some v →
       ∃ k, Some key_a = Some k ∧
            assoc (cstr k) [(key_b, val_2); (key_a, val_1)] = Some v).
Proof.
  split; [vm_compute; reflexivity|]. split; [vm_compute; reflexivity|].
  apply (get_keeps_contents 2 [] put_a_b world_a_b [(key_b, val_2); (key_a, val_1)]
           (Some key_a)).
  - vm_compute; reflexivity.
  - vm_compute; reflexivity.
Defined.

Lemma get_out_of_memory_witness :
  reach 2 [true; true; true; true; true; false] [Put (Some key_a) (Some val_1)]
    = Some world_a_oom ∧
  entries world_a_oom = Some [(key_a, val_1)] ∧
  assoc (cstr key_a) [(key_a, val_1)] = Some val_1 ∧
  out_of_memory world_a_oom = true ∧
  ∃ w', cache_get (Some world_a_oom) (Some key_a) = Some (None, Some w') ∧
    entries w' = Some ((cstr key_a, val_1) :: without (cstr key_a) [(key_a, val_1)]).
Proof.
  split; [vm_compute; reflexivity|]. split; [vm_compute; reflexivity|].
  split; [reflexivity|]. split; [reflexivity|].
  apply (get_out_of_memory 2 [true; true; true; true; true; false]
           [Put (Some key_a) (Some val_1)] world_a_oom [(key_a, val_1)] key_a val_1).
  - vm_compute; reflexivity.
  - vm_compute; reflexivity.
  - reflexivity.
  - reflexivity.
Defined.

Lemma put_then_delete_witness :
  reach 2 [] [Put (Some key_a) (Some val_1)] = Some world_a ∧
  entries world_a = Some [(key_a, val_1)] ∧
  cache_put (Some world_a) (Some key_b) (Some val_2) = Some (0, Some world_a_b) ∧
  assoc (cstr key_b) [(key_a, val_1)] = None ∧
  Z.of_nat (length [(key_a, val_1)]) < 2 ∧
  ∃ w2 w3, cache_delete (Some world_a_b) (Some key_b) = Some (0, Some w2) ∧
    cache_get (Some w2) (Some key_b) = Some (None, Some w3) ∧
    entries w2 = Some [(key_a, val_1)] ∧ C.size (self w2) = C.size (self world_a).
Proof.
  split; [vm_compute; reflexivity|]. split; [vm_compute; reflexivity|].
  split; [vm_compute; reflexivity|]. split; [reflexivity|]. split; [done|].
  destruct (put_then_delete 2 [] [Put (Some key_a) (Some val_1)] world_a [(key_a, val_1)]
              key_b val_2 world_a_b) as (w2 & w3 & Ed & Eg & Hback).
  - vm_compute; reflexivity.
  - vm_compute; reflexivity.
  - vm_compute; reflexivity.
  - exists w2, w3. split; [exact Ed|]. split; [exact Eg|].
    apply Hback; [reflexivity | done].
Defined.

Lemma recency_both_ways_witness :
  reach 2 [] put_a_b = Some world_a_b ∧
  recency world_a_b = Some [2; 1]%positive ∧
  recency_backwards world_a_b = Some (reverse [2; 1]%positive) ∧
  C.head (self world_a_b) = head [2; 1]%positive ∧
  C.tail (self world_a_b) = last [2; 1]%positive ∧
  (C.head (self world_a_b) = None ↔ C.size (self world_a_b) = 0) ∧
  (C.tail (self world_a_b) = None ↔ C.size (self world_a_b) = 0).
Proof.
  split; [vm_compute; reflexivity|]. split; [vm_compute; reflexivity|].
  apply (recency_both_ways 2 [] put_a_b world_a_b [2; 1]%positive).
  - vm_compute; reflexivity.
  - vm_compute; reflexivity.
Defined.

Lemma store_holds_the_entries_witness :
  reach 2 [] put_a_b = Some world_a_b ∧
  ∃ l, recency world_a_b = Some l ∧
    (∀ p, is_Some (nodes world_a_b !! p) ↔ p ∈ l) ∧
    Z.of_nat (base.size (nodes world_a_b)) = C.size (self world_a_b) ∧
    Z.of_nat (base.size (nodes world_a_b)) ≤ 2.
Proof.
  split; [vm_compute; reflexivity|].
  apply (store_holds_the_entries 2 [] put_a_b world_a_b). vm_compute; reflexivity.
Defined.

Lemma nodes_are_well_placed_witness :
  reach 2 [] put_a_b = Some world_a_b ∧
  nodes world_a_b !! 2%positive =
    Some (N.mk (Some key_b) (Some val_2) None (Some 1%positive) None) ∧
  ∃ k v bs i b,
    Some key_b = Some k ∧ Some val_2 = Some v ∧ cstr k = k ∧ cstr v = v ∧
    index_chains world_a_b = Some bs ∧ bs !! i = Some b ∧ 2%positive ∈ b ∧
    Z.of_nat i = hash_str k mod C.hsize (self world_a_b).
Proof.
  split; [vm_compute; reflexivity|]. split; [reflexivity|].
  apply (nodes_are_well_placed 2 [] put_a_b world_a_b 2%positive
           (N.mk (Some key_b) (Some val_2) None (Some 1%positive) None)).
  - vm_compute; reflexivity.
  - reflexivity.
Defined.
